(** * PPRL linkage pipeline: Bloom-filter encoding, BLIP hardening, Dice linkage

    A shallow embedding of [src/linkage/hashing.py], [src/linkage/hardening.py]
    and of [encode_bfs], [compare_record_pairs] and the check of the number of
    records in [src/linkage/encoder.py].

    Conventions.
    - A [bitarray] is a [list bool]; item access and assignment raise
      [IndexError] out of range, as in Python.
    - Python floats that are only ever compared ([random.random()], the flip
      probability, similarity values) are the rationals they denote: float
      comparison is exact, so [Qle_bool] and [Qeq_bool] decide it.
    - Python's module-level [random] generator is one global piece of state.
      It is threaded explicitly through every function that draws from it.
    - A failed [assert] or a raised exception is a [Raise] result. *)

From Stdlib Require Import ZArith QArith Lia Permutation.
From stdpp Require Import base option list strings gmap pretty.

Local Open Scope string_scope.
Local Open Scope list_scope.

(** ** Exceptions and results *)

Inductive exn : Type :=
  | AssertionError
  | IndexError
  | KeyError
  | ValueError.

Inductive result (A : Type) : Type :=
  | Ok (a : A)
  | Raise (e : exn).
Arguments Ok {A} a.
Arguments Raise {A} e.

Definition result_bind {A B} (r : result A) (k : A -> result B) : result B :=
  match r with
  | Ok a => k a
  | Raise e => Raise e
  end.

Definition is_ok {A} (r : result A) : bool :=
  match r with Ok _ => true | Raise _ => false end.

(** ** The [random] module

    The operations of Python's [random] module that the pipeline calls, over an
    abstract generator state.  [rnd_seed n] is the state installed by
    [random.seed(n)]; the other operations return their value together with the
    advanced state.  [rnd_choice01] is [random.choice([0,1])], its result
    read as a bit. *)

Record RandomModule : Type := {
  rnd_state : Type;
  rnd_seed : Z -> rnd_state;
  rnd_random : rnd_state -> Q * rnd_state;
  rnd_randint : Z -> Z -> rnd_state -> Z * rnd_state;
  rnd_choice01 : rnd_state -> bool * rnd_state;
  rnd_shuffle : forall A : Type, list A -> rnd_state -> list A * rnd_state
}.

(** The documented contracts of these operations. *)

Definition random_in_unit_interval (R : RandomModule) : Prop :=
  forall g, (0 <= fst (rnd_random R g))%Q /\ (fst (rnd_random R g) < 1)%Q.

Definition randint_in_range (R : RandomModule) : Prop :=
  forall a b g, (a <= b)%Z ->
    (a <= fst (rnd_randint R a b g) <= b)%Z.

Definition shuffle_permutes (R : RandomModule) : Prop :=
  forall (A : Type) (l : list A) g, Permutation (fst (rnd_shuffle R A l g)) l.

(** ** Computations over the global generator *)

Section Run.
Context (R : RandomModule).

Definition M (A : Type) : Type := rnd_state R -> result (A * rnd_state R).

Definition ret {A} (a : A) : M A := fun g => Ok (a, g).

Definition bind {A B} (m : M A) (k : A -> M B) : M B :=
  fun g => match m g with
           | Ok (a, g') => k a g'
           | Raise e => Raise e
           end.

Definition raise {A} (e : exn) : M A := fun _ => Raise e.

(** [assert c] *)
Definition assert (c : bool) : M unit :=
  if c then ret tt else raise AssertionError.

(** Lifting the generator's operations. *)
Definition draw {A} (f : rnd_state R -> A * rnd_state R) : M A :=
  fun g => Ok (f g).

(** [random.seed(n)] *)
Definition reseed (n : Z) : M unit := fun _ => Ok (tt, rnd_seed R n).

(** Lifting a pure result. *)
Definition lift {A} (r : result A) : M A :=
  fun g => match r with Ok a => Ok (a, g) | Raise e => Raise e end.

(** [for x in l: s = body x s] *)
Fixpoint for_each {A S} (l : list A) (body : A -> S -> M S) (s : S) : M S :=
  match l with
  | [] => ret s
  | x :: l' => bind (body x s) (for_each l' body)
  end.
End Run.

Arguments ret {R A} a.
Arguments bind {R A B} m k.
Arguments raise {R A} e.
Arguments assert {R} c.
Arguments draw {R A} f.
Arguments reseed {R} n.
Arguments lift {R A} r.
Arguments for_each {R A S} l body s.

#[export] Instance M_ret (R : RandomModule) : MRet (M R) := @ret R.
#[export] Instance M_bind (R : RandomModule) : MBind (M R) :=
  fun A B k m => bind m k.

(** The value of a computation started in state [g], without the final state. *)
Definition eval {R A} (m : M R A) (g : rnd_state R) : result A :=
  match m g with
  | Ok (a, _) => Ok a
  | Raise e => Raise e
  end.

(** ** Bit arrays *)

Abbreviation bitarray := (list bool).

(** [bf[pos]] for a non-negative position. *)
Definition getitem (bf : bitarray) (pos : nat) : result bool :=
  match bf !! pos with
  | Some b => Ok b
  | None => Raise IndexError
  end.

(** [bf[pos] = b] for a non-negative position. *)
Definition setitem (bf : bitarray) (pos : nat) (b : bool) : result bitarray :=
  if decide (pos < length bf) then Ok (<[pos := b]> bf) else Raise IndexError.

(** [bf[pos] = b] for a Python integer: a negative index counts from the end. *)
Definition setitem_int (bf : bitarray) (pos : Z) (b : bool) : result bitarray :=
  if (0 <=? pos)%Z then setitem bf (Z.to_nat pos) b
  else if (- Z.of_nat (length bf) <=? pos)%Z
       then setitem bf (Z.to_nat (Z.of_nat (length bf) + pos)) b
       else Raise IndexError.

(** [bf.count(1)] *)
Fixpoint popcount (bf : bitarray) : nat :=
  match bf with
  | [] => 0
  | b :: bf' => (if b then 1 else 0) + popcount bf'
  end.

(** ** hardening.py: class BLIP *)

Record BLIP : Type := {
  blip_type : string;
  sel_method : string;
  random_seed : option Z;
  blip_prob : Q
}.

(** [BLIP.__init__] *)
Definition BLIP_init (sel : string) (prob : Q) (rseed : option Z) : result BLIP :=
  if negb (String.eqb sel "ala" || String.eqb sel "sch") then Raise AssertionError
  else if negb (Qle_bool 0 prob && Qle_bool prob 1) then Raise AssertionError
  else Ok {| blip_type := "BLP"; sel_method := sel;
             random_seed := rseed; blip_prob := prob |}.

Section Hardening.
Context (R : RandomModule).

(** The body of the loop of [harden_bf] at position [pos]. *)
Definition harden_pos (self : BLIP) (bf : bitarray) (pos : nat)
    (blip_bf : bitarray) : M R bitarray :=
  rand ← draw (rnd_random R);
  new_bit ←
    (if Qle_bool rand (blip_prob self) then
       if String.eqb (sel_method self) "ala" then
         bit ← lift (getitem bf pos);
         ret (if Bool.eqb bit false then true else false)
       else if String.eqb (sel_method self) "sch" then
         bit_val ← draw (rnd_choice01 R);
         ret bit_val
       else ret false
     else lift (getitem bf pos));
  lift (setitem blip_bf pos new_bit).

(** [BLIP.harden_bf].  [bitarray.bitarray(bf_len)] is uninitialised; every
    position of it is assigned by the loop. *)
Definition harden_bf (self : BLIP) (bf : bitarray) : M R bitarray :=
  let bf_len := length bf in
  blip_bf ← for_each (seq 0 bf_len) (harden_pos self bf) (replicate bf_len false);
  assert (Nat.eqb (length bf) (length blip_bf));;
  ret blip_bf.

(** The same pass read off bit by bit: what each position becomes and what
    state it leaves. *)
Definition harden_bit (self : BLIP) (bit : bool) (g : rnd_state R)
    : bool * rnd_state R :=
  let '(rand, g1) := rnd_random R g in
  if Qle_bool rand (blip_prob self) then
    if String.eqb (sel_method self) "ala" then (negb bit, g1)
    else if String.eqb (sel_method self) "sch" then rnd_choice01 R g1
    else (false, g1)
  else (bit, g1).

Fixpoint harden_bits (self : BLIP) (bf : bitarray) (g : rnd_state R)
    : bitarray * rnd_state R :=
  match bf with
  | [] => ([], g)
  | bit :: rest =>
      let '(new_bit, g1) := harden_bit self bit g in
      let '(out, g2) := harden_bits self rest g1 in
      (new_bit :: out, g2)
  end.

(** [hardening.BLIP(sel, prob, rseed).harden_bf(bf)] *)
Definition blip_harden (sel : string) (prob : Q) (rseed : option Z)
    (bf : bitarray) : M R bitarray :=
  hd_instance ← lift (BLIP_init sel prob rseed);
  harden_bf hd_instance bf.

(** The state after [n] calls of [random.random()]. *)
Fixpoint skip_random (n : nat) (g : rnd_state R) : rnd_state R :=
  match n with
  | O => g
  | S n' => skip_random n' (snd (rnd_random R g))
  end.

(** The next [n] values of [random.random()] are all above zero. *)
Fixpoint positive_draws (n : nat) (g : rnd_state R) : Prop :=
  match n with
  | O => True
  | S n' => (0 < fst (rnd_random R g))%Q /\ positive_draws n' (snd (rnd_random R g))
  end.
End Hardening.

(** ** hashing.py: class RandomHashing

    [hash_funct] stands for the configured hash constructor together with the
    two conversions the method applies to it: [hash_funct s] is
    [int(hash_funct(s.encode("utf-8")).hexdigest(), 16)].  A Python string is
    represented by its UTF-8 bytes, so [+] on strings is [String.append]. *)

Record RandomHashing : Type := {
  hash_funct : string -> Z;
  bf_len : Z;
  num_hash_funct : Z;
  get_q_gram_pos : bool
}.

(** [RandomHashing.__init__] *)
Definition RandomHashing_init (hf : string -> Z) (len k : Z) (get_pos : bool)
    : result RandomHashing :=
  if negb (1 <? len)%Z then Raise AssertionError
  else if negb (0 <? k)%Z then Raise AssertionError
  else Ok {| hash_funct := hf; bf_len := len; num_hash_funct := k;
             get_q_gram_pos := get_pos |}.

(** [range(k)] for a Python integer. *)
Definition range (k : Z) : list nat := seq 0 (Z.to_nat k).

Section Hashing.
Context (R : RandomModule).

(** [random.randint(a, b)]: an empty range is a [ValueError]. *)
Definition randint (a b : Z) : M R Z :=
  if (a <=? b)%Z then draw (rnd_randint R a b) else raise ValueError.

(** One round of the inner loop [for i in range(k)]. *)
Definition hash_draw (self : RandomHashing) (bf_len_m1 : Z) (i : nat)
    (st : bitarray * gset Z) : M R (bitarray * gset Z) :=
  let '(bf, q_gram_pos_set) := st in
  pos_i ← randint 0 bf_len_m1;
  bf ← lift (setitem_int bf pos_i true);
  ret (bf, if get_q_gram_pos self then {[pos_i]} ∪ q_gram_pos_set
           else q_gram_pos_set).

(** The body of the loop [for q_gram in q_gram_set]. *)
Definition hash_q_gram (self : RandomHashing) (salt_str : option string)
    (bf_len_m1 : Z) (q_gram : string)
    (st : bitarray * gmap string (gset Z)) : M R (bitarray * gmap string (gset Z)) :=
  let '(bf, q_gram_pos_dict) := st in
  let q_gram := match salt_str with
                | Some salt => String.append q_gram salt
                | None => q_gram
                end in
  reseed (hash_funct self q_gram);;
  '(bf, q_gram_pos_set) ←
    for_each (range (num_hash_funct self)) (hash_draw self bf_len_m1) (bf, ∅);
  ret (bf, if get_q_gram_pos self then <[q_gram := q_gram_pos_set]> q_gram_pos_dict
           else q_gram_pos_dict).

(** [RandomHashing.hash_q_gram_set].  The q-gram set is given in its
    iteration order.  The result is the Bloom filter and, when
    [get_q_gram_pos] is set, the position dictionary. *)
Definition hash_q_gram_set (self : RandomHashing) (q_gram_set : list string)
    (salt_str : option string) : M R (bitarray * option (gmap string (gset Z))) :=
  if (bf_len self <? 0)%Z then raise ValueError else
  let bf := replicate (Z.to_nat (bf_len self)) false in
  let bf_len_m1 := (bf_len self - 1)%Z in
  '(bf, q_gram_pos_dict) ←
    for_each q_gram_set (hash_q_gram self salt_str bf_len_m1) (bf, ∅);
  if get_q_gram_pos self then ret (bf, Some q_gram_pos_dict)
  else ret (bf, None).

(** What the method computes, read off the loops: the positions one q-gram
    draws after reseeding, and the bits and the dictionary they make. *)

(** [n] successive values of [random.randint(a, b)] from state [g]. *)
Fixpoint randint_draws (n : nat) (a b : Z) (g : rnd_state R)
    : list Z * rnd_state R :=
  match n with
  | O => ([], g)
  | S n' =>
      let '(pos, g1) := rnd_randint R a b g in
      let '(rest, g2) := randint_draws n' a b g1 in
      (pos :: rest, g2)
  end.

Definition salted (salt_str : option string) (q_gram : string) : string :=
  match salt_str with
  | Some salt => String.append q_gram salt
  | None => q_gram
  end.

(** The positions drawn for the (salted) q-gram [key]. *)
Definition key_positions (self : RandomHashing) (key : string) : list Z :=
  fst (randint_draws (Z.to_nat (num_hash_funct self)) 0 (bf_len self - 1)
         (rnd_seed R (hash_funct self key))).

Definition set_bits (positions : list Z) (bf : bitarray) : bitarray :=
  foldl (fun bf pos => <[Z.to_nat pos := true]> bf) bf positions.

Definition hashed_bits (self : RandomHashing) (salt_str : option string)
    (q_gram_set : list string) (bf : bitarray) : bitarray :=
  set_bits (concat (map (fun q => key_positions self (salted salt_str q)) q_gram_set)) bf.

Definition hashed_dict (self : RandomHashing) (salt_str : option string)
    (q_gram_set : list string) (d : gmap string (gset Z)) : gmap string (gset Z) :=
  foldl (fun d q => <[salted salt_str q :=
                        list_to_set (key_positions self (salted salt_str q))]> d)
        d q_gram_set.

(** The state the generator is left in by the outer loop. *)
Definition state_after (self : RandomHashing) (salt_str : option string)
    (q_gram_set : list string) (g : rnd_state R) : rnd_state R :=
  foldl (fun _ q =>
           snd (randint_draws (Z.to_nat (num_hash_funct self)) 0 (bf_len self - 1)
                  (rnd_seed R (hash_funct self (salted salt_str q)))))
        g q_gram_set.
End Hashing.

(** ** Python dictionaries

    A [dict] keeps its keys in insertion order; assigning to a key that is
    present replaces the value and keeps the key's place. *)

Abbreviation dict V := (list (string * V)).

Section Dict.
Context {V : Type}.

(** [d[k] = v] *)
Fixpoint dict_set (k : string) (v : V) (d : dict V) : dict V :=
  match d with
  | [] => [(k, v)]
  | (k', v') :: d' =>
      if String.eqb k' k then (k', v) :: d' else (k', v') :: dict_set k v d'
  end.

(** [k in d] *)
Definition dict_in (k : string) (d : dict V) : bool :=
  existsb (fun kv => String.eqb (fst kv) k) d.

(** [d[k]] *)
Fixpoint dict_get (k : string) (d : dict V) : result V :=
  match d with
  | [] => Raise KeyError
  | (k', v') :: d' => if String.eqb k' k then Ok v' else dict_get k d'
  end.

(** [dict(l)] for a list of items *)
Definition dict_of_items (l : list (string * V)) : dict V :=
  fold_left (fun d kv => dict_set (fst kv) (snd kv) d) l [].

(** [{**d1, **d2}] *)
Definition dict_merge (d1 d2 : dict V) : dict V :=
  fold_left (fun d kv => dict_set (fst kv) (snd kv) d) d2 d1.

Definition keys (d : dict V) : list string := map fst d.
Definition values (d : dict V) : list V := map snd d.
End Dict.

(** ** simcalc.bit_array_dice_sim *)

(** [a & b] on bit arrays of equal length. *)
Definition bit_and (a b : bitarray) : bitarray := zip_with andb a b.

(** Modelled from the spec: the module [simcalc] is imported by
    [encoder.py] and is not part of the sources.  The spec gives
    Dice(A,B) = 2·popcount(A AND B) / (popcount(A)+popcount(B)), defined as 0
    when both popcounts are 0.  The quotient is kept exact. *)
Definition bit_array_dice_sim (a b : bitarray) : Q :=
  let total := (popcount a + popcount b)%nat in
  if Nat.eqb total 0 then 0%Q
  else Qmake (2 * Z.of_nat (popcount (bit_and a b))) (Pos.of_nat total).

(** ** encoder.py: the comparison of record pairs *)

Definition FILTERED_ID_TYPES : list string :=
  ["f_h"; "f_l"; "f_a"; "q_f"; "q_r"; "q_a"; "l_h"; "l_s"; "l_a";
   "r1"; "r2"; "r3"; "b"].

(** A record: a dictionary whose keys [q_gram_set], [og_bf] and [hd_bf] are
    filled in by successive stages. *)
Record rec_data : Type := {
  q_gram_set : option (list string);
  og_bf : option bitarray;
  hd_bf : option bitarray
}.

(** [rec_data[attr]] *)
Definition get_attr {A} (field : option A) : result A :=
  match field with
  | Some a => Ok a
  | None => Raise KeyError
  end.

(** [attr in rec_data] *)
Definition has_attr {A} (field : option A) : bool :=
  match field with Some _ => true | None => false end.

(** [rec_data[BLIP_BF_ATTR] = bf] *)
Definition set_hd_bf (r : rec_data) (bf : bitarray) : rec_data :=
  {| q_gram_set := q_gram_set r; og_bf := og_bf r; hd_bf := Some bf |}.

(** The four outcome counts of one similarity variant, keyed in the source by
    ["1-1-correct"], ["1-1-wrong"], ["1-n-correct"] and ["1-n-wrong"]. *)
Record sim_counters : Type := {
  one_one_correct : nat;
  one_one_wrong : nat;
  one_n_correct : nat;
  one_n_wrong : nat
}.

(** [res_dict[rec_type]]: the counts under ["og_bf_dice"] and ["blip_bf_dice"]. *)
Record type_counters : Type := {
  og_bf_dice : sim_counters;
  blip_bf_dice : sim_counters
}.

Inductive outcome : Type :=
  | OneOneCorrect
  | OneOneWrong
  | OneNCorrect
  | OneNWrong.

(** [counters[outcome] += 1] *)
Definition incr (o : outcome) (c : sim_counters) : sim_counters :=
  match o with
  | OneOneCorrect =>
      {| one_one_correct := S (one_one_correct c); one_one_wrong := one_one_wrong c;
         one_n_correct := one_n_correct c; one_n_wrong := one_n_wrong c |}
  | OneOneWrong =>
      {| one_one_correct := one_one_correct c; one_one_wrong := S (one_one_wrong c);
         one_n_correct := one_n_correct c; one_n_wrong := one_n_wrong c |}
  | OneNCorrect =>
      {| one_one_correct := one_one_correct c; one_one_wrong := one_one_wrong c;
         one_n_correct := S (one_n_correct c); one_n_wrong := one_n_wrong c |}
  | OneNWrong =>
      {| one_one_correct := one_one_correct c; one_one_wrong := one_one_wrong c;
         one_n_correct := one_n_correct c; one_n_wrong := S (one_n_wrong c) |}
  end.

Definition zero_counters : sim_counters :=
  {| one_one_correct := 0; one_one_wrong := 0; one_n_correct := 0; one_n_wrong := 0 |}.

Definition total (c : sim_counters) : nat :=
  one_one_correct c + one_one_wrong c + one_n_correct c + one_n_wrong c.

(** [max(l)]: the first of the largest elements; [ValueError] on an empty list. *)
Definition py_max (l : list Q) : result Q :=
  match l with
  | [] => Raise ValueError
  | x :: l' => Ok (fold_left (fun m v => if Qle_bool v m then m else v) l' x)
  end.

(** [[k for k, v in sim_data.items() if v == max_value]] *)
Definition max_keys_of (sim_data : dict Q) (max_value : Q) : list string :=
  map fst (filter (fun kv => Qeq_bool (snd kv) max_value = true) sim_data).

(** The body of [for index, sim_type in enumerate(sim_types)] for one
    similarity dictionary: find the best matches and count the outcome. *)
Definition tally (rec_id : string) (sim_data : dict Q) (c : sim_counters)
    : result sim_counters :=
  result_bind (py_max (values sim_data)) (fun max_value =>
  let max_keys := max_keys_of sim_data max_value in
  result_bind
    (if Nat.eqb (length max_keys) 1 then
       match max_keys !! 0%nat with
       | Some k0 =>
           if String.eqb k0 rec_id then Ok (incr OneOneCorrect c)
           else Ok (incr OneOneWrong c)
       | None => Raise IndexError
       end
     else Ok c) (fun c =>
  if Nat.ltb 1 (length max_keys) then
    if existsb (String.eqb rec_id) max_keys then Ok (incr OneNCorrect c)
    else Ok (incr OneNWrong c)
  else Ok c)).

Section Compare.
Context (R : RandomModule).

(** A hardening pass:
    [for rec_id, rec_data in d.items():
       assert OG_BF_ATTR in rec_data
       rec_data[BLIP_BF_ATTR] = hd_instance.harden_bf(rec_data[OG_BF_ATTR])] *)
Fixpoint harden_records (hd_instance : BLIP) (d : dict rec_data)
    : M R (dict rec_data) :=
  match d with
  | [] => ret []
  | (rec_id, rec) :: d' =>
      assert (has_attr (og_bf rec));;
      og ← lift (get_attr (og_bf rec));
      hd ← harden_bf R hd_instance og;
      d'' ← harden_records hd_instance d';
      ret ((rec_id, set_hd_bf rec hd) :: d'')
  end.

(** The body of [for comp_rec_id, comp_rec_data in
    all_records_to_compare.items()]: the two similarities of the query
    [rec] with one candidate. *)
Definition compare_pair (rec : rec_data) (comp : string * rec_data)
    (sims : dict Q * dict Q) : M R (dict Q * dict Q) :=
  let '(comp_rec_id, comp_rec_data) := comp in
  let '(og_bf_dice_sim, blip_bf_dice_sim) := sims in
  assert (has_attr (q_gram_set comp_rec_data));;
  assert (has_attr (og_bf comp_rec_data));;
  assert (has_attr (hd_bf comp_rec_data));;
  rec_og ← lift (get_attr (og_bf rec));
  comp_og ← lift (get_attr (og_bf comp_rec_data));
  let og_bf_dice_sim :=
    dict_set comp_rec_id (bit_array_dice_sim rec_og comp_og) og_bf_dice_sim in
  rec_hd ← lift (get_attr (hd_bf rec));
  comp_hd ← lift (get_attr (hd_bf comp_rec_data));
  let blip_bf_dice_sim :=
    dict_set comp_rec_id (bit_array_dice_sim rec_hd comp_hd) blip_bf_dice_sim in
  ret (og_bf_dice_sim, blip_bf_dice_sim).

(** The body of the query loop [for rec_id, rec_data in
    rec_type_dict.items()], with [res] standing for [res_dict[rec_type]].
    The diagnostic printing of the first 25 queries is left out. *)
Definition compare_query (all_records_to_compare : dict rec_data)
    (query : string * rec_data) (res : type_counters) : M R type_counters :=
  let '(rec_id, rec) := query in
  assert (has_attr (q_gram_set rec));;
  assert (has_attr (og_bf rec));;
  assert (has_attr (hd_bf rec));;
  '(og_bf_dice_sim, blip_bf_dice_sim) ←
    for_each all_records_to_compare (compare_pair rec) ([], []);
  og ← lift (tally rec_id og_bf_dice_sim (og_bf_dice res));
  blip ← lift (tally rec_id blip_bf_dice_sim (blip_bf_dice res));
  ret {| og_bf_dice := og; blip_bf_dice := blip |}.

(** The size check on the comparison pool (a chained comparison):
    [len(all_records_to_compare) == (len(rec_type_dict) + len(base_records))
       == (base_sample_size + 1000)] *)
Definition pool_size_ok (all_records_to_compare rec_type_dict base_records : dict rec_data)
    (base_sample_size : Z) : bool :=
  (Z.of_nat (length all_records_to_compare)
     =? Z.of_nat (length rec_type_dict) + Z.of_nat (length base_records))%Z
  && (Z.of_nat (length rec_type_dict) + Z.of_nat (length base_records)
     =? base_sample_size + 1000)%Z.

(** The body of the loop over record types for a type other than ["b"], in
    two parts.  First the pool is built and both hardening passes run.
    [copy.deepcopy] is the identity on values; what it matters for is that
    the pool holds copies made before the first hardening pass, so the pass
    over [rec_type_dict] and the pass over the pool write to different
    records.  The result is the hardened [rec_type_dict] and the hardened
    [all_records_to_compare]. *)
Definition build_pool (base_records : dict rec_data)
    (blip_sel_method : string) (blip_flip_prob : Q)
    (rec_type_dict : dict rec_data) : M R (dict rec_data * dict rec_data) :=
  let base_deep_copy := base_records in
  let rec_t_deep_copy := rec_type_dict in
  let all_records_to_compare := dict_merge base_deep_copy rec_t_deep_copy in
  l ← draw (rnd_shuffle R _ all_records_to_compare);
  let all_records_to_compare := dict_of_items l in
  hd_instance1 ← lift (BLIP_init blip_sel_method blip_flip_prob (Some 42%Z));
  rec_type_dict ← harden_records hd_instance1 rec_type_dict;
  hd_instance2 ← lift (BLIP_init blip_sel_method blip_flip_prob (Some 42%Z));
  all_records_to_compare ← harden_records hd_instance2 all_records_to_compare;
  ret (rec_type_dict, all_records_to_compare).

(** Then the pool's size is checked and the queries are compared. *)
Definition compare_rec_type (base_records : dict rec_data)
    (blip_sel_method : string) (blip_flip_prob : Q) (base_sample_size : Z)
    (rec_type : string) (rec_type_dict : dict rec_data)
    (res_dict : dict type_counters) : M R (dict type_counters) :=
  assert (existsb (String.eqb rec_type) FILTERED_ID_TYPES
          && negb (dict_in rec_type res_dict));;
  let res_dict :=
    dict_set rec_type {| og_bf_dice := zero_counters;
                         blip_bf_dice := zero_counters |} res_dict in
  '(rec_type_dict, all_records_to_compare) ←
    build_pool base_records blip_sel_method blip_flip_prob rec_type_dict;
  assert (pool_size_ok all_records_to_compare rec_type_dict base_records
            base_sample_size);;
  res ← for_each rec_type_dict (compare_query all_records_to_compare)
          {| og_bf_dice := zero_counters; blip_bf_dice := zero_counters |};
  ret (dict_set rec_type res res_dict).

(** [compare_record_pairs]; the result is [res_dict], which the source
    prints as a table. *)
Definition compare_record_pairs (data_dict : dict (dict rec_data))
    (blip_sel_method : string) (blip_flip_prob : Q) (base_sample_size : Z)
    : M R (dict type_counters) :=
  base_records ← lift (dict_get "b" data_dict);
  for_each data_dict
    (fun entry res_dict =>
       let '(rec_type, rec_type_dict) := entry in
       if String.eqb rec_type "b" then ret res_dict
       else compare_rec_type base_records blip_sel_method blip_flip_prob
              base_sample_size rec_type rec_type_dict res_dict)
    [].
End Compare.

(** ** What the comparison is meant to compute

    The notions the claims about the comparison are phrased in. *)

(** A record that has been read and encoded. *)
Definition encoded_rec (r : rec_data) : Prop :=
  is_Some (q_gram_set r) /\ is_Some (og_bf r).

(** A record with all three attributes present. *)
Definition complete_rec (r : rec_data) : Prop :=
  is_Some (q_gram_set r) /\ is_Some (og_bf r) /\ is_Some (hd_bf r).

(** The similarity of a query with every candidate of the pool, for the
    bit vector selected by [field]. *)
Definition sims_of (field : rec_data -> option bitarray) (rec : rec_data)
    (pool : dict rec_data) : dict Q :=
  map (fun comp => (fst comp,
                    bit_array_dice_sim (default [] (field rec))
                                       (default [] (field (snd comp))))) pool.

(** [m] is the largest of the values [l]. *)
Definition is_maximum (m : Q) (l : list Q) : Prop :=
  m ∈ l /\ forall v, v ∈ l -> (v <= m)%Q.

(** [ks] is the set of all candidates of [sim_data] whose similarity is [m]. *)
Definition all_attaining (sim_data : dict Q) (m : Q) (ks : list string) : Prop :=
  NoDup ks /\ forall k, k ∈ ks <-> exists v, (k, v) ∈ sim_data /\ (v == m)%Q.

(** The outcome of a query, in the words of the specification: 1-1-correct
    if the maximal set is the singleton of the query's identifier, 1-1-wrong
    if it is another singleton, 1-n-correct if it has more than one member and
    the query is among them, 1-n-wrong otherwise. *)
Definition outcome_of (rec_id : string) (max_set : list string) : outcome :=
  if decide (max_set = [rec_id]) then OneOneCorrect
  else if decide (length max_set = 1) then OneOneWrong
  else if decide (rec_id ∈ max_set) then OneNCorrect
  else OneNWrong.

(** Exactly one of the four counters is incremented, the one of outcome [o]:
    in [c'] that counter is one higher than in [c], and the other three are as
    in [c]. *)
Definition counted_once (o : outcome) (c c' : sim_counters) : Prop :=
  one_one_correct c'
  = one_one_correct c + match o with OneOneCorrect => 1 | _ => 0 end
  /\ one_one_wrong c'
     = one_one_wrong c + match o with OneOneWrong => 1 | _ => 0 end
  /\ one_n_correct c'
     = one_n_correct c + match o with OneNCorrect => 1 | _ => 0 end
  /\ one_n_wrong c'
     = one_n_wrong c + match o with OneNWrong => 1 | _ => 0 end.

(** ** A concrete generator

    A generator whose state is the tape of 32-bit words it will output next
    (zeros once the tape is used up).  Values are derived from the words the
    way CPython derives them from its word source: [random()] joins the top 27
    and 26 bits of two words into a 53-bit fraction, and a number below [n] is
    the top [bit_length n] bits of a word, redrawn while it is not below [n].
    It serves to run the pipeline on concrete inputs. *)

Module Tape.
Definition state : Type := list Z.

Definition genrand_uint32 (g : state) : Z * state :=
  match g with
  | [] => (0%Z, [])
  | w :: g' => ((w mod 2 ^ 32)%Z, g')
  end.

Definition random (g : state) : Q * state :=
  let '(a, g1) := genrand_uint32 g in
  let '(b, g2) := genrand_uint32 g1 in
  (Qmake (Z.shiftr a 5 * 67108864 + Z.shiftr b 6) (2 ^ 53)%positive, g2).

Definition bit_length (n : Z) : Z :=
  if (n <=? 0)%Z then 0%Z else (Z.log2 n + 1)%Z.

Fixpoint randbelow (n : Z) (g : state) : Z * state :=
  match g with
  | [] => (0%Z, [])
  | w :: g' =>
      let r := Z.shiftr (w mod 2 ^ 32) (32 - bit_length n) in
      if (r <? n)%Z then (r, g') else randbelow n g'
  end.

Definition randint (a b : Z) (g : state) : Z * state :=
  let '(r, g') := randbelow (b - a + 1) g in ((a + r)%Z, g').

Definition choice01 (g : state) : bool * state :=
  let '(r, g') := randbelow 2 g in ((r =? 1)%Z, g').

(** Shuffling by drawing the elements one at a time without replacement. *)
Fixpoint shuffle_from (A : Type) (n : nat) (l : list A) (g : state)
    : list A * state :=
  match n with
  | O => (l, g)
  | S n' =>
      let '(j, g1) := randbelow (Z.of_nat (length l)) g in
      match l !! Z.to_nat j with
      | Some x =>
          let '(out, g2) :=
            shuffle_from A n' (take (Z.to_nat j) l ++ drop (S (Z.to_nat j)) l) g1 in
          (x :: out, g2)
      | None => (l, g1)
      end
  end.

Definition shuffle (A : Type) (l : list A) (g : state) : list A * state :=
  shuffle_from A (length l) l g.

(** Seeding: a tape of 16 words of a linear congruential sequence. *)
Fixpoint lcg (n : nat) (x : Z) : list Z :=
  match n with
  | O => []
  | S n' =>
      let x' := ((x * 1103515245 + 12345) mod 2 ^ 32)%Z in
      x' :: lcg n' x'
  end.

Definition seed (n : Z) : state := lcg 16 (Z.abs n).

Definition R : RandomModule :=
  {| rnd_state := state;
     rnd_seed := seed;
     rnd_random := random;
     rnd_randint := randint;
     rnd_choice01 := choice01;
     rnd_shuffle := shuffle |}.
End Tape.

(** A stand-in for the configured hash function on concrete inputs: the bytes
    of the string read as a number in base 256. *)
Fixpoint radix_hash_from (acc : Z) (s : string) : Z :=
  match s with
  | EmptyString => acc
  | String c s' => radix_hash_from (acc * 256 + Z.of_nat (Ascii.nat_of_ascii c)) s'
  end.

Definition radix_hash (s : string) : Z := radix_hash_from 0 s.

(** Records for concrete inputs: an encoded record, and one that also
    carries a hardened vector. *)
Definition demo_rec (q_grams : list string) (bf : bitarray) : rec_data :=
  {| q_gram_set := Some q_grams; og_bf := Some bf; hd_bf := None |}.

Definition demo_hardened (q_grams : list string) (bf hd : bitarray) : rec_data :=
  {| q_gram_set := Some q_grams; og_bf := Some bf; hd_bf := Some hd |}.

(** ** Further notions for the hardening pass *)

(** Which of the next [n] values of [random.random()] pass the test
    [rand <= prob]. *)
Fixpoint selection_mask (R : RandomModule) (prob : Q) (n : nat)
    (g : rnd_state R) : list bool :=
  match n with
  | O => []
  | S n' =>
      Qle_bool (fst (rnd_random R g)) prob
        :: selection_mask R prob n' (snd (rnd_random R g))
  end.

(** ** encoder.py: encode_bfs *)

(** [rec_data[OG_BF_ATTR] = bf] *)
Definition set_og_bf (r : rec_data) (bf : bitarray) : rec_data :=
  {| q_gram_set := q_gram_set r; og_bf := Some bf; hd_bf := hd_bf r |}.

Section Encode.
Context (R : RandomModule).

(** [for k, v in d.items(): d[k] = body k v], the entries updated in place
    and in order. *)
Fixpoint map_dict {V : Type} (body : string -> V -> M R V) (d : dict V)
    : M R (dict V) :=
  match d with
  | [] => ret []
  | (k, v) :: d' =>
      v' ← body k v;
      d'' ← map_dict body d';
      ret ((k, v') :: d'')
  end.

(** The body of the inner loop of [encode_bfs]:
    [bf = RH.hash_q_gram_set(rec_data[Q_GRAM_SET_ATTR])] and
    [data_dict[rec_type][rec_id][OG_BF_ATTR] = bf]. *)
Definition encode_rec (RH : RandomHashing) (rec_id : string) (rec : rec_data)
    : M R rec_data :=
  qs ← lift (get_attr (q_gram_set rec));
  '(bf, _) ← hash_q_gram_set R RH qs None;
  ret (set_og_bf rec bf).

(** [encode_bfs], with [md5] standing for [hashlib.md5] (read as an integer,
    like [hash_funct]).  The records of the dictionary are distinct objects,
    as [read_extracted_data] creates them; the progress messages are left
    out. *)
Definition encode_bfs (md5 : string -> Z) (data_dict : dict (dict rec_data))
    (l_b k_val : Z) : M R (dict (dict rec_data)) :=
  RH ← lift (RandomHashing_init md5 l_b k_val false);
  map_dict (fun rec_type rec_type_dict => map_dict (encode_rec RH) rec_type_dict)
           data_dict.
End Encode.

(** [r'] is [r] with the Bloom filter of its q-gram set stored as [og_bf]. *)
Definition encodes (R : RandomModule) (RH : RandomHashing) (l_b : Z)
    (r r' : rec_data) : Prop :=
  exists qs, q_gram_set r = Some qs
             /\ r' = set_og_bf r (hashed_bits R RH None qs
                                    (replicate (Z.to_nat l_b) false)).

(** [r'] is [r] with an original Bloom filter of [l_b] bits added. *)
Definition encoded_as (l_b : Z) (r r' : rec_data) : Prop :=
  q_gram_set r' = q_gram_set r
  /\ hd_bf r' = hd_bf r
  /\ exists bf, og_bf r' = Some bf /\ Z.of_nat (length bf) = l_b.

(** Two dictionaries with the same keys in the same order and related values. *)
Definition dict_related {V : Type} (P : V -> V -> Prop) (d d' : dict V) : Prop :=
  Forall2 (fun e e' => fst e' = fst e /\ P (snd e) (snd e')) d d'.

(** ** Further notions for the comparison *)

(** The identifiers of a dictionary of records with their original Bloom
    filters: what the original-variant comparison reads. *)
Definition og_view (d : dict rec_data) : list (string * option bitarray) :=
  map (fun kv => (fst kv, og_bf (snd kv))) d.

(** [max(sim_data.values())] where it exists. *)
Definition max_value_of (sim_data : dict Q) : Q :=
  match py_max (values sim_data) with
  | Ok m => m
  | Raise _ => 0%Q
  end.

(** The outcome of a query in the original variant. *)
Definition og_outcome (pool : dict rec_data) (query : string * rec_data) : outcome :=
  let sim_data := sims_of og_bf (snd query) pool in
  outcome_of (fst query) (max_keys_of sim_data (max_value_of sim_data)).

(** An outcome that counts the query among its best matches. *)
Definition is_correct (o : outcome) : Prop :=
  o = OneOneCorrect \/ o = OneNCorrect.

(** ** encoder.py: the check of the number of records

    Between reading and encoding, the main program collects the q-gram sets of
    all the records and checks how many there are. *)

(** [[rec_data[Q_GRAM_SET_ATTR] for rec_data in rec_type_dict.values()]] *)
Fixpoint q_gram_sets (rec_type_dict : dict rec_data)
    : result (list (list string)) :=
  match rec_type_dict with
  | [] => Ok []
  | (_, rec) :: d' =>
      result_bind (get_attr (q_gram_set rec)) (fun qs =>
      result_bind (q_gram_sets d') (fun l => Ok (qs :: l)))
  end.

(** [combined_qs_list] after
    [for rec_type, rec_type_dict in loaded_data_dict.items():
       combined_qs_list.extend([...])] *)
Fixpoint combined_qs_list (data_dict : dict (dict rec_data))
    : result (list (list string)) :=
  match data_dict with
  | [] => Ok []
  | (_, rec_type_dict) :: data' =>
      result_bind (q_gram_sets rec_type_dict) (fun l =>
      result_bind (combined_qs_list data') (fun rest => Ok (l ++ rest)))
  end.

(** [assert len(combined_qs_list) == (base_sample_size + 12000)] *)
Definition check_total (data_dict : dict (dict rec_data)) (base_sample_size : Z)
    : result unit :=
  result_bind (combined_qs_list data_dict) (fun l =>
  if (Z.of_nat (length l) =? base_sample_size + 12000)%Z then Ok tt
  else Raise AssertionError).

(** ** Data the pipeline runs on *)

(** The number of records of all record types together. *)
Definition record_count (data_dict : dict (dict rec_data)) : nat :=
  sum_list (map (fun d => length d) (values data_dict)).

(** Data as the pipeline expects it after reading: the thirteen record
    types, each once; a q-gram set in every record; [base_sample_size] records
    in the base pool ["b"]; and for every other type 1000 records with distinct
    identifiers that do not occur in the base pool. *)
Definition well_formed_data (base_sample_size : Z)
    (data_dict : dict (dict rec_data)) : Prop :=
  keys data_dict ≡ₚ FILTERED_ID_TYPES
  /\ Forall (fun t => Forall (fun kv => is_Some (q_gram_set (snd kv))) (snd t))
       data_dict
  /\ exists base,
       dict_get "b" data_dict = Ok base
       /\ (Z.of_nat (length base) = base_sample_size)%Z
       /\ forall t S, (t, S) ∈ data_dict -> t <> "b" ->
            length S = 1000 /\ NoDup (keys base ++ keys S).

(** Data for concrete runs: the records numbered from [start], the
    identifier and the only q-gram of a record being its number in decimal;
    1000 of them for each of the twelve subset types and one for the base
    pool. *)
Definition demo_subset (start n : Z) : dict rec_data :=
  (fun j => (pretty j,
             {| q_gram_set := Some [pretty j]; og_bf := None; hd_bf := None |}))
    <$> seqZ start n.

Definition demo_data : dict (dict rec_data) :=
  [("f_h", demo_subset 0 1000); ("f_l", demo_subset 1000 1000);
   ("f_a", demo_subset 2000 1000); ("q_f", demo_subset 3000 1000);
   ("q_r", demo_subset 4000 1000); ("q_a", demo_subset 5000 1000);
   ("l_h", demo_subset 6000 1000); ("l_s", demo_subset 7000 1000);
   ("l_a", demo_subset 8000 1000); ("r1", demo_subset 9000 1000);
   ("r2", demo_subset 10000 1000); ("r3", demo_subset 11000 1000);
   ("b", demo_subset 12000 1)].

(** * Properties *)

Ltac unfold_run :=
  unfold mbind, mret, M_bind, M_ret, bind, ret, lift, draw, assert, raise,
    reseed, eval in *.

Lemma for_each_nil {R : RandomModule} {A S : Type}
    (body : A -> S -> M R S) (s : S) g :
  for_each [] body s g = Ok (s, g).
Proof. reflexivity. Qed.

Lemma for_each_cons {R : RandomModule} {A S : Type}
    (x : A) (l : list A) (body : A -> S -> M R S) (s : S) g :
  for_each (x :: l) body s g
  = match body x s g with
    | Ok (s', g') => for_each l body s' g'
    | Raise e => Raise e
    end.
Proof. reflexivity. Qed.

(** ** Hardening *)

Section HardeningFacts.
Context (R : RandomModule).

Lemma getitem_middle (pre suf : bitarray) (b : bool) :
  getitem (pre ++ b :: suf) (length pre) = Ok b.
Proof.
  unfold getitem. by rewrite list_lookup_middle.
Qed.

Lemma setitem_in_range (bf : bitarray) (pos : nat) (b : bool) :
  pos < length bf -> setitem bf pos b = Ok (<[pos := b]> bf).
Proof.
  intros Hlt. unfold setitem. by rewrite decide_True.
Qed.

(** One round of the loop writes, at its position, the bit [harden_bit]
    computes. *)
Lemma harden_pos_bit (self : BLIP) (pre suf acc : bitarray) (b : bool) g :
  length pre < length acc ->
  harden_pos R self (pre ++ b :: suf) (length pre) acc g
  = Ok (<[length pre := fst (harden_bit R self b g)]> acc,
        snd (harden_bit R self b g)).
Proof.
  intros Hlen. unfold harden_pos, harden_bit. unfold_run.
  destruct (rnd_random R g) as [rand g1]; simpl.
  destruct (Qle_bool rand (blip_prob self)); simpl.
  - destruct (String.eqb (sel_method self) "ala"); simpl.
    + rewrite getitem_middle, setitem_in_range by done. by destruct b.
    + destruct (String.eqb (sel_method self) "sch"); simpl.
      * destruct (rnd_choice01 R g1) as [bit_val g2]; simpl.
        by rewrite setitem_in_range.
      * by rewrite setitem_in_range.
  - rewrite getitem_middle, setitem_in_range; done.
Qed.

(** The loop invariant: the positions before [length pre] are settled, the
    rest of the output is what [harden_bits] makes of the rest of the input. *)
Lemma for_each_harden_pos (self : BLIP) (suf pre acc : bitarray) (n : nat) g :
  n = length pre ->
  length acc = length (pre ++ suf) ->
  for_each (seq n (length suf)) (harden_pos R self (pre ++ suf)) acc g
  = Ok (take n acc ++ fst (harden_bits R self suf g),
        snd (harden_bits R self suf g)).
Proof.
  revert pre acc n g. induction suf as [|b suf IH]; intros pre acc n g -> Hlen.
  - simpl. unfold_run. rewrite app_nil_r in *.
    by rewrite take_ge by lia.
  - rewrite length_app in Hlen. simpl in Hlen. simpl. unfold_run.
    rewrite harden_pos_bit by lia.
    destruct (harden_bit R self b g) as [nb g1] eqn:Hb; simpl.
    specialize (IH (pre ++ [b]) (<[length pre := nb]> acc) (S (length pre)) g1).
    rewrite <- app_assoc in IH. simpl in IH.
    unfold_run. rewrite IH.
    + destruct (harden_bits R self suf g1) as [out g2]; simpl.
      f_equal. f_equal.
      rewrite (take_S_r _ _ nb).
      * rewrite take_insert_ge by lia. by rewrite <- app_assoc.
      * apply list_lookup_insert_eq. lia.
    + rewrite length_app. simpl. lia.
    + rewrite length_insert, length_app. simpl. lia.
Qed.

Lemma length_harden_bits (self : BLIP) (bf : bitarray) g :
  length (fst (harden_bits R self bf g)) = length bf.
Proof.
  revert g. induction bf as [|b bf IH]; intros g; simpl; [done|].
  destruct (harden_bit R self b g) as [nb g1].
  specialize (IH g1). destruct (harden_bits R self bf g1) as [out g2].
  simpl in *. by rewrite IH.
Qed.

(** [harden_bf] never raises, and its loop over positions computes
    [harden_bits]. *)
Lemma harden_bf_bits (self : BLIP) (bf : bitarray) g :
  harden_bf R self bf g = Ok (harden_bits R self bf g).
Proof.
  unfold harden_bf. unfold_run.
  pose proof (for_each_harden_pos self bf [] (replicate (length bf) false) 0 g) as H.
  simpl in H. rewrite H by (done || apply length_replicate).
  pose proof (length_harden_bits self bf g) as Hl.
  destruct (harden_bits R self bf g) as [out g'] eqn:E; simpl in *.
  rewrite Hl, Nat.eqb_refl. done.
Qed.
End HardeningFacts.

Section HardeningClaims.
Context (R : RandomModule).

Lemma harden_bits_app (self : BLIP) (bf1 bf2 : bitarray) g :
  harden_bits R self (bf1 ++ bf2) g
  = (fst (harden_bits R self bf1 g)
       ++ fst (harden_bits R self bf2 (snd (harden_bits R self bf1 g))),
     snd (harden_bits R self bf2 (snd (harden_bits R self bf1 g)))).
Proof.
  revert g. induction bf1 as [|b bf1 IH]; intros g; simpl.
  - by destruct (harden_bits R self bf2 g).
  - destruct (harden_bit R self b g) as [nb g1].
    rewrite IH. by destruct (harden_bits R self bf1 g1) as [o1 g2].
Qed.

(** [harden_bits] reads the selection method and the flip probability of
    the instance and nothing else. *)
Lemma harden_bits_fields (b1 b2 : BLIP) (bf : bitarray) g :
  sel_method b1 = sel_method b2 ->
  blip_prob b1 = blip_prob b2 ->
  harden_bits R b1 bf g = harden_bits R b2 bf g.
Proof.
  intros Hsel Hprob. revert g. induction bf as [|b bf IH]; intros g; simpl; [done|].
  unfold harden_bit. rewrite Hsel, Hprob.
  destruct (rnd_random R g) as [rand g1].
  destruct (Qle_bool rand (blip_prob b2)); [|by rewrite IH].
  destruct (String.eqb (sel_method b2) "ala"); [by rewrite IH|].
  destruct (String.eqb (sel_method b2) "sch"); [|by rewrite IH].
  destruct (rnd_choice01 R g1). by rewrite IH.
Qed.

Lemma blip_harden_bits (sel : string) (prob : Q) (rseed : option Z)
    (self : BLIP) (bf : bitarray) g :
  BLIP_init sel prob rseed = Ok self ->
  blip_harden R sel prob rseed bf g = Ok (harden_bits R self bf g).
Proof.
  intros Hinit. unfold blip_harden. unfold_run. rewrite Hinit.
  apply harden_bf_bits.
Qed.

Lemma blip_harden_raise (sel : string) (prob : Q) (rseed : option Z)
    (e : exn) (bf : bitarray) g :
  BLIP_init sel prob rseed = Raise e ->
  blip_harden R sel prob rseed bf g = Raise e.
Proof.
  intros Hinit. unfold blip_harden. unfold_run. by rewrite Hinit.
Qed.

(** The outcome of [BLIP_init] does not depend on the seed argument. *)
Lemma BLIP_init_seed (sel : string) (prob : Q) (s1 s2 : option Z) :
  match BLIP_init sel prob s1, BLIP_init sel prob s2 with
  | Ok b1, Ok b2 => sel_method b1 = sel_method b2 /\ blip_prob b1 = blip_prob b2
  | Raise e1, Raise e2 => e1 = e2
  | _, _ => False
  end.
Proof.
  unfold BLIP_init.
  destruct (negb (String.eqb sel "ala" || String.eqb sel "sch")); [done|].
  destruct (negb (Qle_bool 0 prob && Qle_bool prob 1)); done.
Qed.

(** C10.  The [random_seed] argument of the BLIP constructor has no effect:
    two instances with the same selection method and flip probability, which
    may differ in their [random_seed], return the same hardened vector and
    leave the same generator state, for every input vector and every state
    of the ambient generator. *)
Theorem random_seed_has_no_effect (b1 b2 : BLIP) (bf : bitarray) g :
  sel_method b1 = sel_method b2 ->
  blip_prob b1 = blip_prob b2 ->
  harden_bf R b1 bf g = harden_bf R b2 bf g.
Proof.
  intros Hsel Hprob. rewrite !harden_bf_bits.
  f_equal. by apply harden_bits_fields.
Qed.

(** C1, as the code has it.  The hardener owns no generator: both passes
    draw from the one ambient stream, and the second starts in the state the
    first has left.  Hardening one pool and then another gives the bits that
    hardening their concatenation in a single pass gives. *)
Theorem harden_passes_share_stream (sel : string) (prob : Q)
    (s s1 s2 : option Z) (bf1 bf2 : bitarray) g :
  blip_harden R sel prob s (bf1 ++ bf2) g
  = (out1 ← blip_harden R sel prob s1 bf1;
     out2 ← blip_harden R sel prob s2 bf2;
     mret (out1 ++ out2)) g.
Proof.
  pose proof (BLIP_init_seed sel prob s s1) as H1.
  pose proof (BLIP_init_seed sel prob s s2) as H2.
  destruct (BLIP_init sel prob s) as [b|e] eqn:E;
    destruct (BLIP_init sel prob s1) as [b1|e1] eqn:E1; try done;
    destruct (BLIP_init sel prob s2) as [b2|e2] eqn:E2; try done.
  - destruct H1 as [Hs1 Hp1], H2 as [Hs2 Hp2].
    rewrite (blip_harden_bits _ _ _ b) by done.
    unfold_run.
    rewrite (blip_harden_bits _ _ _ b1) by done.
    rewrite <- (harden_bits_fields b b1) by done.
    destruct (harden_bits R b bf1 g) as [o1 g1] eqn:Ho1.
    rewrite (blip_harden_bits _ _ _ b2) by done.
    rewrite <- (harden_bits_fields b b2) by done.
    rewrite harden_bits_app, Ho1. simpl.
    by destruct (harden_bits R b bf2 g1).
  - simpl in H1. subst e1. rewrite (blip_harden_raise _ _ _ e) by done.
    unfold_run. by rewrite (blip_harden_raise _ _ _ e).
Qed.

Lemma harden_bits_all_selected_ala (self : BLIP) (bf : bitarray) g :
  sel_method self = "ala" ->
  (forall g', Qle_bool (fst (rnd_random R g')) (blip_prob self) = true) ->
  harden_bits R self bf g = (map negb bf, skip_random R (length bf) g).
Proof.
  intros Hsel Hall. revert g. induction bf as [|b bf IH]; intros g; simpl; [done|].
  unfold harden_bit. specialize (Hall g).
  destruct (rnd_random R g) as [rand g1]; simpl in *.
  rewrite Hall, Hsel. simpl. by rewrite IH.
Qed.

Lemma harden_bits_none_selected (self : BLIP) (bf : bitarray) g :
  (blip_prob self == 0)%Q ->
  positive_draws R (length bf) g ->
  harden_bits R self bf g = (bf, skip_random R (length bf) g).
Proof.
  intros Hp. revert g. induction bf as [|b bf IH]; intros g Hpos; simpl; [done|].
  destruct Hpos as [Hrand Hpos]. unfold harden_bit.
  destruct (rnd_random R g) as [rand g1]; simpl in *.
  destruct (Qle_bool rand (blip_prob self)) eqn:Hle.
  - apply Qle_bool_iff in Hle. rewrite Hp in Hle.
    exfalso. apply (Qlt_not_le _ _ Hrand Hle).
  - by rewrite IH.
Qed.

(** C4, as the code has it.  With flip probability 0 and the balanced-flip
    method, [harden_bf] returns its input unchanged whenever each of the
    [len(bf)] values of [random.random()] the pass draws is above zero.  (A
    draw of exactly 0.0 passes the test [rand <= 0] and the bit is replaced
    by a coin flip.) *)
Theorem harden_sch_p0_identity (rseed : option Z) (bf : bitarray) g :
  positive_draws R (length bf) g ->
  blip_harden R "sch" 0 rseed bf g = Ok (bf, skip_random R (length bf) g).
Proof.
  intros Hpos.
  rewrite (blip_harden_bits _ _ _
             {| blip_type := "BLP"; sel_method := "sch";
                random_seed := rseed; blip_prob := 0 |}) by done.
  f_equal. by apply harden_bits_none_selected.
Qed.

(** C5.  With flip probability 1 and the independent-flip method,
    [harden_bf] returns the bitwise complement of its input, whatever the
    state of the generator, and so on every call. *)
Theorem harden_ala_p1_complement (rseed : option Z) (bf : bitarray) g :
  random_in_unit_interval R ->
  blip_harden R "ala" 1 rseed bf g
  = Ok (map negb bf, skip_random R (length bf) g).
Proof.
  intros Hunit.
  rewrite (blip_harden_bits _ _ _
             {| blip_type := "BLP"; sel_method := "ala";
                random_seed := rseed; blip_prob := 1 |}) by done.
  f_equal. apply harden_bits_all_selected_ala; [done|].
  intros g'. simpl. apply Qle_bool_iff, Qlt_le_weak, Hunit.
Qed.
End HardeningClaims.

(** ** The concrete generator meets the contracts *)

Module TapeFacts.
Lemma genrand_uint32_range (g : Tape.state) :
  (0 <= fst (Tape.genrand_uint32 g) < 2 ^ 32)%Z.
Proof.
  destruct g as [|w g]; simpl; [lia|].
  apply Z.mod_pos_bound. lia.
Qed.

Lemma random_unit : random_in_unit_interval Tape.R.
Proof.
  intros g. simpl. unfold Tape.random.
  pose proof (genrand_uint32_range g) as Ha.
  destruct (Tape.genrand_uint32 g) as [a g1]; simpl in Ha.
  pose proof (genrand_uint32_range g1) as Hb.
  destruct (Tape.genrand_uint32 g1) as [b g2]; simpl in Hb.
  rewrite !Z.shiftr_div_pow2 by lia.
  assert (0 <= a / 2 ^ 5 < 2 ^ 27)%Z as Ha'.
  { split; [apply Z.div_pos; lia|apply Z.div_lt_upper_bound; lia]. }
  assert (0 <= b / 2 ^ 6 < 2 ^ 26)%Z as Hb'.
  { split; [apply Z.div_pos; lia|apply Z.div_lt_upper_bound; lia]. }
  unfold Qle, Qlt; simpl. split; lia.
Qed.

Lemma randbelow_range (n : Z) (g : Tape.state) :
  (0 < n)%Z -> (0 <= fst (Tape.randbelow n g) < n)%Z.
Proof.
  intros Hn. induction g as [|w g IH]; simpl; [lia|].
  destruct (Z.ltb_spec (Z.shiftr (w mod 2 ^ 32) (32 - Tape.bit_length n)) n)
    as [Hlt|Hge]; simpl; [|done].
  split; [|done]. apply Z.shiftr_nonneg, Z.mod_pos_bound. lia.
Qed.

Lemma randint_range : randint_in_range Tape.R.
Proof.
  intros a b g Hab. simpl. unfold Tape.randint.
  pose proof (randbelow_range (b - a + 1) g) as H.
  destruct (Tape.randbelow (b - a + 1) g) as [r g']; simpl in *. lia.
Qed.

Lemma shuffle_from_perm (A : Type) (n : nat) (l : list A) (g : Tape.state) :
  Permutation (fst (Tape.shuffle_from A n l g)) l.
Proof.
  revert l g. induction n as [|n IH]; intros l g; simpl; [done|].
  destruct (Tape.randbelow (Z.of_nat (length l)) g) as [j g1].
  destruct (l !! Z.to_nat j) as [x|] eqn:Hx; simpl; [|done].
  specialize (IH (take (Z.to_nat j) l ++ drop (S (Z.to_nat j)) l) g1).
  destruct (Tape.shuffle_from A n _ g1) as [out g2]; simpl in *.
  rewrite IH. rewrite <- (take_drop_middle l (Z.to_nat j) x) at 3 by done.
  apply Permutation_middle.
Qed.

Lemma shuffle_perm : shuffle_permutes Tape.R.
Proof.
  intros A l g. apply shuffle_from_perm.
Qed.
End TapeFacts.

(** ** Hardening on concrete inputs *)

(** C10 at a concrete input: seeds 42 and 7, balanced flip, probability 1/2. *)
Lemma random_seed_has_no_effect_witness :
  let b1 := {| blip_type := "BLP"; sel_method := "sch";
               random_seed := Some 42%Z; blip_prob := 1 # 2 |} in
  let b2 := {| blip_type := "BLP"; sel_method := "sch";
               random_seed := Some 7%Z; blip_prob := 1 # 2 |} in
  sel_method b1 = sel_method b2 /\ blip_prob b1 = blip_prob b2 /\
  harden_bf Tape.R b1 [true; false; true] (Tape.seed 1)
  = harden_bf Tape.R b2 [true; false; true] (Tape.seed 1).
Proof.
  intros b1 b2. split; [reflexivity|]. split; [reflexivity|].
  apply (random_seed_has_no_effect Tape.R b1 b2); reflexivity.
Defined.

(** C1 refuted on the code.  From one and the same ambient state, the pool
    [[0]] hardens to [[0]] when it is hardened first, and to [[1]] when
    another pool has been hardened before it: the first draw is above 1/2,
    the second is 0. *)
Lemma harden_output_depends_on_earlier_pass :
  let g : rnd_state Tape.R := [4294967295; 0; 0; 0]%Z in
  eval (blip_harden Tape.R "ala" (1 # 2) (Some 42%Z) [false]) g = Ok [false]
  /\ eval (blip_harden Tape.R "ala" (1 # 2) (Some 42%Z) [false];;
           blip_harden Tape.R "ala" (1 # 2) (Some 42%Z) [false]) g = Ok [true].
Proof.
  split; vm_compute; reflexivity.
Qed.

(** C4 refuted on the code.  With probability 0 and balanced flip, a draw of
    exactly 0.0 selects the bit, and the coin flip turns the 0 into a 1. *)
Lemma harden_sch_p0_flips_on_zero_draw :
  eval (blip_harden Tape.R "sch" 0 (Some 42%Z) [false]) [0; 0; 1073741824]%Z
  = Ok [true].
Proof.
  vm_compute. reflexivity.
Qed.

(** C4 at a concrete input: both draws are 1/2. *)
Lemma harden_sch_p0_identity_witness :
  let g : rnd_state Tape.R := [2147483648; 0; 2147483648; 0]%Z in
  positive_draws Tape.R (length [true; false]) g /\
  blip_harden Tape.R "sch" 0 (Some 42%Z) [true; false] g
  = Ok ([true; false], skip_random Tape.R (length [true; false]) g).
Proof.
  intros g.
  assert (positive_draws Tape.R (length [true; false]) g) as Hpos.
  { simpl. repeat split. }
  split; [exact Hpos|].
  apply (harden_sch_p0_identity Tape.R (Some 42%Z) [true; false] g Hpos).
Defined.

(** C5 at a concrete input. *)
Lemma harden_ala_p1_complement_witness :
  random_in_unit_interval Tape.R /\
  blip_harden Tape.R "ala" 1 (Some 42%Z) [true; false; false] (Tape.seed 5)
  = Ok ([false; true; true], skip_random Tape.R 3 (Tape.seed 5)).
Proof.
  split; [exact TapeFacts.random_unit|].
  apply (harden_ala_p1_complement Tape.R (Some 42%Z) [true; false; false]
           (Tape.seed 5) TapeFacts.random_unit).
Defined.

(** ** Bloom-filter encoding *)

Section HashingFacts.
Context (R : RandomModule).
Hypothesis randint_ok : randint_in_range R.

Lemma setitem_int_in_range (bf : bitarray) (pos : Z) :
  (0 <= pos < Z.of_nat (length bf))%Z ->
  setitem_int bf pos true = Ok (<[Z.to_nat pos := true]> bf).
Proof.
  intros Hpos. unfold setitem_int.
  destruct (Z.leb_spec 0 pos); [|lia].
  apply setitem_in_range. lia.
Qed.

Lemma length_set_bits (positions : list Z) (bf : bitarray) :
  length (set_bits positions bf) = length bf.
Proof.
  revert bf. induction positions as [|pos ps IH]; intros bf; simpl; [done|].
  unfold set_bits in *. simpl. by rewrite IH, length_insert.
Qed.

Lemma hash_draw_run (self : RandomHashing) (i : nat)
    (bf : bitarray) (s : gset Z) g :
  (1 < bf_len self)%Z ->
  Z.of_nat (length bf) = bf_len self ->
  hash_draw R self (bf_len self - 1) i (bf, s) g
  = let pos := fst (rnd_randint R 0 (bf_len self - 1) g) in
    Ok ((<[Z.to_nat pos := true]> bf,
         if get_q_gram_pos self then {[pos]} ∪ s else s),
        snd (rnd_randint R 0 (bf_len self - 1) g)).
Proof.
  intros HL Hlen. unfold hash_draw, randint. unfold_run.
  destruct (Z.leb_spec 0 (bf_len self - 1)); [|lia].
  pose proof (randint_ok 0%Z (bf_len self - 1)%Z g ltac:(lia)) as Hpos.
  destruct (rnd_randint R 0 (bf_len self - 1) g) as [pos g1]; simpl in *.
  by rewrite setitem_int_in_range by lia.
Qed.

(** The inner loop: [n] draws after which the drawn positions are set. *)
Lemma for_each_hash_draw (self : RandomHashing) (n i : nat)
    (bf : bitarray) (s : gset Z) g :
  (1 < bf_len self)%Z ->
  Z.of_nat (length bf) = bf_len self ->
  for_each (seq i n) (hash_draw R self (bf_len self - 1)) (bf, s) g
  = let draws := randint_draws R n 0 (bf_len self - 1) g in
    Ok ((set_bits (fst draws) bf,
         if get_q_gram_pos self then list_to_set (fst draws) ∪ s else s),
        snd draws).
Proof.
  intros HL. revert i bf s g. induction n as [|n IH]; intros i bf s g Hlen.
  - simpl. unfold_run. destruct (get_q_gram_pos self); [|done].
    by rewrite (left_id_L ∅ (∪)).
  - rewrite <- cons_seq, for_each_cons, hash_draw_run by done. simpl.
    destruct (rnd_randint R 0 (bf_len self - 1) g) as [pos g1]; simpl.
    rewrite IH by (by rewrite length_insert).
    destruct (randint_draws R n 0 (bf_len self - 1) g1) as [rest g2]; simpl.
    destruct (get_q_gram_pos self); [|done].
    by rewrite (assoc_L (∪)), (comm_L (∪) (list_to_set rest) {[pos]}).
Qed.

(** One q-gram: the generator is reseeded, so neither the bits set nor the
    state left depend on the state before. *)
Lemma hash_q_gram_run (self : RandomHashing) (salt_str : option string)
    (q_gram : string) (bf : bitarray) (d : gmap string (gset Z)) g :
  (1 < bf_len self)%Z ->
  Z.of_nat (length bf) = bf_len self ->
  hash_q_gram R self salt_str (bf_len self - 1) q_gram (bf, d) g
  = let key := salted salt_str q_gram in
    Ok ((set_bits (key_positions R self key) bf,
         if get_q_gram_pos self
         then <[key := list_to_set (key_positions R self key)]> d else d),
        snd (randint_draws R (Z.to_nat (num_hash_funct self)) 0 (bf_len self - 1)
               (rnd_seed R (hash_funct self key)))).
Proof.
  intros HL Hlen. unfold hash_q_gram.
  unfold mbind, mret, M_bind, M_ret, bind, ret, reseed.
  fold (salted salt_str q_gram).
  unfold range. rewrite for_each_hash_draw by done. simpl.
  unfold key_positions.
  destruct (randint_draws R _ 0 (bf_len self - 1) _) as [ps g2]; simpl.
  destruct (get_q_gram_pos self); [|done].
  by rewrite (right_id_L ∅ (∪)).
Qed.

Lemma for_each_hash_q_gram (self : RandomHashing) (salt_str : option string)
    (q_gram_set : list string) (bf : bitarray) (d : gmap string (gset Z)) g :
  (1 < bf_len self)%Z ->
  Z.of_nat (length bf) = bf_len self ->
  for_each q_gram_set (hash_q_gram R self salt_str (bf_len self - 1)) (bf, d) g
  = Ok ((hashed_bits R self salt_str q_gram_set bf,
         if get_q_gram_pos self then hashed_dict R self salt_str q_gram_set d else d),
        state_after R self salt_str q_gram_set g).
Proof.
  intros HL. revert bf d g.
  induction q_gram_set as [|q qs IH]; intros bf d g Hlen.
  - simpl. unfold_run. unfold hashed_bits, hashed_dict. simpl.
    by destruct (get_q_gram_pos self).
  - rewrite for_each_cons, hash_q_gram_run by done. simpl.
    rewrite IH by (by rewrite length_set_bits).
    unfold hashed_bits, hashed_dict, set_bits. simpl. rewrite foldl_app.
    by destruct (get_q_gram_pos self).
Qed.

(** The value [hash_q_gram_set] returns, for an instance built by the
    constructor. *)
Lemma hash_q_gram_set_value (hf : string -> Z) (len k : Z) (get_pos : bool)
    (self : RandomHashing) (q_gram_set : list string) (salt_str : option string) g :
  RandomHashing_init hf len k get_pos = Ok self ->
  eval (hash_q_gram_set R self q_gram_set salt_str) g
  = Ok (hashed_bits R self salt_str q_gram_set (replicate (Z.to_nat len) false),
        if get_pos then Some (hashed_dict R self salt_str q_gram_set ∅) else None).
Proof.
  unfold RandomHashing_init.
  destruct (Z.ltb_spec 1 len) as [HL|]; [|done].
  destruct (Z.ltb_spec 0 k) as [Hk|]; [|done]. simpl.
  intros [= <-]. unfold hash_q_gram_set. simpl.
  destruct (Z.ltb_spec len 0); [lia|].
  unfold_run.
  pose proof (for_each_hash_q_gram
    {| hash_funct := hf; bf_len := len; num_hash_funct := k; get_q_gram_pos := get_pos |}
    salt_str q_gram_set (replicate (Z.to_nat len) false) ∅ g) as Hloop.
  simpl in Hloop. rewrite Hloop; [by destruct get_pos|lia|].
  rewrite length_replicate. lia.
Qed.
End HashingFacts.

Section HashingClaims.
Context (R : RandomModule).
Hypothesis randint_ok : randint_in_range R.

Lemma set_bits_cons (pos : Z) (positions : list Z) (bf : bitarray) :
  set_bits (pos :: positions) bf = set_bits positions (<[Z.to_nat pos := true]> bf).
Proof. reflexivity. Qed.

Lemma insert_true_comm (i j : nat) (bf : bitarray) :
  <[i := true]> (<[j := true]> bf) = <[j := true]> (<[i := true]> bf).
Proof.
  destruct (decide (i = j)) as [->|Hne]; [done|].
  by apply list_insert_insert_ne.
Qed.

(** Setting bits is insensitive to the order of the positions. *)
Lemma set_bits_perm (ps ps' : list Z) (bf : bitarray) :
  Permutation ps ps' -> set_bits ps bf = set_bits ps' bf.
Proof.
  intros Hperm. revert bf.
  induction Hperm as [|x l l' _ IH|x y l|l l' l'' _ IH1 _ IH2]; intros bf.
  - done.
  - rewrite !set_bits_cons. apply IH.
  - rewrite !set_bits_cons. by rewrite insert_true_comm.
  - by rewrite IH1.
Qed.

Lemma concat_map_perm {A B : Type} (f : A -> list B) (l l' : list A) :
  Permutation l l' -> Permutation (concat (map f l)) (concat (map f l')).
Proof.
  induction 1 as [|x l l' _ IH|x y l|l l' l'' _ IH1 _ IH2]; simpl.
  - done.
  - by apply Permutation_app_head.
  - rewrite !app_assoc. apply Permutation_app_tail, Permutation_app_comm.
  - by etrans.
Qed.

Lemma hashed_bits_perm (self : RandomHashing) (salt_str : option string)
    (qs qs' : list string) (bf : bitarray) :
  Permutation qs qs' ->
  hashed_bits R self salt_str qs bf = hashed_bits R self salt_str qs' bf.
Proof.
  intros Hperm. unfold hashed_bits. by apply set_bits_perm, concat_map_perm.
Qed.

(** The dictionary entry of a q-gram is a function of its key, so the
    entries can be written in any order. *)
Lemma hashed_dict_perm (self : RandomHashing) (salt_str : option string)
    (qs qs' : list string) (d : gmap string (gset Z)) :
  Permutation qs qs' ->
  hashed_dict R self salt_str qs d = hashed_dict R self salt_str qs' d.
Proof.
  intros Hperm. revert d. unfold hashed_dict.
  induction Hperm as [|x l l' _ IH|x y l|l l' l'' _ IH1 _ IH2]; intros d; simpl.
  - done.
  - apply IH.
  - f_equal.
    destruct (decide (salted salt_str x = salted salt_str y)) as [->|Hne]; [done|].
    by apply insert_insert_ne.
  - by rewrite IH1.
Qed.

Lemma popcount_insert_true (i : nat) (bf : bitarray) :
  popcount (<[i := true]> bf) <= S (popcount bf).
Proof.
  revert i. induction bf as [|b bf IH]; intros i; simpl; [lia|].
  destruct i as [|i]; simpl.
  - destruct b; lia.
  - specialize (IH i). lia.
Qed.

Lemma popcount_set_bits (positions : list Z) (bf : bitarray) :
  popcount (set_bits positions bf) <= popcount bf + length positions.
Proof.
  revert bf. induction positions as [|pos ps IH]; intros bf; [simpl; lia|].
  rewrite set_bits_cons.
  pose proof (IH (<[Z.to_nat pos := true]> bf)).
  pose proof (popcount_insert_true (Z.to_nat pos) bf). simpl length. lia.
Qed.

Lemma popcount_replicate_false (n : nat) : popcount (replicate n false) = 0.
Proof. induction n; simpl; lia. Qed.

Lemma length_randint_draws (n : nat) (a b : Z) g :
  length (fst (randint_draws R n a b g)) = n.
Proof.
  revert g. induction n as [|n IH]; intros g; simpl; [done|].
  destruct (rnd_randint R a b g) as [pos g1]. specialize (IH g1).
  destruct (randint_draws R n a b g1). simpl in *. by rewrite IH.
Qed.

Lemma popcount_hashed_bits (self : RandomHashing) (salt_str : option string)
    (qs : list string) (bf : bitarray) :
  popcount (hashed_bits R self salt_str qs bf)
  <= popcount bf + length qs * Z.to_nat (num_hash_funct self).
Proof.
  unfold hashed_bits.
  etrans; [apply popcount_set_bits|]. apply Nat.add_le_mono_l.
  induction qs as [|q qs IH]; simpl; [lia|].
  rewrite length_app. unfold key_positions at 1.
  rewrite length_randint_draws. lia.
Qed.

(** C6.  Encoding is deterministic.  For an encoder built by the
    constructor, [hash_q_gram_set] returns a result, and the result is the
    same for every state of the ambient generator the call starts in, that
    is, whatever was computed before or between two calls: each q-gram
    reseeds the generator before drawing.  This holds for every q-gram set,
    the non-empty ones in particular. *)
Theorem hash_q_gram_set_deterministic (hf : string -> Z) (len k : Z)
    (get_pos : bool) (self : RandomHashing)
    (q_gram_set : list string) (salt_str : option string) g1 g2 :
  RandomHashing_init hf len k get_pos = Ok self ->
  exists out,
    eval (hash_q_gram_set R self q_gram_set salt_str) g1 = Ok out
    /\ eval (hash_q_gram_set R self q_gram_set salt_str) g2 = Ok out.
Proof.
  intros Hinit. eexists. split.
  - by apply (hash_q_gram_set_value R randint_ok hf len k get_pos).
  - by apply (hash_q_gram_set_value R randint_ok hf len k get_pos).
Qed.

(** C7.  The Bloom filter of a q-gram set has at most |Q|·k bits set, and
    it does not depend on the order the q-grams are iterated in: two
    orderings of the same q-grams give the same result. *)
Theorem hash_q_gram_set_popcount_order (hf : string -> Z) (len k : Z)
    (get_pos : bool) (self : RandomHashing)
    (q_gram_set q_gram_set' : list string) (salt_str : option string) g g' :
  RandomHashing_init hf len k get_pos = Ok self ->
  Permutation q_gram_set q_gram_set' ->
  exists bf d,
    eval (hash_q_gram_set R self q_gram_set salt_str) g = Ok (bf, d)
    /\ eval (hash_q_gram_set R self q_gram_set' salt_str) g' = Ok (bf, d)
    /\ (Z.of_nat (popcount bf) <= Z.of_nat (length q_gram_set) * k)%Z.
Proof.
  intros Hinit Hperm. do 2 eexists. split; [|split].
  - by apply (hash_q_gram_set_value R randint_ok hf len k get_pos).
  - rewrite (hash_q_gram_set_value R randint_ok hf len k get_pos) by done.
    rewrite (hashed_bits_perm _ _ _ _ _ Hperm).
    by rewrite (hashed_dict_perm _ _ _ _ _ Hperm).
  - pose proof (popcount_hashed_bits self salt_str q_gram_set
                  (replicate (Z.to_nat len) false)) as Hpop.
    rewrite popcount_replicate_false in Hpop. simpl in Hpop.
    assert (num_hash_funct self = k /\ (0 < k)%Z) as [Hk Hkpos].
    { unfold RandomHashing_init in Hinit.
      destruct (negb (1 <? len)%Z); [done|].
      destruct (Z.ltb_spec 0 k); [|done].
      simpl in Hinit. by injection Hinit as <-. }
    rewrite Hk in Hpop. apply Nat2Z.inj_le in Hpop.
    by rewrite Nat2Z.inj_mul, Z2Nat.id in Hpop by lia.
Qed.
End HashingClaims.

(** C6 at a concrete input: the q-grams of "hello", 20 bits, 3 positions per
    q-gram; the first call starts from a used-up generator, the second from a
    freshly seeded one. *)
Lemma hash_q_gram_set_deterministic_witness :
  let self := {| hash_funct := radix_hash; bf_len := 20; num_hash_funct := 3;
                 get_q_gram_pos := false |} in
  randint_in_range Tape.R /\
  RandomHashing_init radix_hash 20 3 false = Ok self /\
  exists out,
    eval (hash_q_gram_set Tape.R self ["he"; "el"; "ll"; "lo"] None) [] = Ok out
    /\ eval (hash_q_gram_set Tape.R self ["he"; "el"; "ll"; "lo"] None) (Tape.seed 9)
       = Ok out.
Proof.
  intros self. split; [exact TapeFacts.randint_range|]. split; [reflexivity|].
  apply (hash_q_gram_set_deterministic Tape.R TapeFacts.randint_range
           radix_hash 20 3 false self).
  reflexivity.
Defined.

(** C7 at a concrete input: the same four q-grams in two orders. *)
Lemma hash_q_gram_set_popcount_order_witness :
  let self := {| hash_funct := radix_hash; bf_len := 20; num_hash_funct := 3;
                 get_q_gram_pos := true |} in
  randint_in_range Tape.R /\
  RandomHashing_init radix_hash 20 3 true = Ok self /\
  Permutation ["he"; "el"; "ll"; "lo"] ["el"; "he"; "ll"; "lo"] /\
  exists bf d,
    eval (hash_q_gram_set Tape.R self ["he"; "el"; "ll"; "lo"] (Some "x")) [] = Ok (bf, d)
    /\ eval (hash_q_gram_set Tape.R self ["el"; "he"; "ll"; "lo"] (Some "x")) [] = Ok (bf, d)
    /\ (Z.of_nat (popcount bf) <= Z.of_nat (length ["he"; "el"; "ll"; "lo"]) * 3)%Z.
Proof.
  intros self. split; [exact TapeFacts.randint_range|]. split; [reflexivity|].
  assert (Permutation ["he"; "el"; "ll"; "lo"] ["el"; "he"; "ll"; "lo"]) as Hperm
    by apply perm_swap.
  split; [exact Hperm|].
  apply (hash_q_gram_set_popcount_order Tape.R TapeFacts.randint_range
           radix_hash 20 3 true self _ _ (Some "x") [] [] eq_refl Hperm).
Defined.

(** ** Dice similarity *)

Section DiceFacts.
Lemma popcount_and_le_l (a b : bitarray) :
  popcount (bit_and a b) <= popcount a.
Proof.
  unfold bit_and.
  revert b. induction a as [|x a IH]; intros [|y b]; simpl; try lia.
  specialize (IH b). destruct x, y; simpl; lia.
Qed.

Lemma popcount_and_le_r (a b : bitarray) :
  popcount (bit_and a b) <= popcount b.
Proof.
  unfold bit_and.
  revert b. induction a as [|x a IH]; intros [|y b]; simpl; try lia.
  specialize (IH b). destruct x, y; simpl; lia.
Qed.

Lemma bit_and_self (a : bitarray) : bit_and a a = a.
Proof.
  unfold bit_and. induction a as [|x a IH]; simpl; [done|].
  rewrite IH. by destruct x.
Qed.

Lemma Zpos_of_nat (n : nat) : n <> 0 -> Zpos (Pos.of_nat n) = Z.of_nat n.
Proof.
  intros Hn. rewrite <- positive_nat_Z. by rewrite Nat2Pos.id.
Qed.

Lemma dice_nonzero (a b : bitarray) :
  popcount a + popcount b <> 0 ->
  bit_array_dice_sim a b
  = Qmake (2 * Z.of_nat (popcount (bit_and a b)))
          (Pos.of_nat (popcount a + popcount b)).
Proof.
  intros Hne. unfold bit_array_dice_sim.
  destruct (Nat.eqb_spec (popcount a + popcount b) 0); done.
Qed.

Lemma dice_bounds (a b : bitarray) :
  (0 <= bit_array_dice_sim a b)%Q /\ (bit_array_dice_sim a b <= 1)%Q.
Proof.
  destruct (decide (popcount a + popcount b = 0)) as [Hz|Hnz].
  - unfold bit_array_dice_sim. rewrite Hz. simpl. split; done.
  - rewrite dice_nonzero by done.
    pose proof (popcount_and_le_l a b). pose proof (popcount_and_le_r a b).
    unfold Qle; simpl. rewrite Zpos_of_nat by done. split; lia.
Qed.

(** C8.  On bit vectors of equal length, the Dice similarity is
    2·popcount(A AND B) / (popcount(A) + popcount(B)) when some bit is set,
    it is 0 when both popcounts are 0, it lies in [0, 1], and
    Dice(A, A) = 1 when A has a bit set. *)
Theorem dice_similarity_properties (a b : bitarray) :
  length a = length b ->
  (popcount a + popcount b <> 0 ->
     (bit_array_dice_sim a b
      == inject_Z (2 * Z.of_nat (popcount (bit_and a b)))
         / inject_Z (Z.of_nat (popcount a) + Z.of_nat (popcount b)))%Q)
  /\ (popcount a = 0 -> popcount b = 0 -> bit_array_dice_sim a b = 0%Q)
  /\ (0 <= bit_array_dice_sim a b)%Q
  /\ (bit_array_dice_sim a b <= 1)%Q
  /\ (0 < popcount a -> (bit_array_dice_sim a a == 1)%Q).
Proof.
  intros _. repeat split.
  - intros Hne. rewrite dice_nonzero by done.
    rewrite Qmake_Qdiv, Zpos_of_nat by done.
    by rewrite Nat2Z.inj_add.
  - intros Ha Hb. unfold bit_array_dice_sim. by rewrite Ha, Hb.
  - apply dice_bounds.
  - apply dice_bounds.
  - intros Hpos. rewrite dice_nonzero by lia.
    rewrite bit_and_self. unfold Qeq; simpl.
    rewrite Zpos_of_nat by lia. lia.
Qed.
End DiceFacts.

(** C8 at a concrete input: two 4-bit vectors sharing one set bit. *)
Lemma dice_similarity_properties_witness :
  let a := [true; true; false; false] in
  let b := [false; true; true; false] in
  length a = length b /\
  (bit_array_dice_sim a b == inject_Z 2 / inject_Z 4)%Q /\
  (bit_array_dice_sim a a == 1)%Q.
Proof.
  intros a b.
  pose proof (dice_similarity_properties a b eq_refl) as (Hval & _ & _ & _ & Hself).
  split; [reflexivity|]. split.
  - apply Hval. simpl. lia.
  - apply Hself. simpl. lia.
Defined.

(** ** Dictionaries *)

Section DictFacts.
Context {V : Type}.
Implicit Types (d : dict V) (k : string) (v : V).

Lemma dict_set_fresh k v d :
  k ∉ keys d -> dict_set k v d = d ++ [(k, v)].
Proof.
  induction d as [|[k' v'] d IH]; simpl; intros Hk; [done|].
  apply not_elem_of_cons in Hk as [Hne Hk].
  destruct (String.eqb_spec k' k) as [->|_]; [done|].
  by rewrite IH.
Qed.

Lemma keys_dict_set k v d :
  keys (dict_set k v d) = if decide (k ∈ keys d) then keys d else keys d ++ [k].
Proof.
  unfold keys. induction d as [|[k' v'] d IH].
  - simpl. destruct (decide (k ∈ [])) as [Hin|_]; [|done].
    by apply elem_of_nil in Hin.
  - cbn [dict_set]. destruct (String.eqb_spec k' k) as [->|Hne].
    + cbn [map fst]. destruct (decide (k ∈ k :: map fst d)) as [_|Hnin]; [done|].
      exfalso. apply Hnin, list_elem_of_here.
    + cbn [map fst]. rewrite IH.
      destruct (decide (k ∈ map fst d)) as [Hin|Hnin];
        destruct (decide (k ∈ k' :: map fst d)) as [Hin'|Hnin']; try done.
      * exfalso. by apply Hnin', list_elem_of_further.
      * apply elem_of_cons in Hin' as [->|?]; done.
Qed.

Lemma NoDup_keys_dict_set k v d :
  NoDup (keys d) -> NoDup (keys (dict_set k v d)).
Proof.
  intros Hnd. rewrite keys_dict_set. case_decide; [done|].
  apply NoDup_app. split; [done|]. split.
  - intros x Hx [->|[]%elem_of_nil]%elem_of_cons. done.
  - apply NoDup_singleton.
Qed.

(** Writing items with distinct fresh keys appends them in order. *)
Lemma fold_dict_set_fresh {A : Type} (key : A -> string) (val : A -> V)
    (l : list A) d :
  NoDup (keys d ++ map key l) ->
  fold_left (fun d x => dict_set (key x) (val x) d) l d
  = d ++ map (fun x => (key x, val x)) l.
Proof.
  revert d. induction l as [|x l IH]; intros d Hnd; simpl.
  - by rewrite app_nil_r.
  - rewrite dict_set_fresh.
    + rewrite IH; [by rewrite <- app_assoc|].
      unfold keys. rewrite map_app, <- app_assoc. done.
    + apply NoDup_app in Hnd as (_ & Hdisj & _).
      intros Hin. apply (Hdisj _ Hin). simpl. apply list_elem_of_here.
Qed.

Lemma dict_of_items_NoDup (l : list (string * V)) :
  NoDup (keys l) -> dict_of_items l = l.
Proof.
  intros Hnd. unfold dict_of_items.
  rewrite (fold_dict_set_fresh fst snd l []) by done. simpl.
  clear Hnd. induction l as [|[k v] l IH]; simpl; [done|]. by rewrite IH.
Qed.

Lemma NoDup_keys_dict_merge d1 d2 :
  NoDup (keys d1) -> NoDup (keys (dict_merge d1 d2)).
Proof.
  unfold dict_merge. revert d1.
  induction d2 as [|[k v] d2 IH]; intros d1 Hnd; simpl; [done|].
  by apply IH, NoDup_keys_dict_set.
Qed.

Lemma dict_get_set k v d : dict_get k (dict_set k v d) = Ok v.
Proof.
  induction d as [|[k' v'] d IH]; simpl.
  - by rewrite String.eqb_refl.
  - destruct (String.eqb_spec k' k) as [->|Hne]; simpl.
    + by rewrite String.eqb_refl.
    + destruct (String.eqb_spec k' k); done.
Qed.
End DictFacts.

(** ** Best matches and the outcome of a query *)

Section TallyFacts.
Implicit Types (sim_data : dict Q) (rec_id : string) (c : sim_counters).

Lemma fold_max_spec (l : list Q) (x : Q) :
  let r := fold_left (fun m v => if Qle_bool v m then m else v) l x in
  r ∈ x :: l /\ forall v, v ∈ x :: l -> (v <= r)%Q.
Proof.
  revert x. induction l as [|y l IH]; intros x; simpl.
  - split; [apply list_elem_of_here|].
    intros v ->%list_elem_of_singleton. apply Qle_refl.
  - destruct (Qle_bool y x) eqn:Hle.
    + destruct (IH x) as [Hin Hmax]. split.
      * apply elem_of_cons in Hin as [->|Hin];
          [apply list_elem_of_here|by do 2 apply list_elem_of_further].
      * intros v [->|[->|Hv]%elem_of_cons]%elem_of_cons.
        -- apply Hmax, list_elem_of_here.
        -- apply Qle_bool_iff in Hle. apply (Qle_trans _ x); [exact Hle|].
           apply Hmax, list_elem_of_here.
        -- by apply Hmax, list_elem_of_further.
    + destruct (IH y) as [Hin Hmax]. split.
      * by apply list_elem_of_further.
      * intros v [->|Hv]%elem_of_cons; [|by apply Hmax].
        assert (~ (y <= x)%Q) as Hnle by (intros ?%Qle_bool_iff; congruence).
        apply Qnot_le_lt, Qlt_le_weak in Hnle.
        apply (Qle_trans _ y); [exact Hnle|]. apply Hmax, list_elem_of_here.
Qed.

(** [max] of a non-empty list returns the largest value. *)
Lemma py_max_spec (l : list Q) :
  l <> [] -> exists m, py_max l = Ok m /\ is_maximum m l.
Proof.
  destruct l as [|x l]; [done|]. intros _. eexists. split; [done|].
  apply fold_max_spec.
Qed.

Lemma py_max_is_maximum (l : list Q) (m : Q) :
  py_max l = Ok m -> is_maximum m l.
Proof.
  destruct l as [|x l]; [done|]. simpl. intros [= <-]. apply fold_max_spec.
Qed.

Lemma elem_of_max_keys_of sim_data (m : Q) (k : string) :
  k ∈ max_keys_of sim_data m
  <-> exists v, (k, v) ∈ sim_data /\ (v == m)%Q.
Proof.
  unfold max_keys_of. rewrite list_elem_of_fmap. split.
  - intros ([k' v] & -> & [Heq Hin]%list_elem_of_filter). simpl in *.
    exists v. split; [done|]. by apply Qeq_bool_iff.
  - intros (v & Hin & Heq). exists (k, v). split; [done|].
    apply list_elem_of_filter. split; [|done]. simpl. by apply Qeq_bool_iff.
Qed.

(** The best matches are all the candidates at the maximum: ties are kept. *)
Lemma max_keys_of_all_attaining sim_data (m : Q) :
  NoDup (keys sim_data) ->
  all_attaining sim_data m (max_keys_of sim_data m).
Proof.
  intros Hnd. split; [|apply elem_of_max_keys_of].
  unfold max_keys_of, keys in *.
  induction sim_data as [|[k v] sim_data IH]; simpl; [constructor|].
  apply NoDup_cons in Hnd as [Hk Hnd].
  rewrite filter_cons. case_decide; simpl; [|by apply IH].
  apply NoDup_cons. split; [|by apply IH].
  intros ([k' v'] & Hkk & [_ Hin]%list_elem_of_filter)%list_elem_of_fmap.
  simpl in Hkk. subst k'. apply Hk. apply list_elem_of_fmap.
  by exists (k, v').
Qed.

Lemma max_keys_of_nonempty sim_data (m : Q) :
  is_maximum m (values sim_data) -> max_keys_of sim_data m <> [].
Proof.
  intros [Hin _] Hnil. unfold values in Hin.
  apply list_elem_of_fmap in Hin as ([k v] & Hv & Hin). simpl in Hv. subst v.
  assert (k ∈ max_keys_of sim_data m) as Hk.
  { apply elem_of_max_keys_of. exists m. split; [done|]. apply Qeq_refl. }
  rewrite Hnil in Hk. by apply elem_of_nil in Hk.
Qed.

Lemma existsb_eqb_elem_of rec_id (ks : list string) :
  existsb (String.eqb rec_id) ks = bool_decide (rec_id ∈ ks).
Proof.
  induction ks as [|k ks IH].
  - symmetry. apply bool_decide_eq_false_2, not_elem_of_nil.
  - cbn [existsb]. rewrite IH.
    destruct (String.eqb_spec rec_id k) as [->|Hne]; cbn [orb].
    + symmetry. apply bool_decide_eq_true_2, list_elem_of_here.
    + apply bool_decide_ext. rewrite elem_of_cons.
      split; [by right|]. by intros [?|?].
Qed.

(** The counting code increments the counter the specification names. *)
Lemma tally_outcome rec_id sim_data c (m : Q) :
  py_max (values sim_data) = Ok m ->
  tally rec_id sim_data c
  = Ok (incr (outcome_of rec_id (max_keys_of sim_data m)) c).
Proof.
  intros Hmax. pose proof (py_max_is_maximum _ _ Hmax) as Hism.
  pose proof (max_keys_of_nonempty _ _ Hism) as Hne.
  unfold tally. rewrite Hmax. cbn [result_bind]. unfold outcome_of.
  destruct (max_keys_of sim_data m) as [|k0 [|k1 ks]]; [done| |].
  - cbn [length Nat.eqb Nat.ltb Nat.leb lookup list_lookup result_bind].
    destruct (String.eqb_spec k0 rec_id) as [->|Hk]; cbn [result_bind].
    + destruct (decide ([rec_id] = [rec_id])); done.
    + destruct (decide ([k0] = [rec_id])) as [Heq|_]; [congruence|].
      destruct (decide (length [k0] = 1)); done.
  - cbn [length Nat.eqb Nat.ltb Nat.leb result_bind].
    destruct (decide (k0 :: k1 :: ks = [rec_id])) as [Heq|_]; [done|].
    destruct (decide (S (S (length ks)) = 1)) as [Heq|_]; [done|].
    rewrite existsb_eqb_elem_of.
    destruct (decide (rec_id ∈ k0 :: k1 :: ks)) as [Hin|Hnin].
    + by rewrite bool_decide_eq_true_2.
    + by rewrite bool_decide_eq_false_2.
Qed.

Lemma total_incr (o : outcome) c : total (incr o c) = S (total c).
Proof. destruct o; unfold total; simpl; lia. Qed.

(** Every successful count raises exactly one counter by one. *)
Lemma tally_total rec_id sim_data c c' :
  tally rec_id sim_data c = Ok c' -> total c' = S (total c).
Proof.
  intros Htally.
  destruct (py_max (values sim_data)) as [m|e] eqn:Hmax.
  - rewrite (tally_outcome _ _ _ m Hmax) in Htally.
    injection Htally as <-. apply total_incr.
  - unfold tally in Htally. by rewrite Hmax in Htally.
Qed.
End TallyFacts.

(** ** The comparison of a subset with its pool *)

Section RunFacts.
Context {R : RandomModule}.

Lemma bind_Ok {A B} (m : M R A) (k : A -> M R B) g r :
  (m ≫= k) g = Ok r ->
  exists a g1, m g = Ok (a, g1) /\ k a g1 = Ok r.
Proof.
  unfold mbind, M_bind, bind. destruct (m g) as [[a g1]|e]; [|done].
  intros Hk. by exists a, g1.
Qed.

Lemma bind_run {A B} (m : M R A) (k : A -> M R B) g a g1 :
  m g = Ok (a, g1) -> (m ≫= k) g = k a g1.
Proof.
  intros Hm. unfold mbind, M_bind, bind. by rewrite Hm.
Qed.

Lemma bind_raise {A B} (m : M R A) (k : A -> M R B) g e :
  m g = Raise e -> (m ≫= k) g = Raise e.
Proof.
  intros Hm. unfold mbind, M_bind, bind. by rewrite Hm.
Qed.

Lemma lift_Ok {A} (x : result A) g r :
  lift (R:=R) x g = Ok r -> exists a, x = Ok a /\ r = (a, g).
Proof.
  unfold lift. destruct x as [a|e]; [|done]. intros [= <-]. by exists a.
Qed.

Lemma ret_Ok {A} (a : A) g r :
  mret (M:=M R) a g = Ok r -> r = (a, g).
Proof. by intros [= <-]. Qed.
End RunFacts.

Section CompareFacts.
Context (R : RandomModule).

(** A hardening pass keeps the keys, in order, and may only fail an
    assertion. *)
Lemma harden_records_keys (hd_instance : BLIP) (d d' : dict rec_data) g g' :
  harden_records R hd_instance d g = Ok (d', g') -> keys d' = keys d.
Proof.
  revert d' g g'. induction d as [|[rec_id rec] d IH]; intros d' g g' Hrun.
  - simpl in Hrun. apply ret_Ok in Hrun. by injection Hrun as -> _.
  - cbn [harden_records] in Hrun.
    apply bind_Ok in Hrun as (_ & g1 & _ & Hrun).
    apply bind_Ok in Hrun as (og & g2 & _ & Hrun).
    apply bind_Ok in Hrun as (hd & g3 & _ & Hrun).
    apply bind_Ok in Hrun as (d'' & g4 & Hrest & Hrun).
    apply ret_Ok in Hrun. injection Hrun as -> _.
    unfold keys in *. simpl. f_equal. by eapply IH.
Qed.

Lemma harden_records_length (hd_instance : BLIP) (d d' : dict rec_data) g g' :
  harden_records R hd_instance d g = Ok (d', g') -> length d' = length d.
Proof.
  intros Hrun%harden_records_keys. unfold keys in Hrun.
  by rewrite <- (length_map fst d'), Hrun, length_map.
Qed.

(** A query that is compared successfully raises one counter of each
    variant by one. *)
Lemma compare_query_total (pool : dict rec_data) (query : string * rec_data)
    (res res' : type_counters) g g' :
  compare_query R pool query res g = Ok (res', g') ->
  total (og_bf_dice res') = S (total (og_bf_dice res))
  /\ total (blip_bf_dice res') = S (total (blip_bf_dice res)).
Proof.
  destruct query as [rec_id rec]. unfold compare_query. intros Hrun.
  apply bind_Ok in Hrun as (_ & g1 & _ & Hrun).
  apply bind_Ok in Hrun as (_ & g2 & _ & Hrun).
  apply bind_Ok in Hrun as (_ & g3 & _ & Hrun).
  apply bind_Ok in Hrun as ([og_sim blip_sim] & g4 & _ & Hrun).
  apply bind_Ok in Hrun as (og & g5 & Hog & Hrun).
  apply bind_Ok in Hrun as (blip & g6 & Hblip & Hrun).
  apply ret_Ok in Hrun. injection Hrun as -> _.
  apply lift_Ok in Hog as (og' & Hog & [= <- _]).
  apply lift_Ok in Hblip as (blip' & Hblip & [= <- _]).
  simpl. split; by eapply tally_total.
Qed.

Lemma for_each_compare_query_total (pool queries : dict rec_data)
    (res res' : type_counters) g g' :
  for_each queries (compare_query R pool) res g = Ok (res', g') ->
  total (og_bf_dice res') = total (og_bf_dice res) + length queries
  /\ total (blip_bf_dice res') = total (blip_bf_dice res) + length queries.
Proof.
  revert res g. induction queries as [|q queries IH]; intros res g Hrun.
  - rewrite for_each_nil in Hrun. injection Hrun as -> _. simpl. lia.
  - rewrite for_each_cons in Hrun.
    destruct (compare_query R pool q res g) as [[res1 g1]|e] eqn:Hq; [|done].
    apply compare_query_total in Hq as [Hog Hblip].
    apply IH in Hrun as [Hog' Hblip']. simpl. lia.
Qed.

Lemma build_pool_Ok (base_records rec_type_dict : dict rec_data)
    (sel : string) (prob : Q) (hardened pool : dict rec_data) g g' :
  build_pool R base_records sel prob rec_type_dict g = Ok ((hardened, pool), g') ->
  length hardened = length rec_type_dict
  /\ keys pool
     = keys (dict_of_items
               (fst (rnd_shuffle R _ (dict_merge base_records rec_type_dict) g))).
Proof.
  unfold build_pool. intros Hrun.
  apply bind_Ok in Hrun as (l & g1 & Hl & Hrun).
  apply bind_Ok in Hrun as (hd1 & g2 & _ & Hrun).
  apply bind_Ok in Hrun as (hardened' & g3 & Hpass1 & Hrun).
  apply bind_Ok in Hrun as (hd2 & g4 & _ & Hrun).
  apply bind_Ok in Hrun as (pool' & g5 & Hpass2 & Hrun).
  apply ret_Ok in Hrun. unfold draw in Hl. simplify_eq.
  split; [by eapply harden_records_length|].
  rewrite Hl. by eapply harden_records_keys.
Qed.

(** C3.  When a subset has been processed, the four outcome counters of
    each similarity variant add up to the number of records of the subset. *)
Theorem outcome_counters_sum_to_subset_size
    (base_records rec_type_dict : dict rec_data) (sel : string) (prob : Q)
    (base_sample_size : Z) (rec_type : string)
    (res_dict res_dict' : dict type_counters) g g' :
  compare_rec_type R base_records sel prob base_sample_size rec_type
    rec_type_dict res_dict g = Ok (res_dict', g') ->
  exists res,
    dict_get rec_type res_dict' = Ok res
    /\ total (og_bf_dice res) = length rec_type_dict
    /\ total (blip_bf_dice res) = length rec_type_dict.
Proof.
  unfold compare_rec_type. intros Hrun.
  apply bind_Ok in Hrun as (_ & g1 & _ & Hrun).
  apply bind_Ok in Hrun as ([hardened pool] & g2 & Hpool & Hrun).
  apply bind_Ok in Hrun as (_ & g3 & _ & Hrun).
  apply bind_Ok in Hrun as (res & g4 & Hloop & Hrun).
  apply ret_Ok in Hrun. injection Hrun as -> _.
  exists res. split; [apply dict_get_set|].
  apply build_pool_Ok in Hpool as [Hlen _].
  apply for_each_compare_query_total in Hloop as [Hog Hblip].
  simpl in *. lia.
Qed.
End CompareFacts.

Section QueryClaims.
Context (R : RandomModule).

Lemma keys_sims_of (field : rec_data -> option bitarray) (rec : rec_data)
    (pool : dict rec_data) :
  keys (sims_of field rec pool) = keys pool.
Proof.
  unfold keys, sims_of. rewrite map_map. done.
Qed.

(** The loop over the pool fills the two similarity dictionaries. *)
Lemma for_each_compare_pair (rec : rec_data) (pool : dict rec_data)
    (og_sim blip_sim : dict Q) g :
  complete_rec rec ->
  Forall (fun comp => complete_rec (snd comp)) pool ->
  for_each pool (compare_pair R rec) (og_sim, blip_sim) g
  = Ok ((fold_left (fun d comp =>
                      dict_set (fst comp)
                        (bit_array_dice_sim (default [] (og_bf rec))
                                            (default [] (og_bf (snd comp)))) d)
                   pool og_sim,
         fold_left (fun d comp =>
                      dict_set (fst comp)
                        (bit_array_dice_sim (default [] (hd_bf rec))
                                            (default [] (hd_bf (snd comp)))) d)
                   pool blip_sim), g).
Proof.
  intros (_ & [rog Hrog] & [rhd Hrhd]) Hpool. revert og_sim blip_sim.
  induction Hpool as [|[comp_id comp] pool (Hq & [cog Hcog] & [chd Hchd]) _ IH];
    intros og_sim blip_sim; [done|].
  rewrite for_each_cons. unfold compare_pair at 1.
  simpl in Hq, Hcog, Hchd. destruct Hq as [cq Hcq].
  rewrite Hcq, Hcog, Hchd, Hrog, Hrhd. simpl.
  rewrite IH, ?Hrog, ?Hrhd, ?Hcog, ?Hchd. done.
Qed.

Lemma sims_of_fold (field : rec_data -> option bitarray) (rec : rec_data)
    (pool : dict rec_data) :
  NoDup (keys pool) ->
  fold_left (fun d comp =>
               dict_set (fst comp)
                 (bit_array_dice_sim (default [] (field rec))
                                     (default [] (field (snd comp)))) d)
            pool []
  = sims_of field rec pool.
Proof.
  intros Hnd.
  by rewrite (fold_dict_set_fresh fst
                (fun comp => bit_array_dice_sim (default [] (field rec))
                               (default [] (field (snd comp)))) pool []).
Qed.

(** A query compared with a pool of complete records: both similarity
    dictionaries cover the pool, and each is counted once. *)
Lemma compare_query_run (pool : dict rec_data) (rec_id : string)
    (rec : rec_data) (res : type_counters) (m_og m_blip : Q) g :
  complete_rec rec ->
  Forall (fun comp => complete_rec (snd comp)) pool ->
  NoDup (keys pool) ->
  py_max (values (sims_of og_bf rec pool)) = Ok m_og ->
  py_max (values (sims_of hd_bf rec pool)) = Ok m_blip ->
  compare_query R pool (rec_id, rec) res g
  = Ok ({| og_bf_dice :=
             incr (outcome_of rec_id (max_keys_of (sims_of og_bf rec pool) m_og))
                  (og_bf_dice res);
           blip_bf_dice :=
             incr (outcome_of rec_id (max_keys_of (sims_of hd_bf rec pool) m_blip))
                  (blip_bf_dice res) |},
        g).
Proof.
  intros Hrec Hpool Hnd Hmog Hmbl. unfold compare_query.
  destruct Hrec as (Hq & Hrog & Hrhd).
  destruct Hq as [rq Hrq]. destruct Hrog as [rog Hrog]. destruct Hrhd as [rhd Hrhd].
  rewrite Hrq, Hrog, Hrhd. simpl.
  rewrite !(bind_run _ _ g tt g) by done.
  erewrite bind_run; last first.
  { apply for_each_compare_pair; [|done].
    repeat split; by eexists. }
  simpl. rewrite Hrog, Hrhd. simpl.
  pose proof (sims_of_fold og_bf rec pool Hnd) as Hfog.
  pose proof (sims_of_fold hd_bf rec pool Hnd) as Hfbl.
  rewrite Hrog in Hfog. rewrite Hrhd in Hfbl. simpl in Hfog, Hfbl.
  rewrite Hfog, Hfbl.
  rewrite (tally_outcome _ _ _ m_og Hmog), (tally_outcome _ _ _ m_blip Hmbl).
  done.
Qed.

Lemma incr_counted_once (o : outcome) (c : sim_counters) :
  counted_once o c (incr o c).
Proof. destruct o; repeat split; simpl; lia. Qed.

(** C2.  For a query compared with a non-empty pool of complete records,
    and for each of the two similarity variants: the similarities of the
    query with all the candidates have a largest value; the best matches are
    all the candidates attaining it; the comparison returns, and in the
    counters it returns exactly one of the four is one higher than before,
    the one the four-way rule names, the other three being unchanged. *)
Theorem query_outcome_classification (pool : dict rec_data)
    (rec_id : string) (rec : rec_data) (res : type_counters) g :
  complete_rec rec ->
  Forall (fun comp => complete_rec (snd comp)) pool ->
  NoDup (keys pool) ->
  pool <> [] ->
  exists (m_og : Q) (best_og : list string) (m_blip : Q) (best_blip : list string)
         (res' : type_counters),
    is_maximum m_og (values (sims_of og_bf rec pool))
    /\ all_attaining (sims_of og_bf rec pool) m_og best_og
    /\ is_maximum m_blip (values (sims_of hd_bf rec pool))
    /\ all_attaining (sims_of hd_bf rec pool) m_blip best_blip
    /\ compare_query R pool (rec_id, rec) res g = Ok (res', g)
    /\ counted_once (outcome_of rec_id best_og) (og_bf_dice res) (og_bf_dice res')
    /\ counted_once (outcome_of rec_id best_blip)
         (blip_bf_dice res) (blip_bf_dice res').
Proof.
  intros Hrec Hpool Hnd Hne.
  destruct (py_max_spec (values (sims_of og_bf rec pool))) as (m_og & Hmog & Hog).
  { destruct pool; done. }
  destruct (py_max_spec (values (sims_of hd_bf rec pool))) as (m_bl & Hmbl & Hbl).
  { destruct pool; done. }
  eexists m_og, (max_keys_of (sims_of og_bf rec pool) m_og),
          m_bl, (max_keys_of (sims_of hd_bf rec pool) m_bl), _.
  split; [done|]. split.
  { apply max_keys_of_all_attaining. by rewrite keys_sims_of. }
  split; [done|]. split.
  { apply max_keys_of_all_attaining. by rewrite keys_sims_of. }
  split; [by apply compare_query_run|].
  split; apply incr_counted_once.
Qed.
End QueryClaims.

Section PoolClaims.
Context (R : RandomModule).
Hypothesis shuffle_ok : shuffle_permutes R.

Lemma pool_size_ok_spec (pool hardened base : dict rec_data) (bss : Z) :
  pool_size_ok pool hardened base bss = true
  <-> length pool = length hardened + length base
      /\ (Z.of_nat (length hardened + length base) = bss + 1000)%Z.
Proof.
  unfold pool_size_ok. rewrite andb_true_iff, !Z.eqb_eq. lia.
Qed.

(** The pool that is checked has as many records as the merged dictionary. *)
Lemma build_pool_length (base_records rec_type_dict : dict rec_data)
    (sel : string) (prob : Q) (hardened pool : dict rec_data) g g' :
  NoDup (keys base_records) ->
  build_pool R base_records sel prob rec_type_dict g = Ok ((hardened, pool), g') ->
  length hardened = length rec_type_dict
  /\ length pool = length (dict_merge base_records rec_type_dict).
Proof.
  intros Hnd Hrun. apply build_pool_Ok in Hrun as [Hlen Hkeys].
  split; [done|].
  pose proof (shuffle_ok _ (dict_merge base_records rec_type_dict) g) as Hperm.
  rewrite dict_of_items_NoDup in Hkeys.
  - rewrite <- (length_map fst pool). unfold keys in Hkeys. rewrite Hkeys.
    rewrite length_map. by apply Permutation_length.
  - unfold keys. rewrite Hperm. by apply NoDup_keys_dict_merge.
Qed.

(** C9, as the code has it.  Once the pool is built, the check passes
    exactly when the merged pool has |S| + |B| records and |S| + |B| equals
    [base_sample_size + 1000]; when it does not pass, the run is aborted
    with an assertion failure. *)
Theorem pool_size_check (base_records rec_type_dict : dict rec_data)
    (sel : string) (prob : Q) (base_sample_size : Z) (rec_type : string)
    (res_dict : dict type_counters) (hardened pool : dict rec_data) g g' :
  NoDup (keys base_records) ->
  build_pool R base_records sel prob rec_type_dict g = Ok ((hardened, pool), g') ->
  (pool_size_ok pool hardened base_records base_sample_size = true
   <-> length (dict_merge base_records rec_type_dict)
       = length rec_type_dict + length base_records
       /\ (Z.of_nat (length rec_type_dict + length base_records)
           = base_sample_size + 1000)%Z)
  /\ (pool_size_ok pool hardened base_records base_sample_size = false ->
      compare_rec_type R base_records sel prob base_sample_size rec_type
        rec_type_dict res_dict g = Raise AssertionError).
Proof.
  intros Hnd Hrun.
  pose proof (build_pool_length _ _ _ _ _ _ _ _ Hnd Hrun) as [Hlen Hpool].
  split.
  - rewrite pool_size_ok_spec, Hlen, Hpool. done.
  - intros Hfail. unfold compare_rec_type.
    destruct (existsb (String.eqb rec_type) FILTERED_ID_TYPES
              && negb (dict_in rec_type res_dict)).
    + rewrite (bind_run _ _ g tt g) by done.
      rewrite (bind_run _ _ _ _ _ Hrun). rewrite Hfail.
      by rewrite (bind_raise _ _ _ AssertionError).
    + by rewrite (bind_raise _ _ _ AssertionError).
Qed.
End PoolClaims.

(** ** A well-formed subset is processed to the end *)

Section Completion.
Context (R : RandomModule).
Hypothesis shuffle_ok : shuffle_permutes R.

Lemma dict_merge_disjoint {V : Type} (d1 d2 : dict V) :
  NoDup (keys d1 ++ keys d2) -> dict_merge d1 d2 = d1 ++ d2.
Proof.
  intros Hnd. unfold dict_merge.
  rewrite (fold_dict_set_fresh fst snd d2 d1) by done. f_equal.
  induction d2 as [|[k v] d2 IH]; simpl; [done|]. f_equal. apply IH.
  unfold keys in *. simpl in Hnd.
  apply NoDup_app in Hnd as (Hd1 & Hdisj & [_ Hd2]%NoDup_cons).
  apply NoDup_app. split; [done|]. split; [|done].
  intros x Hx Hx2. apply (Hdisj x Hx). by apply list_elem_of_further.
Qed.

(** A hardening pass over encoded records succeeds and leaves them complete. *)
Lemma harden_records_run (hd_instance : BLIP) (d : dict rec_data) g :
  Forall (fun kv => encoded_rec (snd kv)) d ->
  exists d' g',
    harden_records R hd_instance d g = Ok (d', g')
    /\ Forall (fun kv => complete_rec (snd kv)) d'.
Proof.
  intros Hd. revert g.
  induction Hd as [|[rec_id rec] d [[q Hq] [og Hog]] _ IH]; intros g.
  - by exists [], g.
  - simpl in Hq, Hog. cbn [harden_records]. rewrite Hog. simpl.
    rewrite (bind_run _ _ g tt g) by done.
    rewrite (bind_run _ _ g og g) by done.
    pose proof (harden_bf_bits R hd_instance og g) as Hbf.
    destruct (harden_bits R hd_instance og g) as [hd g1].
    rewrite (bind_run _ _ _ _ _ Hbf).
    destruct (IH g1) as (d' & g' & Hrest & Hcomplete).
    rewrite (bind_run _ _ _ _ _ Hrest).
    eexists _, _. split; [done|].
    constructor; [|done]. simpl. repeat split; by eexists.
Qed.

(** Every query of a complete subset is compared and counted. *)
Lemma compare_queries_run (pool queries : dict rec_data) (res : type_counters) g :
  Forall (fun kv => complete_rec (snd kv)) queries ->
  Forall (fun kv => complete_rec (snd kv)) pool ->
  NoDup (keys pool) ->
  (queries <> [] -> pool <> []) ->
  exists res', for_each queries (compare_query R pool) res g = Ok (res', g).
Proof.
  intros Hq Hpool Hnd Hne. revert res.
  induction Hq as [|[rec_id rec] queries Hrec _ IH]; intros res.
  - by exists res.
  - assert (pool <> []) as Hpne by (by apply Hne).
    destruct (py_max_spec (values (sims_of og_bf rec pool))) as (m_og & Hmog & _).
    { destruct pool; done. }
    destruct (py_max_spec (values (sims_of hd_bf rec pool))) as (m_bl & Hmbl & _).
    { destruct pool; done. }
    rewrite for_each_cons.
    rewrite (compare_query_run R pool rec_id rec res m_og m_bl g) by done.
    apply IH. by intros _.
Qed.

(** X17.  For a valid record type that has not been processed, valid hardening
    parameters, encoded records with identifiers distinct within and across
    the subset and the base pool, and |S| + |B| = [base_sample_size + 1000],
    the subset is processed without an exception. *)
Lemma compare_rec_type_completes (base_records rec_type_dict : dict rec_data)
    (sel : string) (prob : Q) (base_sample_size : Z) (rec_type : string)
    (res_dict : dict type_counters) g :
  existsb (String.eqb rec_type) FILTERED_ID_TYPES = true ->
  dict_in rec_type res_dict = false ->
  is_ok (BLIP_init sel prob (Some 42%Z)) = true ->
  Forall (fun kv => encoded_rec (snd kv)) base_records ->
  Forall (fun kv => encoded_rec (snd kv)) rec_type_dict ->
  NoDup (keys base_records ++ keys rec_type_dict) ->
  (Z.of_nat (length rec_type_dict + length base_records) = base_sample_size + 1000)%Z ->
  exists out,
    compare_rec_type R base_records sel prob base_sample_size rec_type
      rec_type_dict res_dict g = Ok out.
Proof.
  intros Htype Hfresh Hinit Hbase Hsub Hnd Hsize.
  unfold compare_rec_type. rewrite Htype, Hfresh. simpl.
  rewrite (bind_run _ _ g tt g) by done.
  (* the pool *)
  pose proof (shuffle_ok _ (dict_merge base_records rec_type_dict) g) as Hperm.
  rewrite (dict_merge_disjoint _ _ Hnd) in Hperm.
  assert (exists hardened pool g',
            build_pool R base_records sel prob rec_type_dict g
            = Ok ((hardened, pool), g')
            /\ Forall (fun kv => complete_rec (snd kv)) hardened
            /\ Forall (fun kv => complete_rec (snd kv)) pool)
    as (hardened & pool & g' & Hpool & Hhard & Hcomp).
  { unfold build_pool. rewrite (dict_merge_disjoint _ _ Hnd).
    destruct (rnd_shuffle R _ (base_records ++ rec_type_dict) g) as [l g1] eqn:Hl.
    rewrite (bind_run _ _ g l g1) by (unfold draw; by rewrite Hl).
    destruct (BLIP_init sel prob (Some 42%Z)) as [hd|] eqn:Hhd; [|done].
    rewrite (bind_run _ _ g1 hd g1) by done.
    destruct (harden_records_run hd rec_type_dict g1 Hsub) as (h1 & g2 & Hp1 & Hc1).
    rewrite (bind_run _ _ _ _ _ Hp1).
    rewrite (bind_run _ _ g2 hd g2) by done.
    simpl in Hperm.
    assert (Forall (fun kv => encoded_rec (snd kv)) (dict_of_items l)) as Hl'.
    { rewrite dict_of_items_NoDup.
      - rewrite Hperm. by apply Forall_app.
      - unfold keys in *. rewrite Hperm, map_app. done. }
    destruct (harden_records_run hd (dict_of_items l) g2 Hl') as (h2 & g3 & Hp2 & Hc2).
    rewrite (bind_run _ _ _ _ _ Hp2). by eexists _, _, _. }
  rewrite (bind_run _ _ _ _ _ Hpool).
  (* the size check *)
  assert (NoDup (keys base_records)) as Hndb.
  { by apply NoDup_app in Hnd as (? & _ & _). }
  pose proof (build_pool_length R shuffle_ok _ _ _ _ _ _ _ _ Hndb Hpool)
    as [Hlen Hplen].
  rewrite (dict_merge_disjoint _ _ Hnd), length_app in Hplen.
  assert (pool_size_ok pool hardened base_records base_sample_size = true) as Hok.
  { apply pool_size_ok_spec. lia. }
  rewrite Hok. rewrite (bind_run _ _ g' tt g') by done.
  (* the queries *)
  assert (NoDup (keys pool)) as Hndp.
  { apply build_pool_Ok in Hpool as [_ Hkeys].
    rewrite (dict_merge_disjoint _ _ Hnd) in Hkeys. rewrite Hkeys.
    assert (NoDup (keys (rnd_shuffle R _ (base_records ++ rec_type_dict) g).1))
      as Hnds.
    { unfold keys in *. rewrite Hperm, map_app. done. }
    by rewrite dict_of_items_NoDup. }
  destruct (compare_queries_run pool hardened
              {| og_bf_dice := zero_counters; blip_bf_dice := zero_counters |} g'
              Hhard Hcomp Hndp) as [res Hres].
  { intros Hne ->. simpl in Hplen. destruct hardened; [done|]. simpl in *. lia. }
  rewrite (bind_run _ _ _ _ _ Hres). by eexists.
Qed.
End Completion.

(** ** The comparison on concrete inputs *)

(** C2 at a concrete input: a query compared with a pool of three. *)
Lemma query_outcome_classification_witness :
  let rec := demo_hardened ["ab"] [true; true; false; false] [true; false; false; false] in
  let pool := [("b1", demo_hardened ["cd"] [false; false; true; true] [false; true; true; true]);
               ("s1", demo_hardened ["ab"] [true; true; false; false] [true; true; false; true]);
               ("b2", demo_hardened ["ab"; "cd"] [true; true; true; false] [true; false; false; false])] in
  let res := {| og_bf_dice := zero_counters; blip_bf_dice := zero_counters |} in
  complete_rec rec /\
  Forall (fun comp => complete_rec (snd comp)) pool /\
  NoDup (keys pool) /\
  pool <> [] /\
  exists (m_og : Q) (best_og : list string) (m_blip : Q) (best_blip : list string)
         (res' : type_counters),
    is_maximum m_og (values (sims_of og_bf rec pool))
    /\ all_attaining (sims_of og_bf rec pool) m_og best_og
    /\ is_maximum m_blip (values (sims_of hd_bf rec pool))
    /\ all_attaining (sims_of hd_bf rec pool) m_blip best_blip
    /\ compare_query Tape.R pool ("s1", rec) res [] = Ok (res', [])
    /\ counted_once (outcome_of "s1" best_og) (og_bf_dice res) (og_bf_dice res')
    /\ counted_once (outcome_of "s1" best_blip)
         (blip_bf_dice res) (blip_bf_dice res').
Proof.
  intros rec pool res.
  assert (complete_rec rec) as Hrec by (repeat split; by eexists).
  assert (Forall (fun comp => complete_rec (snd comp)) pool) as Hpool
    by (repeat constructor; by eexists).
  assert (NoDup (keys pool)) as Hnd by (by apply (bool_decide_unpack _)).
  assert (pool <> []) as Hne by done.
  repeat (split; [assumption|]).
  apply (query_outcome_classification Tape.R pool "s1" rec res [] Hrec Hpool Hnd Hne).
Defined.

(** C3 at a concrete input: a subset of two records and a base pool of one,
    with [base_sample_size] such that [base_sample_size + 1000] is 3. *)
Lemma outcome_counters_sum_to_subset_size_witness :
  let base := [("b1", demo_rec ["cd"] [false; false; true; true])] in
  let subset := [("s1", demo_rec ["ab"] [true; true; false; false]);
                 ("s2", demo_rec ["ab"; "cd"] [true; true; true; false])] in
  exists res_dict' g',
    compare_rec_type Tape.R base "sch" (1 # 2) (-997) "r1" subset [] (Tape.seed 3)
    = Ok (res_dict', g')
    /\ exists res,
         dict_get "r1" res_dict' = Ok res
         /\ total (og_bf_dice res) = length subset
         /\ total (blip_bf_dice res) = length subset.
Proof.
  intros base subset.
  assert (exists r, compare_rec_type Tape.R base "sch" (1 # 2) (-997) "r1"
                      subset [] (Tape.seed 3) = Ok r) as [[res_dict' g'] Hrun].
  { eexists. vm_compute. reflexivity. }
  exists res_dict', g'. split; [exact Hrun|].
  apply (outcome_counters_sum_to_subset_size Tape.R base subset "sch" (1 # 2)
           (-997) "r1" [] res_dict' (Tape.seed 3) g' Hrun).
Defined.

(** C9 refuted on the code.  A subset of one record and a base pool of one
    record with another identifier, [base_sample_size] being the size of the
    base pool: the merged pool has |S| + |B| = 2 records, the pool is built,
    and the check fails, since 2 is not [base_sample_size + 1000]. *)
Lemma pool_of_expected_size_fails_check :
  let base := [("b1", demo_rec ["cd"] [false; false; true; true])] in
  let subset := [("s1", demo_rec ["ab"] [true; true; false; false])] in
  length (dict_merge base subset) = length subset + length base
  /\ is_ok (build_pool Tape.R base "ala" 0 subset (Tape.seed 3)) = true
  /\ compare_rec_type Tape.R base "ala" 0 1 "r1" subset [] (Tape.seed 3)
     = Raise AssertionError.
Proof.
  repeat split; vm_compute; reflexivity.
Qed.

(** C9 at a concrete input: the same subset and base pool. *)
Lemma pool_size_check_witness :
  let base := [("b1", demo_rec ["cd"] [false; false; true; true])] in
  let subset := [("s1", demo_rec ["ab"] [true; true; false; false])] in
  shuffle_permutes Tape.R /\
  NoDup (keys base) /\
  exists hardened pool g',
    build_pool Tape.R base "ala" 0 subset (Tape.seed 3) = Ok ((hardened, pool), g')
    /\ (pool_size_ok pool hardened base 1 = true
        <-> length (dict_merge base subset) = length subset + length base
            /\ (Z.of_nat (length subset + length base) = 1 + 1000)%Z)
    /\ (pool_size_ok pool hardened base 1 = false ->
        compare_rec_type Tape.R base "ala" 0 1 "r1" subset [] (Tape.seed 3)
        = Raise AssertionError).
Proof.
  intros base subset.
  assert (NoDup (keys base)) as Hnd by (by apply (bool_decide_unpack _)).
  assert (exists r, build_pool Tape.R base "ala" 0 subset (Tape.seed 3) = Ok r)
    as [[[hardened pool] g'] Hrun].
  { eexists. vm_compute. reflexivity. }
  split; [exact TapeFacts.shuffle_perm|]. split; [exact Hnd|].
  exists hardened, pool, g'. split; [exact Hrun|].
  apply (pool_size_check Tape.R TapeFacts.shuffle_perm base subset "ala" 0 1 "r1" []
           hardened pool (Tape.seed 3) g' Hnd Hrun).
Defined.


(** * Further properties of the code *)

(** ** Hardening *)

Section HardeningExtras.
Context (R : RandomModule).

Lemma length_selection_mask (prob : Q) (n : nat) g :
  length (selection_mask R prob n g) = n.
Proof.
  revert g. induction n as [|n IH]; intros g; simpl; [done|]. by rewrite IH.
Qed.

(** Under the independent-flip method the pass is an exclusive or with the
    selection mask. *)
Lemma harden_bits_ala (self : BLIP) (bf : bitarray) g :
  sel_method self = "ala" ->
  harden_bits R self bf g
  = (zip_with xorb bf (selection_mask R (blip_prob self) (length bf) g),
     skip_random R (length bf) g).
Proof.
  intros Hsel. revert g. induction bf as [|b bf IH]; intros g; simpl; [done|].
  unfold harden_bit. rewrite Hsel. simpl.
  destruct (rnd_random R g) as [rand g1]; simpl.
  destruct (Qle_bool rand (blip_prob self)); rewrite IH; by destruct b.
Qed.

Lemma zip_with_xorb_twice (l mask : list bool) :
  length l <= length mask ->
  zip_with xorb (zip_with xorb l mask) mask = l.
Proof.
  revert mask. induction l as [|b l IH]; intros [|m mask]; simpl; try done; try lia.
  intros Hlen. rewrite IH by lia. by destruct b, m.
Qed.

(** X1.  [harden_bf] never raises, whatever the instance, the input and the
    state of the generator (the index accesses stay in range and the final
    assertion holds), and the hardened vector has the length of the input. *)
Theorem harden_bf_returns_same_length (self : BLIP) (bf : bitarray) g :
  exists out g',
    harden_bf R self bf g = Ok (out, g') /\ length out = length bf.
Proof.
  exists (fst (harden_bits R self bf g)), (snd (harden_bits R self bf g)).
  split.
  - rewrite harden_bf_bits. by destruct (harden_bits R self bf g).
  - apply length_harden_bits.
Qed.

(** X2.  With the independent-flip method ('ala') and any flip probability,
    the hardened vector is the exclusive or of the input with the mask of
    the draws that are at most the probability, and the pass consumes exactly
    [len(bf)] values of [random.random()] and nothing else. *)
Theorem harden_ala_is_masked_flip (self : BLIP) (bf : bitarray) g :
  sel_method self = "ala" ->
  harden_bf R self bf g
  = Ok (zip_with xorb bf (selection_mask R (blip_prob self) (length bf) g),
        skip_random R (length bf) g).
Proof.
  intros Hsel. rewrite harden_bf_bits. by rewrite harden_bits_ala.
Qed.

(** X3.  Independent-flip hardening is undone by repeating it from the same
    generator state: hardening the hardened vector, with the generator put
    back where the first pass started, returns the original vector. *)
Theorem harden_ala_involution (self : BLIP) (bf out : bitarray) g g' :
  sel_method self = "ala" ->
  harden_bf R self bf g = Ok (out, g') ->
  eval (harden_bf R self out) g = Ok bf.
Proof.
  intros Hsel Hrun. rewrite harden_bf_bits, harden_bits_ala in Hrun by done.
  injection Hrun as <- _.
  unfold eval. rewrite harden_bf_bits, harden_bits_ala by done.
  rewrite length_zip_with, length_selection_mask, Nat.min_id.
  rewrite zip_with_xorb_twice; [done|]. by rewrite length_selection_mask.
Qed.

Lemma harden_bits_all_selected_sch (self : BLIP) (bf1 bf2 : bitarray) g :
  sel_method self = "sch" ->
  (forall g', Qle_bool (fst (rnd_random R g')) (blip_prob self) = true) ->
  length bf1 = length bf2 ->
  harden_bits R self bf1 g = harden_bits R self bf2 g.
Proof.
  intros Hsel Hall. revert bf2 g.
  induction bf1 as [|b1 bf1 IH]; intros [|b2 bf2] g Hlen; simpl in *; try done.
  unfold harden_bit. specialize (Hall g).
  destruct (rnd_random R g) as [rand g1]; simpl in *.
  rewrite Hall, Hsel. simpl.
  destruct (rnd_choice01 R g1) as [bit g2].
  by rewrite (IH bf2 g2) by lia.
Qed.

(** X4.  With the balanced-flip method ('sch') and flip probability 1, the
    hardened vector does not depend on the bits of the input: two inputs of
    the same length give the same output and leave the same generator state. *)
Theorem harden_sch_p1_forgets_input (rseed : option Z) (bf1 bf2 : bitarray) g :
  random_in_unit_interval R ->
  length bf1 = length bf2 ->
  blip_harden R "sch" 1 rseed bf1 g = blip_harden R "sch" 1 rseed bf2 g.
Proof.
  intros Hunit Hlen.
  rewrite !(blip_harden_bits R _ _ _
              {| blip_type := "BLP"; sel_method := "sch";
                 random_seed := rseed; blip_prob := 1 |}) by done.
  f_equal. apply harden_bits_all_selected_sch; [done| |done].
  intros g'. simpl. apply Qle_bool_iff, Qlt_le_weak, Hunit.
Qed.
End HardeningExtras.

(** X2 at a concrete input. *)
Lemma harden_ala_is_masked_flip_witness :
  let self := {| blip_type := "BLP"; sel_method := "ala";
                 random_seed := Some 42%Z; blip_prob := 1 # 2 |} in
  let g : rnd_state Tape.R := [4294967295; 0; 0; 0; 4294967295; 0]%Z in
  sel_method self = "ala" /\
  harden_bf Tape.R self [true; true; false] g
  = Ok (zip_with xorb [true; true; false]
          (selection_mask Tape.R (1 # 2) 3 g),
        skip_random Tape.R 3 g).
Proof.
  intros self g. split; [reflexivity|].
  apply (harden_ala_is_masked_flip Tape.R self [true; true; false] g eq_refl).
Defined.

(** X3 at a concrete input. *)
Lemma harden_ala_involution_witness :
  let self := {| blip_type := "BLP"; sel_method := "ala";
                 random_seed := Some 42%Z; blip_prob := 1 # 2 |} in
  let g : rnd_state Tape.R := [4294967295; 0; 0; 0; 4294967295; 0]%Z in
  sel_method self = "ala" /\
  harden_bf Tape.R self [true; true; false] g = Ok ([true; false; false], []) /\
  eval (harden_bf Tape.R self [true; false; false]) g = Ok [true; true; false].
Proof.
  intros self g.
  assert (harden_bf Tape.R self [true; true; false] g = Ok ([true; false; false], []))
    as Hrun by (vm_compute; reflexivity).
  split; [reflexivity|]. split; [exact Hrun|].
  apply (harden_ala_involution Tape.R self [true; true; false] [true; false; false]
           g [] eq_refl Hrun).
Defined.

(** X4 at a concrete input. *)
Lemma harden_sch_p1_forgets_input_witness :
  random_in_unit_interval Tape.R /\
  length [true; true; false] = length [false; true; true] /\
  blip_harden Tape.R "sch" 1 (Some 42%Z) [true; true; false] (Tape.seed 11)
  = blip_harden Tape.R "sch" 1 (Some 42%Z) [false; true; true] (Tape.seed 11).
Proof.
  split; [exact TapeFacts.random_unit|]. split; [reflexivity|].
  apply (harden_sch_p1_forgets_input Tape.R (Some 42%Z) [true; true; false]
           [false; true; true] (Tape.seed 11) TapeFacts.random_unit eq_refl).
Defined.

(** ** Bloom-filter encoding *)

Section HashingExtras.
Context (R : RandomModule).
Hypothesis randint_ok : randint_in_range R.

Lemma RandomHashing_init_Ok (hf : string -> Z) (len k : Z) (get_pos : bool)
    (self : RandomHashing) :
  RandomHashing_init hf len k get_pos = Ok self ->
  self = {| hash_funct := hf; bf_len := len; num_hash_funct := k;
            get_q_gram_pos := get_pos |}
  /\ (1 < len)%Z /\ (0 < k)%Z.
Proof.
  unfold RandomHashing_init.
  destruct (Z.ltb_spec 1 len); [|done]. destruct (Z.ltb_spec 0 k); [|done].
  simpl. by intros [= <-].
Qed.

(** The whole run of [hash_q_gram_set], final generator state included. *)
Lemma hash_q_gram_set_run (hf : string -> Z) (len k : Z) (get_pos : bool)
    (self : RandomHashing) (q_gram_set : list string) (salt_str : option string) g :
  RandomHashing_init hf len k get_pos = Ok self ->
  hash_q_gram_set R self q_gram_set salt_str g
  = Ok ((hashed_bits R self salt_str q_gram_set (replicate (Z.to_nat len) false),
         if get_pos then Some (hashed_dict R self salt_str q_gram_set ∅) else None),
        state_after R self salt_str q_gram_set g).
Proof.
  intros (-> & HL & Hk)%RandomHashing_init_Ok.
  unfold hash_q_gram_set. simpl.
  destruct (Z.ltb_spec len 0); [lia|].
  pose proof (for_each_hash_q_gram R randint_ok
    {| hash_funct := hf; bf_len := len; num_hash_funct := k; get_q_gram_pos := get_pos |}
    salt_str q_gram_set (replicate (Z.to_nat len) false) ∅ g) as Hloop.
  simpl in Hloop.
  rewrite (bind_run _ _ _ _ _ (Hloop HL ltac:(rewrite length_replicate; lia))).
  by destruct get_pos.
Qed.

Lemma randint_draws_range (n : nat) (a b : Z) g (pos : Z) :
  (a <= b)%Z ->
  pos ∈ fst (randint_draws R n a b g) -> (a <= pos <= b)%Z.
Proof.
  intros Hab. revert g. induction n as [|n IH]; intros g; simpl.
  - by intros ?%elem_of_nil.
  - pose proof (randint_ok a b g Hab) as Hr.
    destruct (rnd_randint R a b g) as [p g1]; simpl in Hr.
    specialize (IH g1). destruct (randint_draws R n a b g1) as [rest g2].
    simpl in *. intros [->|Hin]%elem_of_cons; [done|by apply IH].
Qed.

Lemma key_positions_range (self : RandomHashing) (key : string) (pos : Z) :
  (1 < bf_len self)%Z ->
  pos ∈ key_positions R self key -> (0 <= pos < bf_len self)%Z.
Proof.
  intros HL Hin. apply randint_draws_range in Hin; lia.
Qed.

Lemma length_key_positions (self : RandomHashing) (key : string) :
  length (key_positions R self key) = Z.to_nat (num_hash_funct self).
Proof. apply length_randint_draws. Qed.

Lemma elem_of_concat_map {A B : Type} (f : A -> list B) (l : list A) (y : B) :
  y ∈ concat (map f l) <-> exists x, x ∈ l /\ y ∈ f x.
Proof.
  induction l as [|x l IH]; simpl.
  - split; [by intros ?%elem_of_nil|]. by intros (x & ?%elem_of_nil & _).
  - rewrite elem_of_app, IH. split.
    + intros [Hy|(x' & Hx' & Hy)].
      * exists x. split; [apply list_elem_of_here|done].
      * exists x'. split; [by apply list_elem_of_further|done].
    + intros (x' & [->|Hx']%elem_of_cons & Hy); [by left|].
      right. by exists x'.
Qed.

(** A bit of the result is set when it was set before or its position was
    drawn. *)
Lemma lookup_set_bits_true (positions : list Z) (bf : bitarray) (i : nat) :
  (forall pos, pos ∈ positions -> (0 <= pos)%Z) ->
  set_bits positions bf !! i = Some true
  <-> bf !! i = Some true \/ (i < length bf /\ Z.of_nat i ∈ positions).
Proof.
  revert bf. induction positions as [|p ps IH]; intros bf Hnn.
  - simpl. split; [by left|]. intros [?|[_ ?%elem_of_nil]]; done.
  - rewrite set_bits_cons, IH, length_insert, list_lookup_insert_Some.
    2:{ intros pos Hpos. by apply Hnn, list_elem_of_further. }
    assert (0 <= p)%Z as Hp by apply Hnn, list_elem_of_here.
    rewrite elem_of_cons. split.
    + intros [[(Heq & _ & Hlt)|[_ Hbf]]|[Hlt Hin]].
      * right. split; [done|]. left. lia.
      * by left.
      * right. split; [done|]. by right.
    + intros [Hbf|[Hlt [Heq|Hin]]].
      * destruct (decide (Z.to_nat p = i)) as [Heq|Hne].
        -- left. left. split; [done|]. split; [done|].
           by apply lookup_lt_Some in Hbf.
        -- left. right. by split.
      * left. left. split; [lia|]. by split.
      * right. by split.
Qed.

Lemma bool_list_eq (l1 l2 : list bool) :
  length l1 = length l2 ->
  (forall i, l1 !! i = Some true <-> l2 !! i = Some true) ->
  l1 = l2.
Proof.
  revert l2. induction l1 as [|b1 l1 IH]; intros [|b2 l2] Hlen Hbits;
    simpl in *; try done.
  f_equal.
  - specialize (Hbits 0). simpl in Hbits. destruct b1, b2; try done.
    + by pose proof (proj1 Hbits eq_refl).
    + by pose proof (proj2 Hbits eq_refl).
  - apply IH; [lia|]. intros i. apply (Hbits (S i)).
Qed.

Lemma popcount_pos_of_set_bit (bf : bitarray) (i : nat) :
  bf !! i = Some true -> 0 < popcount bf.
Proof.
  revert i. induction bf as [|b bf IH]; intros [|i] Hi; simpl in *; try done.
  - injection Hi as ->. lia.
  - specialize (IH i Hi). lia.
Qed.

(** The bits of the Bloom filter of a q-gram set: a bit is set exactly when
    one of the q-grams draws its position. *)
Lemma hashed_bits_lookup (self : RandomHashing) (salt_str : option string)
    (q_gram_set : list string) (i : nat) :
  (1 < bf_len self)%Z ->
  hashed_bits R self salt_str q_gram_set
    (replicate (Z.to_nat (bf_len self)) false) !! i = Some true
  <-> exists q, q ∈ q_gram_set
                /\ Z.of_nat i ∈ key_positions R self (salted salt_str q).
Proof.
  intros HL. unfold hashed_bits. rewrite lookup_set_bits_true.
  - rewrite length_replicate, elem_of_concat_map. split.
    + intros [[? _]%lookup_replicate|[_ Hin]]; done.
    + intros (q & Hq & Hin). right. split; [|by exists q].
      apply key_positions_range in Hin; lia.
  - intros pos (q & _ & Hin)%elem_of_concat_map.
    apply key_positions_range in Hin; lia.
Qed.

Lemma length_hashed_bits (self : RandomHashing) (salt_str : option string)
    (q_gram_set : list string) (bf : bitarray) :
  length (hashed_bits R self salt_str q_gram_set bf) = length bf.
Proof. apply length_set_bits. Qed.

(** The entry of the position dictionary for a key. *)
Lemma hashed_dict_lookup (self : RandomHashing) (salt_str : option string)
    (q_gram_set : list string) (d : gmap string (gset Z)) (key : string) :
  hashed_dict R self salt_str q_gram_set d !! key
  = if decide (key ∈ salted salt_str <$> q_gram_set)
    then Some (list_to_set (key_positions R self key))
    else d !! key.
Proof.
  revert d. unfold hashed_dict.
  induction q_gram_set as [|q qs IH]; intros d; simpl.
  - destruct (decide (key ∈ [])) as [?%elem_of_nil|_]; done.
  - rewrite IH.
    destruct (decide (key ∈ salted salt_str <$> qs)) as [Hin|Hnone].
    + rewrite decide_True; [done|]. by apply list_elem_of_further.
    + destruct (decide (key = salted salt_str q)) as [->|Hne].
      * rewrite lookup_insert_eq. rewrite decide_True; [done|].
        apply list_elem_of_here.
      * rewrite lookup_insert_ne by done. rewrite decide_False; [done|].
        by intros [?|?]%elem_of_cons.
Qed.
End HashingExtras.

Section HashingExtraClaims.
Context (R : RandomModule).
Hypothesis randint_ok : randint_in_range R.

Lemma size_list_to_set_le (l : list Z) :
  size (list_to_set l : gset Z) <= length l.
Proof.
  induction l as [|x l IH].
  - rewrite list_to_set_nil, size_empty. done.
  - rewrite list_to_set_cons, size_union_alt, size_singleton.
    assert (size (list_to_set l ∖ {[x]} : gset Z) <= size (list_to_set l : gset Z))
      by apply subseteq_size, subseteq_difference_l, reflexivity.
    simpl. lia.
Qed.

Lemma string_append_empty (s : string) : String.append s "" = s.
Proof.
  induction s as [|c s IH]; [reflexivity|].
  change (String c (String.append s "") = String c s). by f_equal.
Qed.

(** The value of a last-wins fold over a list ending in [x]. *)
Lemma foldl_const_snoc {A B : Type} (f : A -> B) (l : list A) (x : A) (b : B) :
  foldl (fun _ y => f y) b (l ++ [x]) = f x.
Proof. by rewrite foldl_app. Qed.

(** X5.  For an encoder built by the constructor, [hash_q_gram_set] returns
    a Bloom filter of exactly [bf_len] bits, for every q-gram set and salt. *)
Theorem hash_q_gram_set_length (hf : string -> Z) (len k : Z)
    (get_pos : bool) (self : RandomHashing)
    (q_gram_set : list string) (salt_str : option string) g :
  RandomHashing_init hf len k get_pos = Ok self ->
  exists bf d g',
    hash_q_gram_set R self q_gram_set salt_str g = Ok ((bf, d), g')
    /\ Z.of_nat (length bf) = len.
Proof.
  intros Hinit. do 3 eexists. split.
  - by apply (hash_q_gram_set_run R randint_ok hf len k get_pos).
  - apply RandomHashing_init_Ok in Hinit as (-> & HL & _).
    rewrite length_hashed_bits, length_replicate. lia.
Qed.

(** X6.  The Bloom filter has no bit set exactly when the q-gram set is
    empty: every non-empty set sets at least one bit. *)
Theorem hash_q_gram_set_zero_iff_empty (hf : string -> Z) (len k : Z)
    (get_pos : bool) (self : RandomHashing)
    (q_gram_set : list string) (salt_str : option string) g :
  RandomHashing_init hf len k get_pos = Ok self ->
  exists bf d,
    eval (hash_q_gram_set R self q_gram_set salt_str) g = Ok (bf, d)
    /\ (popcount bf = 0 <-> q_gram_set = []).
Proof.
  intros Hinit. do 2 eexists. split.
  - by apply (hash_q_gram_set_value R randint_ok hf len k get_pos).
  - apply RandomHashing_init_Ok in Hinit as (Hself & HL & Hk).
    assert (bf_len self = len) as Hbl by (by rewrite Hself).
    assert (num_hash_funct self = k) as Hnk by (by rewrite Hself).
    rewrite <- Hbl in *. split.
    + destruct q_gram_set as [|q qs]; [done|]. intros Hzero. exfalso.
      pose proof (length_key_positions R self (salted salt_str q)) as Hlen.
      destruct (key_positions R self (salted salt_str q)) as [|pos ps] eqn:Hpos;
        [simpl in Hlen; lia|].
      assert (pos ∈ key_positions R self (salted salt_str q)) as Hin.
      { rewrite Hpos. apply list_elem_of_here. }
      pose proof (key_positions_range R randint_ok self _ _ HL Hin) as Hrange.
      assert (hashed_bits R self salt_str (q :: qs)
                (replicate (Z.to_nat (bf_len self)) false) !! Z.to_nat pos
              = Some true) as Hbit.
      { apply (hashed_bits_lookup R randint_ok self); [done|].
        exists q. split; [apply list_elem_of_here|]. by rewrite Z2Nat.id by lia. }
      apply popcount_pos_of_set_bit in Hbit. lia.
    + intros ->. apply popcount_replicate_false.
Qed.

(** X7.  The result depends only on which q-grams occur: two lists with the
    same elements, in any order and with any repetitions, give the same
    Bloom filter and the same position dictionary. *)
Theorem hash_q_gram_set_same_elements (hf : string -> Z) (len k : Z)
    (get_pos : bool) (self : RandomHashing)
    (q_gram_set q_gram_set' : list string) (salt_str : option string) g g' :
  RandomHashing_init hf len k get_pos = Ok self ->
  (forall q, q ∈ q_gram_set <-> q ∈ q_gram_set') ->
  eval (hash_q_gram_set R self q_gram_set salt_str) g
  = eval (hash_q_gram_set R self q_gram_set' salt_str) g'.
Proof.
  intros Hinit Hsame.
  rewrite !(hash_q_gram_set_value R randint_ok hf len k get_pos) by done.
  apply RandomHashing_init_Ok in Hinit as (-> & HL & Hk).
  f_equal. f_equal.
  - apply bool_list_eq; [by rewrite !length_hashed_bits|].
    intros i.
    rewrite !(hashed_bits_lookup R randint_ok
                {| hash_funct := hf; bf_len := len; num_hash_funct := k;
                   get_q_gram_pos := get_pos |}) by done.
    split; intros (q & Hq & Hin); exists q; (split; [by apply Hsame|done]).
  - destruct get_pos; [|done]. f_equal. apply map_eq. intros key.
    rewrite !hashed_dict_lookup.
    destruct (decide (key ∈ salted salt_str <$> q_gram_set)) as [Hin|Hnin];
      destruct (decide (key ∈ salted salt_str <$> q_gram_set')) as [Hin'|Hnin'];
      try done.
    + exfalso. apply Hnin'. apply list_elem_of_fmap in Hin as (q & -> & Hq).
      apply list_elem_of_fmap. exists q. split; [done|by apply Hsame].
    + exfalso. apply Hnin. apply list_elem_of_fmap in Hin' as (q & -> & Hq).
      apply list_elem_of_fmap. exists q. split; [done|by apply Hsame].
Qed.

(** X8.  The Bloom filter of a union of q-gram sets is the bitwise OR of the
    Bloom filters of the parts. *)
Theorem hash_q_gram_set_union (hf : string -> Z) (len k : Z)
    (get_pos : bool) (self : RandomHashing)
    (qs1 qs2 qs12 : list string) (salt_str : option string) g1 g2 g :
  RandomHashing_init hf len k get_pos = Ok self ->
  (forall q, q ∈ qs12 <-> q ∈ qs1 \/ q ∈ qs2) ->
  exists bf1 bf2 d1 d2 d,
    eval (hash_q_gram_set R self qs1 salt_str) g1 = Ok (bf1, d1)
    /\ eval (hash_q_gram_set R self qs2 salt_str) g2 = Ok (bf2, d2)
    /\ eval (hash_q_gram_set R self qs12 salt_str) g = Ok (zip_with orb bf1 bf2, d).
Proof.
  intros Hinit Hunion. do 5 eexists.
  rewrite !(hash_q_gram_set_value R randint_ok hf len k get_pos) by done.
  split; [done|]. split; [done|].
  apply RandomHashing_init_Ok in Hinit as (-> & HL & Hk).
  f_equal. f_equal.
  apply bool_list_eq.
  { rewrite length_zip_with, !length_hashed_bits. lia. }
  intros i. rewrite lookup_zip_with_Some.
  rewrite (hashed_bits_lookup R randint_ok
             {| hash_funct := hf; bf_len := len; num_hash_funct := k;
                get_q_gram_pos := get_pos |}) by done.
  split.
  - intros (q & [Hq|Hq]%Hunion & Hin).
    + assert (hashed_bits R
                {| hash_funct := hf; bf_len := len; num_hash_funct := k;
                   get_q_gram_pos := get_pos |} salt_str qs1
                (replicate (Z.to_nat len) false) !! i = Some true) as H1.
      { apply (hashed_bits_lookup R randint_ok
                 {| hash_funct := hf; bf_len := len; num_hash_funct := k;
                    get_q_gram_pos := get_pos |}); [done|]. by exists q. }
      destruct (lookup_lt_is_Some_2
                  (hashed_bits R
                     {| hash_funct := hf; bf_len := len; num_hash_funct := k;
                        get_q_gram_pos := get_pos |} salt_str qs2
                     (replicate (Z.to_nat len) false)) i) as [y Hy].
      { apply lookup_lt_Some in H1.
        rewrite length_hashed_bits in *. done. }
      by exists true, y.
    + assert (hashed_bits R
                {| hash_funct := hf; bf_len := len; num_hash_funct := k;
                   get_q_gram_pos := get_pos |} salt_str qs2
                (replicate (Z.to_nat len) false) !! i = Some true) as H2.
      { apply (hashed_bits_lookup R randint_ok
                 {| hash_funct := hf; bf_len := len; num_hash_funct := k;
                    get_q_gram_pos := get_pos |}); [done|]. by exists q. }
      destruct (lookup_lt_is_Some_2
                  (hashed_bits R
                     {| hash_funct := hf; bf_len := len; num_hash_funct := k;
                        get_q_gram_pos := get_pos |} salt_str qs1
                     (replicate (Z.to_nat len) false)) i) as [x Hx].
      { apply lookup_lt_Some in H2.
        rewrite length_hashed_bits in *. done. }
      exists x, true. split; [by destruct x|done].
  - intros (x & y & Hor & Hx & Hy).
    symmetry in Hor. apply orb_true_iff in Hor as [-> | ->].
    + apply (hashed_bits_lookup R randint_ok
               {| hash_funct := hf; bf_len := len; num_hash_funct := k;
                  get_q_gram_pos := get_pos |}) in Hx as (q & Hq & Hin); [|done].
      exists q. split; [apply Hunion; by left|done].
    + apply (hashed_bits_lookup R randint_ok
               {| hash_funct := hf; bf_len := len; num_hash_funct := k;
                  get_q_gram_pos := get_pos |}) in Hy as (q & Hq & Hin); [|done].
      exists q. split; [apply Hunion; by right|done].
Qed.

(** X9.  Bloom filters have no false negatives: every bit set for a q-gram
    set is set for every q-gram set that contains it. *)
Theorem hash_q_gram_set_monotone (hf : string -> Z) (len k : Z)
    (get_pos : bool) (self : RandomHashing)
    (qs qs' : list string) (salt_str : option string) g g' :
  RandomHashing_init hf len k get_pos = Ok self ->
  (forall q, q ∈ qs -> q ∈ qs') ->
  exists bf bf' d d',
    eval (hash_q_gram_set R self qs salt_str) g = Ok (bf, d)
    /\ eval (hash_q_gram_set R self qs' salt_str) g' = Ok (bf', d')
    /\ forall i, bf !! i = Some true -> bf' !! i = Some true.
Proof.
  intros Hinit Hsub. do 4 eexists.
  rewrite !(hash_q_gram_set_value R randint_ok hf len k get_pos) by done.
  split; [done|]. split; [done|].
  apply RandomHashing_init_Ok in Hinit as (-> & HL & Hk).
  intros i.
  rewrite !(hashed_bits_lookup R randint_ok
              {| hash_funct := hf; bf_len := len; num_hash_funct := k;
                 get_q_gram_pos := get_pos |}) by done.
  intros (q & Hq & Hin). exists q. split; [by apply Hsub|done].
Qed.

(** X10.  What the call does to the global generator.  For an empty q-gram
    set the generator is left untouched.  Otherwise it is left in a state
    fixed by the last q-gram iterated (seeded with its digest and advanced by
    [k] draws), whatever its state before the call. *)
Theorem hash_q_gram_set_generator_state (hf : string -> Z) (len k : Z)
    (get_pos : bool) (self : RandomHashing)
    (qs : list string) (q_last : string) (salt_str : option string) g :
  RandomHashing_init hf len k get_pos = Ok self ->
  (exists out, hash_q_gram_set R self [] salt_str g = Ok (out, g))
  /\ (exists out,
        hash_q_gram_set R self (qs ++ [q_last]) salt_str g
        = Ok (out,
              snd (randint_draws R (Z.to_nat k) 0 (len - 1)
                     (rnd_seed R (hf (salted salt_str q_last)))))).
Proof.
  intros Hinit. split; eexists.
  - by rewrite (hash_q_gram_set_run R randint_ok hf len k get_pos).
  - rewrite (hash_q_gram_set_run R randint_ok hf len k get_pos) by done.
    apply RandomHashing_init_Ok in Hinit as (-> & _ & _).
    unfold state_after.
    by rewrite (foldl_const_snoc
                  (fun q => snd (randint_draws R (Z.to_nat k) 0 (len - 1)
                                   (rnd_seed R (hf (salted salt_str q)))))).
Qed.

(** X11.  With [get_q_gram_pos] set, the position dictionary has exactly the
    (salted) q-grams as keys, and each position set is non-empty, has at
    most [k] members, and holds positions within the filter. *)
Theorem hash_q_gram_set_positions (hf : string -> Z) (len k : Z)
    (self : RandomHashing)
    (q_gram_set : list string) (salt_str : option string) g :
  RandomHashing_init hf len k true = Ok self ->
  exists bf d,
    eval (hash_q_gram_set R self q_gram_set salt_str) g = Ok (bf, Some d)
    /\ (forall key, is_Some (d !! key)
                    <-> exists q, q ∈ q_gram_set /\ key = salted salt_str q)
    /\ (forall key (ps : gset Z), d !! key = Some ps ->
          ps <> ∅
          /\ Z.of_nat (size ps) <= k
          /\ forall pos, pos ∈ ps -> 0 <= pos < len)%Z.
Proof.
  intros Hinit. do 2 eexists.
  rewrite (hash_q_gram_set_value R randint_ok hf len k true) by done.
  split; [done|].
  apply RandomHashing_init_Ok in Hinit as (-> & HL & Hk). split.
  - intros key. rewrite hashed_dict_lookup, lookup_empty.
    destruct (decide (key ∈ salted salt_str <$> q_gram_set)) as [Hin|Hnin].
    + split; [|by eexists]. intros _.
      apply list_elem_of_fmap in Hin as (q & -> & Hq). by exists q.
    + split; [by intros [? ?]|]. intros (q & Hq & ->). exfalso.
      apply Hnin, list_elem_of_fmap. by exists q.
  - intros key ps. rewrite hashed_dict_lookup, lookup_empty.
    destruct (decide (key ∈ salted salt_str <$> q_gram_set)); [|done].
    intros [= <-].
    pose proof (length_key_positions R
      {| hash_funct := hf; bf_len := len; num_hash_funct := k;
         get_q_gram_pos := true |} key) as Hlen.
    simpl in Hlen. split; [|split].
    + destruct (key_positions R _ key) as [|pos rest] eqn:Hpos;
        [simpl in Hlen; lia|].
      intros Hempty.
      assert (pos ∈ (list_to_set (pos :: rest) : gset Z)) as Hin
        by (apply elem_of_list_to_set, list_elem_of_here).
      rewrite Hempty in Hin. by apply not_elem_of_empty in Hin.
    + pose proof (size_list_to_set_le
        (key_positions R
           {| hash_funct := hf; bf_len := len; num_hash_funct := k;
              get_q_gram_pos := true |} key)). lia.
    + intros pos Hin%elem_of_list_to_set.
      apply (key_positions_range R randint_ok) in Hin; done.
Qed.

(** X12.  The set bits of the Bloom filter are exactly the positions recorded
    in the dictionary: bit [i] is 1 when some q-gram's position set holds
    [i], and 0 otherwise. *)
Theorem hash_q_gram_set_bits_are_positions (hf : string -> Z) (len k : Z)
    (self : RandomHashing)
    (q_gram_set : list string) (salt_str : option string) g :
  RandomHashing_init hf len k true = Ok self ->
  exists bf d,
    eval (hash_q_gram_set R self q_gram_set salt_str) g = Ok (bf, Some d)
    /\ forall i : nat,
         bf !! i = Some true
         <-> exists key (ps : gset Z), d !! key = Some ps /\ Z.of_nat i ∈ ps.
Proof.
  intros Hinit. do 2 eexists.
  rewrite (hash_q_gram_set_value R randint_ok hf len k true) by done.
  split; [done|].
  apply RandomHashing_init_Ok in Hinit as (-> & HL & Hk).
  intros i.
  rewrite (hashed_bits_lookup R randint_ok
             {| hash_funct := hf; bf_len := len; num_hash_funct := k;
                get_q_gram_pos := true |}) by done.
  split.
  - intros (q & Hq & Hin). eexists (salted salt_str q), _. split.
    + rewrite hashed_dict_lookup. rewrite decide_True; [done|].
      apply list_elem_of_fmap. by exists q.
    + by apply elem_of_list_to_set.
  - intros (key & ps & Hkey & Hin). rewrite hashed_dict_lookup, lookup_empty in Hkey.
    destruct (decide (key ∈ salted salt_str <$> q_gram_set)) as [Hk'|]; [|done].
    injection Hkey as <-. apply list_elem_of_fmap in Hk' as (q & -> & Hq).
    exists q. split; [done|]. by apply elem_of_list_to_set in Hin.
Qed.

(** X13.  An empty salt string is concatenated like any other salt, and the
    result is that of a call without salt. *)
Theorem hash_q_gram_set_empty_salt (hf : string -> Z) (len k : Z)
    (get_pos : bool) (self : RandomHashing) (q_gram_set : list string) g :
  RandomHashing_init hf len k get_pos = Ok self ->
  hash_q_gram_set R self q_gram_set (Some "") g
  = hash_q_gram_set R self q_gram_set None g.
Proof.
  intros Hinit.
  rewrite !(hash_q_gram_set_run R randint_ok hf len k get_pos) by done.
  assert (forall q, salted (Some "") q = salted None q) as Hsalt
    by apply string_append_empty.
  assert (map (fun q => key_positions R self (salted (Some "") q)) q_gram_set
          = map (fun q => key_positions R self (salted None q)) q_gram_set)
    as Hpos.
  { apply map_ext. intros q. by rewrite Hsalt. }
  assert (forall d, hashed_dict R self (Some "") q_gram_set d
                    = hashed_dict R self None q_gram_set d) as Hdict.
  { unfold hashed_dict. induction q_gram_set as [|q qs IH]; intros d; [done|].
    cbn [foldl]. rewrite Hsalt. apply IH.
    by injection Hpos. }
  assert (forall g0, state_after R self (Some "") q_gram_set g0
                     = state_after R self None q_gram_set g0) as Hstate.
  { unfold state_after. clear Hpos Hdict.
    induction q_gram_set as [|q qs IH]; intros g0; [done|].
    cbn [foldl]. rewrite Hsalt. apply IH. }
  unfold hashed_bits. rewrite Hpos, Hdict, Hstate. done.
Qed.
End HashingExtraClaims.

(** The encoder used on concrete inputs: 20 bits, 3 positions per q-gram. *)

(** X5 at a concrete input. *)
Lemma hash_q_gram_set_length_witness :
  let self := {| hash_funct := radix_hash; bf_len := 20; num_hash_funct := 3;
                 get_q_gram_pos := false |} in
  randint_in_range Tape.R /\
  RandomHashing_init radix_hash 20 3 false = Ok self /\
  exists bf d g',
    hash_q_gram_set Tape.R self ["he"; "el"; "ll"; "lo"] None [] = Ok ((bf, d), g')
    /\ Z.of_nat (length bf) = 20%Z.
Proof.
  intros self. split; [exact TapeFacts.randint_range|]. split; [reflexivity|].
  apply (hash_q_gram_set_length Tape.R TapeFacts.randint_range
           radix_hash 20 3 false self _ None [] eq_refl).
Defined.

(** X6 at a concrete input. *)
Lemma hash_q_gram_set_zero_iff_empty_witness :
  let self := {| hash_funct := radix_hash; bf_len := 20; num_hash_funct := 3;
                 get_q_gram_pos := false |} in
  randint_in_range Tape.R /\
  RandomHashing_init radix_hash 20 3 false = Ok self /\
  exists bf d,
    eval (hash_q_gram_set Tape.R self ["he"] None) [] = Ok (bf, d)
    /\ (popcount bf = 0 <-> ["he"] = []).
Proof.
  intros self. split; [exact TapeFacts.randint_range|]. split; [reflexivity|].
  apply (hash_q_gram_set_zero_iff_empty Tape.R TapeFacts.randint_range
           radix_hash 20 3 false self ["he"] None [] eq_refl).
Defined.

(** X7 at a concrete input: a repeated q-gram and another order. *)
Lemma hash_q_gram_set_same_elements_witness :
  let self := {| hash_funct := radix_hash; bf_len := 20; num_hash_funct := 3;
                 get_q_gram_pos := true |} in
  randint_in_range Tape.R /\
  RandomHashing_init radix_hash 20 3 true = Ok self /\
  (forall q, q ∈ ["he"; "el"; "he"] <-> q ∈ ["el"; "he"]) /\
  eval (hash_q_gram_set Tape.R self ["he"; "el"; "he"] None) []
  = eval (hash_q_gram_set Tape.R self ["el"; "he"] None) (Tape.seed 4).
Proof.
  intros self.
  assert (forall q, q ∈ ["he"; "el"; "he"] <-> q ∈ ["el"; "he"]) as Hsame.
  { intros q. rewrite !elem_of_cons, !elem_of_nil. tauto. }
  split; [exact TapeFacts.randint_range|]. split; [reflexivity|].
  split; [exact Hsame|].
  apply (hash_q_gram_set_same_elements Tape.R TapeFacts.randint_range
           radix_hash 20 3 true self _ _ None [] (Tape.seed 4) eq_refl Hsame).
Defined.

(** X8 at a concrete input. *)
Lemma hash_q_gram_set_union_witness :
  let self := {| hash_funct := radix_hash; bf_len := 20; num_hash_funct := 3;
                 get_q_gram_pos := false |} in
  randint_in_range Tape.R /\
  RandomHashing_init radix_hash 20 3 false = Ok self /\
  (forall q, q ∈ ["he"; "el"; "ll"] <-> q ∈ ["he"; "el"] \/ q ∈ ["el"; "ll"]) /\
  exists bf1 bf2 d1 d2 d,
    eval (hash_q_gram_set Tape.R self ["he"; "el"] None) [] = Ok (bf1, d1)
    /\ eval (hash_q_gram_set Tape.R self ["el"; "ll"] None) [] = Ok (bf2, d2)
    /\ eval (hash_q_gram_set Tape.R self ["he"; "el"; "ll"] None) []
       = Ok (zip_with orb bf1 bf2, d).
Proof.
  intros self.
  assert (forall q, q ∈ ["he"; "el"; "ll"] <-> q ∈ ["he"; "el"] \/ q ∈ ["el"; "ll"])
    as Hunion.
  { intros q. rewrite !elem_of_cons, !elem_of_nil. tauto. }
  split; [exact TapeFacts.randint_range|]. split; [reflexivity|].
  split; [exact Hunion|].
  apply (hash_q_gram_set_union Tape.R TapeFacts.randint_range
           radix_hash 20 3 false self _ _ _ None [] [] [] eq_refl Hunion).
Defined.

(** X9 at a concrete input. *)
Lemma hash_q_gram_set_monotone_witness :
  let self := {| hash_funct := radix_hash; bf_len := 20; num_hash_funct := 3;
                 get_q_gram_pos := false |} in
  randint_in_range Tape.R /\
  RandomHashing_init radix_hash 20 3 false = Ok self /\
  (forall q, q ∈ ["el"] -> q ∈ ["he"; "el"; "ll"]) /\
  exists bf bf' d d',
    eval (hash_q_gram_set Tape.R self ["el"] None) [] = Ok (bf, d)
    /\ eval (hash_q_gram_set Tape.R self ["he"; "el"; "ll"] None) [] = Ok (bf', d')
    /\ forall i, bf !! i = Some true -> bf' !! i = Some true.
Proof.
  intros self.
  assert (forall q, q ∈ ["el"] -> q ∈ ["he"; "el"; "ll"]) as Hsub.
  { intros q. rewrite !elem_of_cons, !elem_of_nil. tauto. }
  split; [exact TapeFacts.randint_range|]. split; [reflexivity|].
  split; [exact Hsub|].
  apply (hash_q_gram_set_monotone Tape.R TapeFacts.randint_range
           radix_hash 20 3 false self _ _ None [] [] eq_refl Hsub).
Defined.

(** X10 at a concrete input. *)
Lemma hash_q_gram_set_generator_state_witness :
  let self := {| hash_funct := radix_hash; bf_len := 20; num_hash_funct := 3;
                 get_q_gram_pos := false |} in
  let g : rnd_state Tape.R := [7; 8; 9]%Z in
  randint_in_range Tape.R /\
  RandomHashing_init radix_hash 20 3 false = Ok self /\
  (exists out, hash_q_gram_set Tape.R self [] None g = Ok (out, g)) /\
  (exists out,
     hash_q_gram_set Tape.R self (["he"; "el"] ++ ["ll"]) None g
     = Ok (out,
           snd (randint_draws Tape.R (Z.to_nat 3) 0 (20 - 1)
                  (rnd_seed Tape.R (radix_hash (salted None "ll")))))).
Proof.
  intros self g. split; [exact TapeFacts.randint_range|]. split; [reflexivity|].
  apply (hash_q_gram_set_generator_state Tape.R TapeFacts.randint_range
           radix_hash 20 3 false self ["he"; "el"] "ll" None g eq_refl).
Defined.

(** X11 at a concrete input. *)
Lemma hash_q_gram_set_positions_witness :
  let self := {| hash_funct := radix_hash; bf_len := 20; num_hash_funct := 3;
                 get_q_gram_pos := true |} in
  randint_in_range Tape.R /\
  RandomHashing_init radix_hash 20 3 true = Ok self /\
  exists bf d,
    eval (hash_q_gram_set Tape.R self ["he"; "el"] (Some "s")) [] = Ok (bf, Some d)
    /\ (forall key, is_Some (d !! key)
                    <-> exists q, q ∈ ["he"; "el"] /\ key = salted (Some "s") q)
    /\ (forall key (ps : gset Z), d !! key = Some ps ->
          ps <> ∅
          /\ Z.of_nat (size ps) <= 3
          /\ forall pos, pos ∈ ps -> 0 <= pos < 20)%Z.
Proof.
  intros self. split; [exact TapeFacts.randint_range|]. split; [reflexivity|].
  apply (hash_q_gram_set_positions Tape.R TapeFacts.randint_range
           radix_hash 20 3 self ["he"; "el"] (Some "s") [] eq_refl).
Defined.

(** X12 at a concrete input. *)
Lemma hash_q_gram_set_bits_are_positions_witness :
  let self := {| hash_funct := radix_hash; bf_len := 20; num_hash_funct := 3;
                 get_q_gram_pos := true |} in
  randint_in_range Tape.R /\
  RandomHashing_init radix_hash 20 3 true = Ok self /\
  exists bf d,
    eval (hash_q_gram_set Tape.R self ["he"; "el"] None) [] = Ok (bf, Some d)
    /\ forall i : nat,
         bf !! i = Some true
         <-> exists key (ps : gset Z), d !! key = Some ps /\ Z.of_nat i ∈ ps.
Proof.
  intros self. split; [exact TapeFacts.randint_range|]. split; [reflexivity|].
  apply (hash_q_gram_set_bits_are_positions Tape.R TapeFacts.randint_range
           radix_hash 20 3 self ["he"; "el"] None [] eq_refl).
Defined.

(** X13 at a concrete input. *)
Lemma hash_q_gram_set_empty_salt_witness :
  let self := {| hash_funct := radix_hash; bf_len := 20; num_hash_funct := 3;
                 get_q_gram_pos := true |} in
  randint_in_range Tape.R /\
  RandomHashing_init radix_hash 20 3 true = Ok self /\
  hash_q_gram_set Tape.R self ["he"; "el"] (Some "") []
  = hash_q_gram_set Tape.R self ["he"; "el"] None [].
Proof.
  intros self. split; [exact TapeFacts.randint_range|]. split; [reflexivity|].
  apply (hash_q_gram_set_empty_salt Tape.R TapeFacts.randint_range
           radix_hash 20 3 true self ["he"; "el"] [] eq_refl).
Defined.


(** ** Encoding a data dictionary *)

Section EncodeExtras.
Context (R : RandomModule).
Hypothesis randint_ok : randint_in_range R.

Lemma map_dict_nil {V : Type} (body : string -> V -> M R V) g :
  map_dict R body [] g = Ok ([], g).
Proof. reflexivity. Qed.

Lemma map_dict_cons {V : Type} (body : string -> V -> M R V)
    (k : string) (v : V) (d : dict V) g :
  map_dict R body ((k, v) :: d) g
  = match body k v g with
    | Ok (v', g1) =>
        match map_dict R body d g1 with
        | Ok (d', g2) => Ok ((k, v') :: d', g2)
        | Raise e => Raise e
        end
    | Raise e => Raise e
    end.
Proof.
  cbn [map_dict]. unfold mbind, M_bind, bind.
  destruct (body k v g) as [[v' g1]|e]; [|done].
  by destruct (map_dict R body d g1) as [[d' g2]|e].
Qed.

(** If every entry is mapped successfully to a related value, the whole
    dictionary is. *)
Lemma map_dict_related {V : Type} (body : string -> V -> M R V)
    (P : V -> V -> Prop) (d : dict V) g :
  Forall (fun e => forall g0, exists v' g1,
            body (fst e) (snd e) g0 = Ok (v', g1) /\ P (snd e) v') d ->
  exists d' g', map_dict R body d g = Ok (d', g') /\ dict_related P d d'.
Proof.
  intros Hd. revert g. induction Hd as [|[k v] d Hkv _ IH]; intros g.
  - exists [], g. split; [done|constructor].
  - destruct (Hkv g) as (v' & g1 & Hbody & HP). cbn [fst snd] in *.
    destruct (IH g1) as (d' & g' & Hrest & Hrel).
    exists ((k, v') :: d'), g'. split.
    + by rewrite map_dict_cons, Hbody, Hrest.
    + by constructor.
Qed.

(** A failure of an entry, after entries that succeed, is the failure of the
    whole. *)
Lemma map_dict_raise {V : Type} (body : string -> V -> M R V) (e : exn)
    (P : V -> Prop) (d : dict V) g :
  (forall k v g0, P v -> exists r, body k v g0 = Ok r) ->
  (forall k v g0, ~ P v -> body k v g0 = Raise e) ->
  (forall v, Decision (P v)) ->
  Exists (fun kv => ~ P (snd kv)) d ->
  map_dict R body d g = Raise e.
Proof.
  intros Hok Hbad Hdec Hex. revert g.
  induction d as [|[k v] d IH]; intros g; [by apply Exists_nil in Hex|].
  rewrite map_dict_cons. destruct (Hdec v) as [Hv|Hv].
  - destruct (Hok k v g Hv) as [[v' g1] ->].
    apply Exists_cons in Hex as [Hex|Hex]; [done|].
    by rewrite IH.
  - by rewrite Hbad.
Qed.

Lemma encode_rec_run (md5 : string -> Z) (l_b k_val : Z) (RH : RandomHashing)
    (rec_id : string) (rec : rec_data) (qs : list string) g :
  RandomHashing_init md5 l_b k_val false = Ok RH ->
  q_gram_set rec = Some qs ->
  encode_rec R RH rec_id rec g
  = Ok (set_og_bf rec (hashed_bits R RH None qs (replicate (Z.to_nat l_b) false)),
        state_after R RH None qs g).
Proof.
  intros Hinit Hqs. unfold encode_rec. rewrite Hqs. simpl.
  rewrite (bind_run _ _ g qs g) by done.
  by rewrite (bind_run _ _ _ _ _
                (hash_q_gram_set_run R randint_ok md5 l_b k_val false RH qs None g Hinit)).
Qed.

Lemma encode_rec_missing (RH : RandomHashing) (rec_id : string) (rec : rec_data) g :
  q_gram_set rec = None -> encode_rec R RH rec_id rec g = Raise KeyError.
Proof.
  intros Hqs. unfold encode_rec. rewrite Hqs. by rewrite (bind_raise _ _ _ KeyError).
Qed.

Lemma encode_bfs_run (md5 : string -> Z) (data_dict : dict (dict rec_data))
    (l_b k_val : Z) (RH : RandomHashing) g :
  RandomHashing_init md5 l_b k_val false = Ok RH ->
  Forall (fun t => Forall (fun kv => is_Some (q_gram_set (snd kv))) (snd t)) data_dict ->
  exists out g',
    encode_bfs R md5 data_dict l_b k_val g = Ok (out, g')
    /\ dict_related (dict_related (encodes R RH l_b)) data_dict out.
Proof.
  intros Hinit Hdata. unfold encode_bfs. rewrite Hinit.
  rewrite (bind_run _ _ g RH g) by done.
  apply map_dict_related.
  eapply Forall_impl; [exact Hdata|]. intros [rec_type rec_type_dict] Hrecs g0.
  simpl in *. apply map_dict_related.
  eapply Forall_impl; [exact Hrecs|]. intros [rec_id rec] [qs Hqs] g1. simpl in *.
  eexists _, _. split; [by apply (encode_rec_run md5 l_b k_val)|].
  by exists qs.
Qed.
End EncodeExtras.

Section EncodeExtraClaims.
Context (R : RandomModule).
Hypothesis randint_ok : randint_in_range R.

Lemma RandomHashing_init_valid (hf : string -> Z) (len k : Z) (get_pos : bool) :
  (1 < len)%Z -> (0 < k)%Z ->
  RandomHashing_init hf len k get_pos
  = Ok {| hash_funct := hf; bf_len := len; num_hash_funct := k;
          get_q_gram_pos := get_pos |}.
Proof.
  intros HL Hk. unfold RandomHashing_init.
  destruct (Z.ltb_spec 1 len); [|lia]. destruct (Z.ltb_spec 0 k); [|lia]. done.
Qed.

Lemma RandomHashing_init_invalid (hf : string -> Z) (len k : Z) (get_pos : bool) :
  (len <= 1)%Z \/ (k <= 0)%Z ->
  RandomHashing_init hf len k get_pos = Raise AssertionError.
Proof.
  intros Hbad. unfold RandomHashing_init.
  destruct (Z.ltb_spec 1 len); [|done]. destruct (Z.ltb_spec 0 k); [lia|done].
Qed.

Lemma hashed_bits_same_elements (self : RandomHashing) (salt_str : option string)
    (qs qs' : list string) :
  (1 < bf_len self)%Z ->
  (forall q, q ∈ qs <-> q ∈ qs') ->
  hashed_bits R self salt_str qs (replicate (Z.to_nat (bf_len self)) false)
  = hashed_bits R self salt_str qs' (replicate (Z.to_nat (bf_len self)) false).
Proof.
  intros HL Hsame. apply bool_list_eq; [by rewrite !length_hashed_bits|].
  intros i. rewrite !(hashed_bits_lookup R randint_ok self) by done.
  split; intros (q & Hq & Hin); exists q; (split; [by apply Hsame|done]).
Qed.

(** A data dictionary with a record that lacks its q-gram set is not encoded. *)
Lemma encode_bfs_missing (md5 : string -> Z) (data_dict : dict (dict rec_data))
    (l_b k_val : Z) g :
  (1 < l_b)%Z -> (0 < k_val)%Z ->
  ~ Forall (fun t => Forall (fun kv => is_Some (q_gram_set (snd kv))) (snd t)) data_dict ->
  encode_bfs R md5 data_dict l_b k_val g = Raise KeyError.
Proof.
  intros HL Hk Hmissing. unfold encode_bfs.
  pose proof (RandomHashing_init_valid md5 l_b k_val false HL Hk) as Hinit.
  rewrite Hinit.
  set (RH := {| hash_funct := md5; bf_len := l_b; num_hash_funct := k_val;
                get_q_gram_pos := false |}) in *.
  rewrite (bind_run _ _ g RH g) by done.
  apply (map_dict_raise R _ KeyError
           (fun d => Forall (fun kv => is_Some (q_gram_set (snd kv))) d)).
  - intros rec_type d g0 Hd.
    destruct (map_dict_related R (encode_rec R RH) (encodes R RH l_b) d g0)
      as (d' & g1 & Hrun & _).
    + eapply Forall_impl; [exact Hd|]. intros [rec_id rec] [qs Hqs] g1. simpl in *.
      eexists _, _. split; [by apply (encode_rec_run R randint_ok md5 l_b k_val)|].
      by exists qs.
    + by eexists.
  - intros rec_type d g0 Hd.
    apply (map_dict_raise R _ KeyError (fun r => is_Some (q_gram_set r))).
    + intros rec_id rec g1 [qs Hqs]. eexists.
      by apply (encode_rec_run R randint_ok md5 l_b k_val).
    + intros rec_id rec g1 Hnone. apply encode_rec_missing.
      destruct (q_gram_set rec); [|done]. exfalso. apply Hnone. by eexists.
    + intros r. apply _.
    + by apply not_Forall_Exists in Hd; [|intros kv; apply _].
  - intros d. apply _.
  - by apply not_Forall_Exists in Hmissing; [|intros t; apply _].
Qed.

(** X14.  For [l_b > 1] and [k_val > 0], and records that all carry a
    q-gram set, [encode_bfs] succeeds and returns the data dictionary with
    the same record types and identifiers in the same order; each record
    keeps its q-gram set (and hardened vector, if any) and has an original
    Bloom filter of exactly [l_b] bits. *)
Theorem encode_bfs_encodes (md5 : string -> Z) (data_dict : dict (dict rec_data))
    (l_b k_val : Z) g :
  (1 < l_b)%Z -> (0 < k_val)%Z ->
  Forall (fun t => Forall (fun kv => is_Some (q_gram_set (snd kv))) (snd t)) data_dict ->
  exists out g',
    encode_bfs R md5 data_dict l_b k_val g = Ok (out, g')
    /\ dict_related (dict_related (encoded_as l_b)) data_dict out.
Proof.
  intros HL Hk Hdata.
  pose proof (RandomHashing_init_valid md5 l_b k_val false HL Hk) as Hinit.
  destruct (encode_bfs_run R randint_ok md5 data_dict l_b k_val _ g Hinit Hdata)
    as (out & g' & Hrun & Hrel).
  exists out, g'. split; [done|].
  eapply Forall2_impl; [exact Hrel|]. intros [t d] [t' d'] [Ht Hd]. split; [done|].
  eapply Forall2_impl; [exact Hd|]. intros [id r] [id' r'] [Hid (qs & Hqs & Hr')].
  split; [done|]. simpl in *. subst r'. repeat split.
  eexists. split; [done|]. rewrite length_hashed_bits, length_replicate. lia.
Qed.

(** X15.  [encode_bfs] rejects a filter length of at most 1 and a hash count
    of at most 0 with an assertion failure, before any record is touched;
    with valid parameters, a record without a q-gram set makes it fail with a
    [KeyError]. *)
Theorem encode_bfs_errors (md5 : string -> Z) (data_dict : dict (dict rec_data))
    (l_b k_val : Z) g :
  ((l_b <= 1)%Z \/ (k_val <= 0)%Z ->
     encode_bfs R md5 data_dict l_b k_val g = Raise AssertionError)
  /\ ((1 < l_b)%Z -> (0 < k_val)%Z ->
      Exists (fun t => Exists (fun kv => q_gram_set (snd kv) = None) (snd t)) data_dict ->
      encode_bfs R md5 data_dict l_b k_val g = Raise KeyError).
Proof.
  split.
  - intros Hbad. unfold encode_bfs.
    rewrite (RandomHashing_init_invalid md5 l_b k_val false Hbad).
    by rewrite (bind_raise _ _ _ AssertionError).
  - intros HL Hk Hex. apply encode_bfs_missing; [done..|].
    intros Hall. apply Exists_exists in Hex as (t & Ht & Hex).
    apply Exists_exists in Hex as (kv & Hkv & Hnone).
    rewrite Forall_forall in Hall. specialize (Hall t Ht).
    rewrite Forall_forall in Hall. specialize (Hall kv Hkv).
    rewrite Hnone in Hall. by destruct Hall.
Qed.

(** X16.  After [encode_bfs], two records whose q-gram sets have the same
    elements, whichever record types they belong to, carry the same original
    Bloom filter. *)
Theorem encode_bfs_equal_sets (md5 : string -> Z) (data_dict out : dict (dict rec_data))
    (l_b k_val : Z) g g'
    (t1 t2 id1 id2 : string) (d1 d2 : dict rec_data) (r1 r2 : rec_data)
    (qs1 qs2 : list string) :
  encode_bfs R md5 data_dict l_b k_val g = Ok (out, g') ->
  (t1, d1) ∈ out -> (id1, r1) ∈ d1 ->
  (t2, d2) ∈ out -> (id2, r2) ∈ d2 ->
  q_gram_set r1 = Some qs1 -> q_gram_set r2 = Some qs2 ->
  (forall q, q ∈ qs1 <-> q ∈ qs2) ->
  og_bf r1 = og_bf r2.
Proof.
  intros Hrun Ht1 Hr1 Ht2 Hr2 Hq1 Hq2 Hsame.
  destruct (Z.ltb_spec 1 l_b) as [HL|HL]; last first.
  { unfold encode_bfs in Hrun.
    rewrite (RandomHashing_init_invalid md5 l_b k_val false) in Hrun by lia.
    by rewrite (bind_raise _ _ _ AssertionError) in Hrun. }
  destruct (Z.ltb_spec 0 k_val) as [Hk|Hk]; last first.
  { unfold encode_bfs in Hrun.
    rewrite (RandomHashing_init_invalid md5 l_b k_val false) in Hrun by lia.
    by rewrite (bind_raise _ _ _ AssertionError) in Hrun. }
  destruct (decide (Forall (fun t => Forall (fun kv => is_Some (q_gram_set (snd kv)))
                                       (snd t)) data_dict)) as [Hdata|Hmissing];
    last first.
  { by rewrite encode_bfs_missing in Hrun. }
  pose proof (RandomHashing_init_valid md5 l_b k_val false HL Hk) as Hinit.
  destruct (encode_bfs_run R randint_ok md5 data_dict l_b k_val _ g Hinit Hdata)
    as (out' & g'' & Hrun' & Hrel).
  rewrite Hrun in Hrun'. injection Hrun' as <- <-.
  assert (forall t d id r qs,
            (t, d) ∈ out -> (id, r) ∈ d -> q_gram_set r = Some qs ->
            og_bf r = Some (hashed_bits R
                              {| hash_funct := md5; bf_len := l_b;
                                 num_hash_funct := k_val; get_q_gram_pos := false |}
                              None qs (replicate (Z.to_nat l_b) false))) as Hog.
  { intros t d id r qs Ht Hr Hq.
    apply list_elem_of_lookup in Ht as [i Hi].
    destruct (Forall2_lookup_r _ _ _ _ _ Hrel Hi) as ([t0 d0] & _ & _ & Hd).
    apply list_elem_of_lookup in Hr as [j Hj]. simpl in Hd.
    destruct (Forall2_lookup_r _ _ _ _ _ Hd Hj) as ([id0 r0] & _ & _ & (qs0 & Hq0 & Hr)).
    simpl in *. subst r. simpl in *. rewrite Hq0 in Hq. by injection Hq as ->. }
  rewrite (Hog _ _ _ _ _ Ht1 Hr1 Hq1), (Hog _ _ _ _ _ Ht2 Hr2 Hq2). f_equal.
  by apply (hashed_bits_same_elements
              {| hash_funct := md5; bf_len := l_b; num_hash_funct := k_val;
                 get_q_gram_pos := false |}).
Qed.
End EncodeExtraClaims.

(** X14 at a concrete input: two record types, three records. *)
Lemma encode_bfs_encodes_witness :
  let raw := fun qs => {| q_gram_set := Some qs; og_bf := None; hd_bf := None |} in
  let data := [("r1", [("s1", raw ["he"; "el"]); ("s2", raw ["lo"])]);
               ("b", [("b1", raw ["he"; "ll"])])] in
  randint_in_range Tape.R /\
  (1 < 20)%Z /\ (0 < 3)%Z /\
  Forall (fun t => Forall (fun kv => is_Some (q_gram_set (snd kv))) (snd t)) data /\
  exists out g',
    encode_bfs Tape.R radix_hash data 20 3 [] = Ok (out, g')
    /\ dict_related (dict_related (encoded_as 20)) data out.
Proof.
  intros raw data.
  assert (Forall (fun t => Forall (fun kv => is_Some (q_gram_set (snd kv))) (snd t))
            data) as Hdata.
  { repeat constructor; by eexists. }
  split; [exact TapeFacts.randint_range|]. split; [lia|]. split; [lia|].
  split; [exact Hdata|].
  apply (encode_bfs_encodes Tape.R TapeFacts.randint_range radix_hash data 20 3 []
           ltac:(lia) ltac:(lia) Hdata).
Defined.

(** X15 at concrete inputs: a hash count of 0, and a record without q-grams. *)
Lemma encode_bfs_errors_witness :
  let raw := fun qs => {| q_gram_set := Some qs; og_bf := None; hd_bf := None |} in
  let bad := {| q_gram_set := None; og_bf := None; hd_bf := None |} in
  let data := [("r1", [("s1", raw ["he"; "el"]); ("s2", bad)])] in
  randint_in_range Tape.R /\
  encode_bfs Tape.R radix_hash data 20 0 [] = Raise AssertionError /\
  encode_bfs Tape.R radix_hash data 20 3 [] = Raise KeyError.
Proof.
  intros raw bad data.
  destruct (encode_bfs_errors Tape.R TapeFacts.randint_range radix_hash data 20 0 [])
    as [Hparams _].
  destruct (encode_bfs_errors Tape.R TapeFacts.randint_range radix_hash data 20 3 [])
    as [_ Hmissing].
  split; [exact TapeFacts.randint_range|]. split.
  - apply Hparams. right. lia.
  - apply Hmissing; [lia|lia|].
    apply Exists_cons_hd. apply Exists_cons_tl, Exists_cons_hd. reflexivity.
Defined.

(** X16 at a concrete input: the same q-grams listed in two orders, in two
    record types. *)
Lemma encode_bfs_equal_sets_witness :
  let raw := fun qs => {| q_gram_set := Some qs; og_bf := None; hd_bf := None |} in
  let data := [("r1", [("s1", raw ["he"; "el"])]);
               ("b", [("b1", raw ["el"; "he"])])] in
  randint_in_range Tape.R /\
  exists out g' d1 d2 r1 r2,
    encode_bfs Tape.R radix_hash data 20 3 [] = Ok (out, g')
    /\ ("r1", d1) ∈ out /\ ("s1", r1) ∈ d1
    /\ ("b", d2) ∈ out /\ ("b1", r2) ∈ d2
    /\ q_gram_set r1 = Some ["he"; "el"] /\ q_gram_set r2 = Some ["el"; "he"]
    /\ (forall q, q ∈ ["he"; "el"] <-> q ∈ ["el"; "he"])
    /\ og_bf r1 = og_bf r2.
Proof.
  intros raw data. split; [exact TapeFacts.randint_range|].
  assert (exists r, encode_bfs Tape.R radix_hash data 20 3 [] = Ok r)
    as [[out g'] Hrun].
  { eexists. vm_compute. reflexivity. }
  assert (forall q, q ∈ ["he"; "el"] <-> q ∈ ["el"; "he"]) as Hsame.
  { intros q. rewrite !elem_of_cons, !elem_of_nil. tauto. }
  pose proof Hrun as Hrun'. vm_compute in Hrun'. injection Hrun' as <- <-.
  eexists _, _, _, _, _, _.
  split; [exact Hrun|].
  split; [apply list_elem_of_here|]. split; [apply list_elem_of_here|].
  split; [apply list_elem_of_further, list_elem_of_here|].
  split; [apply list_elem_of_here|].
  split; [reflexivity|]. split; [reflexivity|]. split; [exact Hsame|].
  apply (encode_bfs_equal_sets Tape.R TapeFacts.randint_range radix_hash data _
           20 3 [] _ "r1" "b" "s1" "b1" _ _ _ _ ["he"; "el"] ["el"; "he"]
           Hrun (list_elem_of_here _ _) (list_elem_of_here _ _)
           (list_elem_of_further _ _ _ (list_elem_of_here _ _))
           (list_elem_of_here _ _) eq_refl eq_refl Hsame).
Defined.

(** ** How the comparison of a subset fails, and what success requires *)

Section CompareFailures.
Context (R : RandomModule).

Lemma bind_Raise {A B} (m : M R A) (k : A -> M R B) g e :
  (m ≫= k) g = Raise e ->
  m g = Raise e \/ exists a g1, m g = Ok (a, g1) /\ k a g1 = Raise e.
Proof.
  unfold mbind, M_bind, bind. destruct (m g) as [[a g1]|e']; [|intros [= ->]; by left].
  intros Hk. right. by exists a, g1.
Qed.

Lemma assert_Raise (c : bool) g e :
  assert (R:=R) c g = Raise e -> e = AssertionError.
Proof. destruct c; [done|]. by intros [= <-]. Qed.

Lemma assert_run (c : bool) g r :
  assert (R:=R) c g = Ok r -> c = true /\ r = (tt, g).
Proof. destruct c; [|done]. by intros [= <-]. Qed.

Lemma BLIP_init_Raise (sel : string) (prob : Q) (rseed : option Z) (e : exn) :
  BLIP_init sel prob rseed = Raise e -> e = AssertionError.
Proof.
  unfold BLIP_init.
  destruct (negb (String.eqb sel "ala" || String.eqb sel "sch"));
    [by intros [= <-]|].
  destruct (negb (Qle_bool 0 prob && Qle_bool prob 1)); [by intros [= <-]|done].
Qed.

(** What a hardening pass that succeeds has done: every record had an
    original vector and got a hardened one, and nothing else changed. *)
Lemma harden_records_Ok (hd_instance : BLIP) (d d' : dict rec_data) g g' :
  harden_records R hd_instance d g = Ok (d', g') ->
  Forall2 (fun kv kv' => fst kv' = fst kv /\ is_Some (og_bf (snd kv))
                         /\ exists hd, snd kv' = set_hd_bf (snd kv) hd) d d'.
Proof.
  revert d' g g'. induction d as [|[rec_id rec] d IH]; intros d' g g' Hrun.
  - simpl in Hrun. apply ret_Ok in Hrun. injection Hrun as -> _. constructor.
  - cbn [harden_records] in Hrun.
    apply bind_Ok in Hrun as (u1 & g1 & Hassert & Hrun).
    apply assert_run in Hassert as [Hog _].
    apply bind_Ok in Hrun as (og & g2 & _ & Hrun).
    apply bind_Ok in Hrun as (hd & g3 & _ & Hrun).
    apply bind_Ok in Hrun as (d'' & g4 & Hrest & Hrun).
    apply ret_Ok in Hrun. injection Hrun as -> _.
    constructor; [|by eapply IH]. simpl. split; [done|]. split.
    + by destruct (og_bf rec).
    + by exists hd.
Qed.

Lemma harden_records_Raise (hd_instance : BLIP) (d : dict rec_data) g e :
  harden_records R hd_instance d g = Raise e -> e = AssertionError.
Proof.
  revert g. induction d as [|[rec_id rec] d IH]; intros g Hrun; [done|].
  cbn [harden_records] in Hrun.
  apply bind_Raise in Hrun as [Hrun|(u1 & g1 & Hassert & Hrun)];
    [by apply assert_Raise in Hrun|].
  apply assert_run in Hassert as [Hog [= -> ->]].
  destruct (og_bf rec) as [og|]; [|done]. simpl in Hrun.
  rewrite (bind_run _ _ g og g) in Hrun by done.
  pose proof (harden_bf_bits R hd_instance og g) as Hbf.
  destruct (harden_bits R hd_instance og g) as [hd g2].
  rewrite (bind_run _ _ _ _ _ Hbf) in Hrun.
  apply bind_Raise in Hrun as [Hrun|(d'' & g3 & _ & Hrun)]; [by eapply IH|done].
Qed.

(** [max] is the only step of the counting that can fail, and only on an
    empty similarity dictionary. *)
Lemma tally_Raise (rec_id : string) (sim_data : dict Q) (c : sim_counters) (e : exn) :
  tally rec_id sim_data c = Raise e -> sim_data = [].
Proof.
  intros Htally. destruct sim_data as [|kv sim_data]; [done|]. exfalso.
  destruct (py_max_spec (values (kv :: sim_data))) as (m & Hmax & _); [done|].
  by rewrite (tally_outcome _ _ _ m Hmax) in Htally.
Qed.

Lemma dict_set_nonempty {V : Type} (k : string) (v : V) (d : dict V) :
  dict_set k v d <> [].
Proof. destruct d as [|[k' v'] d]; simpl; [done|]. by destruct (String.eqb k' k). Qed.

Lemma for_each_compare_pair_inv (rec : rec_data) (pool : dict rec_data)
    (sims : dict Q * dict Q) g :
  is_Some (og_bf rec) -> is_Some (hd_bf rec) ->
  match for_each pool (compare_pair R rec) sims g with
  | Ok ((og_sim, blip_sim), _) =>
      Forall (fun comp => complete_rec (snd comp)) pool
      /\ ((pool <> [] \/ fst sims <> []) -> og_sim <> [])
      /\ ((pool <> [] \/ snd sims <> []) -> blip_sim <> [])
  | Raise e => e = AssertionError
  end.
Proof.
  intros [rog Hrog] [rhd Hrhd]. revert sims g.
  induction pool as [|[comp_id comp] pool IH]; intros [og_sim blip_sim] g.
  - simpl. split; [constructor|]. split; intros [?|?]; done.
  - rewrite for_each_cons. unfold compare_pair at 1. cbv beta iota.
    destruct (q_gram_set comp) as [cq|] eqn:Hcq; [|done].
    destruct (og_bf comp) as [cog|] eqn:Hcog; [|done].
    destruct (hd_bf comp) as [chd|] eqn:Hchd; [|done].
    rewrite Hrog, Hrhd. simpl.
    specialize (IH (dict_set comp_id (bit_array_dice_sim rog cog) og_sim,
                    dict_set comp_id (bit_array_dice_sim rhd chd) blip_sim) g).
    destruct (for_each pool (compare_pair R rec) _ g) as [[[og' bl'] g']|e]; [|done].
    destruct IH as (Hpool & Hog & Hbl). split; [|split].
    + constructor; [|done]. unfold complete_rec. simpl.
      rewrite Hcq, Hcog, Hchd. repeat split; by eexists.
    + intros _. apply Hog. right. apply dict_set_nonempty.
    + intros _. apply Hbl. right. apply dict_set_nonempty.
Qed.

Lemma compare_query_inv (pool : dict rec_data) (query : string * rec_data)
    (res : type_counters) g :
  pool <> [] ->
  match compare_query R pool query res g with
  | Ok _ => complete_rec (snd query) /\ Forall (fun comp => complete_rec (snd comp)) pool
  | Raise e => e = AssertionError
  end.
Proof.
  intros Hne. destruct query as [rec_id rec]. unfold compare_query.
  destruct (q_gram_set rec) as [rq|] eqn:Hrq; [|done].
  destruct (og_bf rec) as [rog|] eqn:Hrog; [|done].
  destruct (hd_bf rec) as [rhd|] eqn:Hrhd; [|done].
  simpl. rewrite !(bind_run _ _ g tt g) by done.
  pose proof (for_each_compare_pair_inv rec pool ([], []) g) as Hloop.
  rewrite Hrog, Hrhd in Hloop. specialize (Hloop ltac:(by eexists) ltac:(by eexists)).
  destruct (for_each pool (compare_pair R rec) ([], []) g)
    as [[[og_sim blip_sim] g1]|e] eqn:Hfor.
  - rewrite (bind_run _ _ _ _ _ Hfor). destruct Hloop as (Hpool & Hog & Hbl).
    destruct (tally rec_id og_sim (og_bf_dice res)) as [og|e] eqn:Htog.
    + rewrite (bind_run _ _ g1 og g1) by done.
      destruct (tally rec_id blip_sim (blip_bf_dice res)) as [bl|e] eqn:Htbl.
      * rewrite (bind_run _ _ g1 bl g1) by done. simpl.
        split; [|done]. unfold complete_rec.
        rewrite Hrq, Hrog, Hrhd. repeat split; by eexists.
      * apply tally_Raise in Htbl. exfalso. apply Hbl; [by left|done].
    + apply tally_Raise in Htog. exfalso. apply Hog; [by left|done].
  - by rewrite (bind_raise _ _ _ _ Hfor).
Qed.

Lemma for_each_compare_query_inv (pool queries : dict rec_data)
    (res : type_counters) g :
  pool <> [] ->
  match for_each queries (compare_query R pool) res g with
  | Ok _ => Forall (fun q => complete_rec (snd q)) queries
  | Raise e => e = AssertionError
  end.
Proof.
  intros Hne. revert res g.
  induction queries as [|q queries IH]; intros res g; [by constructor|].
  rewrite for_each_cons.
  pose proof (compare_query_inv pool q res g Hne) as Hq.
  destruct (compare_query R pool q res g) as [[res1 g1]|e]; [|done].
  specialize (IH res1 g1).
  destruct (for_each queries (compare_query R pool) res1 g1); [|done].
  constructor; [by destruct Hq|done].
Qed.

Lemma build_pool_Raise (base_records rec_type_dict : dict rec_data)
    (sel : string) (prob : Q) g e :
  build_pool R base_records sel prob rec_type_dict g = Raise e ->
  e = AssertionError.
Proof.
  unfold build_pool. intros Hrun.
  apply bind_Raise in Hrun as [Hrun|(l & g1 & _ & Hrun)]; [done|].
  apply bind_Raise in Hrun as [Hrun|(hd1 & g2 & _ & Hrun)].
  { unfold lift in Hrun. destruct (BLIP_init sel prob (Some 42%Z)) eqn:Hinit; [done|].
    injection Hrun as <-. by eapply BLIP_init_Raise. }
  apply bind_Raise in Hrun as [Hrun|(h & g3 & _ & Hrun)];
    [by eapply harden_records_Raise|].
  apply bind_Raise in Hrun as [Hrun|(hd2 & g4 & _ & Hrun)].
  { unfold lift in Hrun. destruct (BLIP_init sel prob (Some 42%Z)) eqn:Hinit; [done|].
    injection Hrun as <-. by eapply BLIP_init_Raise. }
  apply bind_Raise in Hrun as [Hrun|(p & g5 & _ & Hrun)];
    [by eapply harden_records_Raise|done].
Qed.

Lemma compare_rec_type_Raise
    (base_records rec_type_dict : dict rec_data) (sel : string) (prob : Q)
    (base_sample_size : Z) (rec_type : string) (res_dict : dict type_counters)
    g (e : exn) :
  compare_rec_type R base_records sel prob base_sample_size rec_type
    rec_type_dict res_dict g = Raise e ->
  e = AssertionError.
Proof.
  unfold compare_rec_type. intros Hrun.
  apply bind_Raise in Hrun as [Hrun|(_ & g1 & _ & Hrun)];
    [by apply assert_Raise in Hrun|].
  apply bind_Raise in Hrun as [Hrun|([hardened pool] & g2 & Hpool & Hrun)];
    [by eapply build_pool_Raise|].
  apply bind_Raise in Hrun as [Hrun|(u3 & g3 & Hsize & Hrun)];
    [by apply assert_Raise in Hrun|].
  apply assert_run in Hsize as [Hsize _].
  apply bind_Raise in Hrun as [Hrun|(res & g4 & _ & Hrun)]; [|done].
  destruct hardened as [|q hardened]; [done|].
  assert (pool <> []) as Hne.
  { intros ->. apply pool_size_ok_spec in Hsize as [Hsize _].
    simpl in Hsize. lia. }
  pose proof (for_each_compare_query_inv pool (q :: hardened)
                {| og_bf_dice := zero_counters; blip_bf_dice := zero_counters |}
                g3 Hne) as Hloop.
  by rewrite Hrun in Hloop.
Qed.

(** X18.  Processing a subset fails in one way only: whatever the inputs,
    an exception raised by [compare_rec_type] is an [AssertionError]; it
    never fails with a [KeyError], an [IndexError], or the [ValueError] of
    [max] on an empty sequence. *)
Theorem compare_rec_type_raises_only_assertions
    (base_records rec_type_dict : dict rec_data) (sel : string) (prob : Q)
    (base_sample_size : Z) (rec_type : string) (res_dict : dict type_counters)
    g (e : exn) :
  compare_rec_type R base_records sel prob base_sample_size rec_type
    rec_type_dict res_dict g = Raise e ->
  e = AssertionError.
Proof. apply compare_rec_type_Raise. Qed.

(** X19.  What a successful run has checked: if [compare_rec_type] returns,
    then the record type is one of the fixed types and had no entry yet, the
    hardening parameters are valid, every record of the subset has a q-gram
    set and an original Bloom filter, and |S| + |B| is
    [base_sample_size + 1000]. *)
Theorem compare_rec_type_success_requires
    (base_records rec_type_dict : dict rec_data) (sel : string) (prob : Q)
    (base_sample_size : Z) (rec_type : string)
    (res_dict res_dict' : dict type_counters) g g' :
  compare_rec_type R base_records sel prob base_sample_size rec_type
    rec_type_dict res_dict g = Ok (res_dict', g') ->
  existsb (String.eqb rec_type) FILTERED_ID_TYPES = true
  /\ dict_in rec_type res_dict = false
  /\ is_ok (BLIP_init sel prob (Some 42%Z)) = true
  /\ Forall (fun kv => encoded_rec (snd kv)) rec_type_dict
  /\ (Z.of_nat (length rec_type_dict + length base_records)
      = base_sample_size + 1000)%Z.
Proof.
  unfold compare_rec_type. intros Hrun.
  apply bind_Ok in Hrun as (u1 & g1 & Hassert & Hrun).
  apply assert_run in Hassert as [[Htype Hfresh%negb_true_iff]%andb_true_iff _].
  apply bind_Ok in Hrun as ([hardened pool] & g2 & Hpool & Hrun).
  apply bind_Ok in Hrun as (u3 & g3 & Hsize & Hrun).
  apply assert_run in Hsize as [Hsize [= -> ->]].
  apply bind_Ok in Hrun as (res & g4 & Hloop & _).
  split; [done|]. split; [done|].
  unfold build_pool in Hpool.
  apply bind_Ok in Hpool as (l & h1 & _ & Hpool).
  apply bind_Ok in Hpool as (hd1 & h2 & Hinit & Hpool).
  apply bind_Ok in Hpool as (hardened' & h3 & Hpass1 & Hpool).
  apply bind_Ok in Hpool as (hd2 & h4 & _ & Hpool).
  apply bind_Ok in Hpool as (pool' & h5 & Hpass2 & Hpool).
  apply ret_Ok in Hpool. injection Hpool as -> -> _.
  split.
  { apply lift_Ok in Hinit as (b & -> & _). done. }
  apply harden_records_Ok in Hpass1.
  assert (length hardened' = length rec_type_dict) as Hlen
    by (symmetry; by eapply Forall2_length).
  assert (Z.of_nat (length rec_type_dict + length base_records)
          = base_sample_size + 1000)%Z as Hsz.
  { apply pool_size_ok_spec in Hsize as [_ Hsize]. lia. }
  split; [|done].
  destruct rec_type_dict as [|kv0 rest]; [constructor|].
  assert (pool' <> []) as Hne.
  { intros ->. apply pool_size_ok_spec in Hsize as [Hsize _].
    rewrite Hlen in Hsize. simpl in Hsize. lia. }
  pose proof (for_each_compare_query_inv pool' hardened'
                {| og_bf_dice := zero_counters; blip_bf_dice := zero_counters |}
                g2 Hne) as Hq.
  rewrite Hloop in Hq.
  clear -Hpass1 Hq.
  induction Hpass1 as [|[id r] [id' r'] d d' (_ & Hog & hd & Hr') _ IH];
    [constructor|].
  apply Forall_cons in Hq as [(Hqs & _ & _) Hq]. simpl in *. subst r'.
  constructor; [|by apply IH]. simpl. split; done.
Qed.
End CompareFailures.

(** X18 at a concrete input: a subset of one record and a base pool of one,
    with a [base_sample_size] that fails the size check. *)
Lemma compare_rec_type_raises_only_assertions_witness :
  let base := [("b1", demo_rec ["cd"] [false; false; true; true])] in
  let subset := [("s1", demo_rec ["ab"] [true; true; false; false])] in
  exists e,
    compare_rec_type Tape.R base "ala" 0 1 "r1" subset [] (Tape.seed 3) = Raise e
    /\ e = AssertionError.
Proof.
  intros base subset.
  assert (exists e, compare_rec_type Tape.R base "ala" 0 1 "r1" subset []
                      (Tape.seed 3) = Raise e) as [e Hrun].
  { eexists. vm_compute. reflexivity. }
  exists e. split; [exact Hrun|].
  apply (compare_rec_type_raises_only_assertions Tape.R base subset "ala" 0 1 "r1"
           [] (Tape.seed 3) e Hrun).
Defined.

(** X19 at a concrete input: a subset of two records and a base pool of one,
    with [base_sample_size + 1000 = 3]. *)
Lemma compare_rec_type_success_requires_witness :
  let base := [("b1", demo_rec ["cd"] [false; false; true; true])] in
  let subset := [("s1", demo_rec ["ab"] [true; true; false; false]);
                 ("s2", demo_rec ["ab"; "cd"] [true; true; true; false])] in
  exists res_dict' g',
    compare_rec_type Tape.R base "sch" (1 # 2) (-997) "r1" subset [] (Tape.seed 3)
    = Ok (res_dict', g')
    /\ existsb (String.eqb "r1") FILTERED_ID_TYPES = true
    /\ dict_in "r1" ([] : dict type_counters) = false
    /\ is_ok (BLIP_init "sch" (1 # 2) (Some 42%Z)) = true
    /\ Forall (fun kv => encoded_rec (snd kv)) subset
    /\ (Z.of_nat (length subset + length base) = -997 + 1000)%Z.
Proof.
  intros base subset.
  assert (exists r, compare_rec_type Tape.R base "sch" (1 # 2) (-997) "r1"
                      subset [] (Tape.seed 3) = Ok r) as [[res_dict' g'] Hrun].
  { eexists. vm_compute. reflexivity. }
  exists res_dict', g'. split; [exact Hrun|].
  apply (compare_rec_type_success_requires Tape.R base subset "sch" (1 # 2)
           (-997) "r1" [] res_dict' (Tape.seed 3) g' Hrun).
Defined.

(** X17 at a concrete input: the same subset and base pool. *)
Lemma compare_rec_type_completes_witness :
  let base := [("b1", demo_rec ["cd"] [false; false; true; true])] in
  let subset := [("s1", demo_rec ["ab"] [true; true; false; false]);
                 ("s2", demo_rec ["ab"; "cd"] [true; true; true; false])] in
  shuffle_permutes Tape.R
  /\ existsb (String.eqb "r1") FILTERED_ID_TYPES = true
  /\ dict_in "r1" ([] : dict type_counters) = false
  /\ is_ok (BLIP_init "sch" (1 # 2) (Some 42%Z)) = true
  /\ Forall (fun kv => encoded_rec (snd kv)) base
  /\ Forall (fun kv => encoded_rec (snd kv)) subset
  /\ NoDup (keys base ++ keys subset)
  /\ (Z.of_nat (length subset + length base) = -997 + 1000)%Z
  /\ exists out,
       compare_rec_type Tape.R base "sch" (1 # 2) (-997) "r1" subset []
         (Tape.seed 3) = Ok out.
Proof.
  intros base subset.
  assert (Forall (fun kv => encoded_rec (snd kv)) base) as Hbase
    by (repeat constructor; by eexists).
  assert (Forall (fun kv => encoded_rec (snd kv)) subset) as Hsub
    by (repeat constructor; by eexists).
  assert (NoDup (keys base ++ keys subset)) as Hnd
    by (by apply (bool_decide_unpack _)).
  split; [exact TapeFacts.shuffle_perm|].
  split; [reflexivity|]. split; [reflexivity|]. split; [reflexivity|].
  split; [exact Hbase|]. split; [exact Hsub|]. split; [exact Hnd|].
  split; [reflexivity|].
  apply (compare_rec_type_completes Tape.R TapeFacts.shuffle_perm base subset
           "sch" (1 # 2) (-997) "r1" [] (Tape.seed 3)
           eq_refl eq_refl eq_refl Hbase Hsub Hnd eq_refl).
Defined.

(** ** The table of results *)

Section ResultTable.
Context (R : RandomModule).

Lemma dict_get_missing {V : Type} (k : string) (d : dict V) :
  dict_in k d = false -> dict_get k d = Raise KeyError.
Proof.
  induction d as [|[k' v'] d IH]; simpl; [done|].
  destruct (String.eqb k' k); [done|]. exact IH.
Qed.

Lemma dict_get_present {V : Type} (k : string) (d : dict V) :
  dict_in k d = true -> exists v, dict_get k d = Ok v.
Proof.
  induction d as [|[k' v'] d IH]; simpl; [done|].
  destruct (String.eqb k' k); [by eexists|]. exact IH.
Qed.

Lemma dict_in_keys {V : Type} (k : string) (d : dict V) :
  dict_in k d = false <-> (k ∉ keys d).
Proof.
  unfold keys. induction d as [|[k' v'] d IH]; simpl.
  - split; [intros _; apply not_elem_of_nil|done].
  - rewrite not_elem_of_cons.
    destruct (String.eqb_spec k' k) as [->|Hne]; simpl.
    + split; [done|]. by intros [? _].
    + rewrite IH. split; [|by intros [_ ?]]. intros ?. split; [congruence|done].
Qed.

Lemma dict_set_twice {V : Type} (k : string) (v0 v : V) (d : dict V) :
  dict_set k v (dict_set k v0 d) = dict_set k v d.
Proof.
  induction d as [|[k' v'] d IH]; simpl.
  - by rewrite String.eqb_refl.
  - destruct (String.eqb k' k) eqn:Hk; simpl; rewrite Hk; [done|]. by rewrite IH.
Qed.

Lemma dict_get_elem_of {V : Type} (k : string) (v : V) (d : dict V) :
  NoDup (keys d) -> (k, v) ∈ d -> dict_get k d = Ok v.
Proof.
  unfold keys. induction d as [|[k' v'] d IH]; simpl; intros Hnd Hin.
  - by apply elem_of_nil in Hin.
  - apply NoDup_cons in Hnd as [Hk Hnd].
    apply elem_of_cons in Hin as [[= <- <-]|Hin].
    + by rewrite String.eqb_refl.
    + destruct (String.eqb_spec k' k) as [->|Hne]; [|by apply IH].
      exfalso. apply Hk. apply list_elem_of_fmap. by exists (k, v).
Qed.

(** What a processed subset adds to the table: one new entry, placed last,
    whose counters add up to the size of the subset. *)
Lemma compare_rec_type_Ok (base_records rec_type_dict : dict rec_data)
    (sel : string) (prob : Q) (base_sample_size : Z) (rec_type : string)
    (res_dict res_dict' : dict type_counters) g g' :
  compare_rec_type R base_records sel prob base_sample_size rec_type
    rec_type_dict res_dict g = Ok (res_dict', g') ->
  (rec_type ∉ keys res_dict)
  /\ exists res,
       res_dict' = res_dict ++ [(rec_type, res)]
       /\ total (og_bf_dice res) = length rec_type_dict
       /\ total (blip_bf_dice res) = length rec_type_dict.
Proof.
  unfold compare_rec_type. intros Hrun.
  apply bind_Ok in Hrun as (u1 & g1 & Hassert & Hrun).
  apply assert_run in Hassert as [[_ Hfresh%negb_true_iff]%andb_true_iff _].
  apply bind_Ok in Hrun as ([hardened pool] & g2 & Hpool & Hrun).
  apply bind_Ok in Hrun as (u3 & g3 & _ & Hrun).
  apply bind_Ok in Hrun as (res & g4 & Hloop & Hrun).
  apply ret_Ok in Hrun. injection Hrun as -> _.
  apply dict_in_keys in Hfresh. split; [done|].
  exists res. split.
  { rewrite dict_set_twice. by apply dict_set_fresh. }
  apply build_pool_Ok in Hpool as [Hlen _].
  apply for_each_compare_query_total in Hloop as [Hog Hblip].
  simpl in *. lia.
Qed.

(** The loop over the record types, from any table built so far. *)
Lemma compare_types_Ok (base_records : dict rec_data) (sel : string) (prob : Q)
    (base_sample_size : Z) (data_dict : dict (dict rec_data))
    (res0 res : dict type_counters) g g' :
  NoDup (keys res0) ->
  for_each data_dict
    (fun entry res_dict =>
       let '(rec_type, rec_type_dict) := entry in
       if String.eqb rec_type "b" then ret res_dict
       else compare_rec_type R base_records sel prob base_sample_size rec_type
              rec_type_dict res_dict) res0 g = Ok (res, g') ->
  exists news,
    res = res0 ++ news
    /\ NoDup (keys res)
    /\ Forall2 (fun e r => fst r = fst e
                           /\ total (og_bf_dice (snd r)) = length (snd e)
                           /\ total (blip_bf_dice (snd r)) = length (snd e))
         (filter (fun e => fst e <> "b") data_dict) news.
Proof.
  revert res0 g. induction data_dict as [|[rec_type S] data_dict IH];
    intros res0 g Hnd Hrun.
  - rewrite for_each_nil in Hrun. injection Hrun as <- _.
    exists []. rewrite app_nil_r. split; [done|]. split; [done|]. constructor.
  - rewrite for_each_cons in Hrun. rewrite filter_cons. simpl in *.
    destruct (String.eqb_spec rec_type "b") as [->|Hne].
    + rewrite decide_False by (intros ?; done).
      by apply IH in Hrun.
    + rewrite decide_True by done.
      destruct (compare_rec_type R base_records sel prob base_sample_size
                  rec_type S res0 g) as [[res1 g1]|e1] eqn:Hstep; [|done].
      apply compare_rec_type_Ok in Hstep as (Hfresh & r & -> & Hog & Hbl).
      apply IH in Hrun as (news & -> & Hnd' & Hall).
      * exists ((rec_type, r) :: news). rewrite <- app_assoc in *.
        split; [done|]. split; [done|]. by constructor.
      * unfold keys in *. rewrite map_app. simpl.
        apply NoDup_app. split; [done|]. split; [|apply NoDup_singleton].
        intros x Hx ->%list_elem_of_singleton. done.
Qed.

Lemma compare_types_Raise (base_records : dict rec_data) (sel : string) (prob : Q)
    (base_sample_size : Z) (data_dict : dict (dict rec_data))
    (res0 : dict type_counters) g e :
  for_each data_dict
    (fun entry res_dict =>
       let '(rec_type, rec_type_dict) := entry in
       if String.eqb rec_type "b" then ret res_dict
       else compare_rec_type R base_records sel prob base_sample_size rec_type
              rec_type_dict res_dict) res0 g = Raise e ->
  e = AssertionError.
Proof.
  revert res0 g. induction data_dict as [|[rec_type S] data_dict IH];
    intros res0 g Hrun; [done|].
  rewrite for_each_cons in Hrun. simpl in Hrun.
  destruct (String.eqb rec_type "b"); [by apply IH in Hrun|].
  destruct (compare_rec_type R base_records sel prob base_sample_size
              rec_type S res0 g) as [[res1 g1]|e1] eqn:Hstep;
    [by apply IH in Hrun|].
  injection Hrun as <-. by eapply compare_rec_type_Raise.
Qed.

(** X20.  How [compare_record_pairs] fails: with a [KeyError] when the data
    has no base pool ["b"], and with nothing but an [AssertionError] when it
    has one. *)
Theorem compare_record_pairs_failures (data_dict : dict (dict rec_data))
    (sel : string) (prob : Q) (base_sample_size : Z) g :
  (dict_in "b" data_dict = false ->
   compare_record_pairs R data_dict sel prob base_sample_size g = Raise KeyError)
  /\ (dict_in "b" data_dict = true ->
      forall e,
        compare_record_pairs R data_dict sel prob base_sample_size g = Raise e ->
        e = AssertionError).
Proof.
  unfold compare_record_pairs. split.
  - intros Hb%dict_get_missing. rewrite Hb. done.
  - intros [base Hb]%dict_get_present e Hrun. rewrite Hb in Hrun.
    rewrite (bind_run _ _ g base g) in Hrun by done.
    by eapply compare_types_Raise.
Qed.

(** X21.  The table a successful [compare_record_pairs] returns: its keys
    are the record types of the data other than ["b"], in the order of the
    data, and the counters of each variant of a type's entry add up to the
    number of records of that type. *)
Theorem compare_record_pairs_table (data_dict : dict (dict rec_data))
    (sel : string) (prob : Q) (base_sample_size : Z)
    (res_dict : dict type_counters) g g' :
  compare_record_pairs R data_dict sel prob base_sample_size g
  = Ok (res_dict, g') ->
  keys res_dict = filter (fun t => t <> "b") (keys data_dict)
  /\ forall rec_type rec_type_dict,
       (rec_type, rec_type_dict) ∈ data_dict -> rec_type <> "b" ->
       exists res,
         dict_get rec_type res_dict = Ok res
         /\ total (og_bf_dice res) = length rec_type_dict
         /\ total (blip_bf_dice res) = length rec_type_dict.
Proof.
  unfold compare_record_pairs. intros Hrun.
  apply bind_Ok in Hrun as (base & g1 & _ & Hrun).
  apply compare_types_Ok in Hrun as (news & -> & Hnd & Hall); [|constructor].
  simpl in *. split.
  - clear Hnd. unfold keys.
    induction data_dict as [|[t S] data_dict IH] in news, Hall |- *.
    + rewrite filter_nil in Hall. by apply Forall2_nil_inv_l in Hall as ->.
    + simpl. rewrite filter_cons in Hall. rewrite filter_cons. simpl in *.
      destruct (decide (t <> "b")).
      * apply Forall2_cons_inv_l in Hall as ([t' r] & news' & (Ht & _) & Hall & ->).
        simpl in *. subst t'. f_equal. by apply IH.
      * by apply IH.
  - intros rec_type rec_type_dict Hin Hne.
    assert ((rec_type, rec_type_dict) ∈ filter (fun e => fst e <> "b") data_dict)
      as Hin' by (by apply list_elem_of_filter).
    apply list_elem_of_lookup in Hin' as [i Hi].
    destruct (Forall2_lookup_l _ _ _ _ _ Hall Hi) as ([t' r] & Hr & Ht & Hog & Hbl).
    simpl in *. subst t'. exists r. split; [|done].
    apply dict_get_elem_of; [done|]. by eapply list_elem_of_lookup_2.
Qed.
End ResultTable.

(** X20 at concrete inputs: data without a base pool, and data with a base
    pool whose sizes fail the size check. *)
Lemma compare_record_pairs_failures_witness :
  let base := [("b1", demo_rec ["cd"] [false; false; true; true])] in
  let subset := [("s1", demo_rec ["ab"] [true; true; false; false])] in
  (dict_in "b" [("r1", subset)] = false
   /\ compare_record_pairs Tape.R [("r1", subset)] "ala" 0 1 (Tape.seed 3)
      = Raise KeyError)
  /\ (dict_in "b" [("b", base); ("r1", subset)] = true
      /\ exists e,
           compare_record_pairs Tape.R [("b", base); ("r1", subset)] "ala" 0 1
             (Tape.seed 3) = Raise e
           /\ e = AssertionError).
Proof.
  intros base subset. split.
  - split; [reflexivity|].
    apply (proj1 (compare_record_pairs_failures Tape.R [("r1", subset)] "ala" 0 1
                    (Tape.seed 3))).
    reflexivity.
  - split; [reflexivity|].
    assert (exists e, compare_record_pairs Tape.R [("b", base); ("r1", subset)]
                        "ala" 0 1 (Tape.seed 3) = Raise e) as [e Hrun].
    { eexists. vm_compute. reflexivity. }
    exists e. split; [exact Hrun|].
    apply (proj2 (compare_record_pairs_failures Tape.R
                    [("b", base); ("r1", subset)] "ala" 0 1 (Tape.seed 3))
             eq_refl e Hrun).
Defined.

(** X21 at a concrete input: two subsets of two records around a base pool
    of one record. *)
Lemma compare_record_pairs_table_witness :
  let base := [("b1", demo_rec ["cd"] [false; false; true; true])] in
  let subset1 := [("s1", demo_rec ["ab"] [true; true; false; false]);
                  ("s2", demo_rec ["ab"; "cd"] [true; true; true; false])] in
  let subset2 := [("t1", demo_rec ["cd"] [false; false; true; true]);
                  ("t2", demo_rec ["ef"] [true; false; false; true])] in
  let data := [("r1", subset1); ("b", base); ("q_a", subset2)] in
  exists res_dict g',
    compare_record_pairs Tape.R data "sch" (1 # 2) (-997) (Tape.seed 3)
    = Ok (res_dict, g')
    /\ keys res_dict = filter (fun t => t <> "b") (keys data)
    /\ forall rec_type rec_type_dict,
         (rec_type, rec_type_dict) ∈ data -> rec_type <> "b" ->
         exists res,
           dict_get rec_type res_dict = Ok res
           /\ total (og_bf_dice res) = length rec_type_dict
           /\ total (blip_bf_dice res) = length rec_type_dict.
Proof.
  intros base subset1 subset2 data.
  assert (exists r, compare_record_pairs Tape.R data "sch" (1 # 2) (-997)
                      (Tape.seed 3) = Ok r) as [[res_dict g'] Hrun].
  { eexists. vm_compute. reflexivity. }
  exists res_dict, g'. split; [exact Hrun|].
  apply (compare_record_pairs_table Tape.R data "sch" (1 # 2) (-997) res_dict
           (Tape.seed 3) g' Hrun).
Defined.

(** ** The original variant *)

Section OriginalVariant.
Context (R : RandomModule).
Hypothesis shuffle_ok : shuffle_permutes R.

(** No candidate is more similar to a vector than the vector itself. *)
Lemma dice_self_max (a b : bitarray) :
  (bit_array_dice_sim a b <= bit_array_dice_sim a a)%Q.
Proof.
  destruct (decide (popcount a = 0)) as [Ha|Ha].
  - destruct (decide (popcount a + popcount b = 0)) as [Hz|Hnz].
    + unfold bit_array_dice_sim. rewrite Hz, Ha. done.
    + rewrite (dice_nonzero a b) by done.
      pose proof (popcount_and_le_l a b) as Hle.
      replace (popcount (bit_and a b)) with 0 by lia.
      unfold bit_array_dice_sim. rewrite Ha. simpl. done.
  - apply (Qle_trans _ 1); [apply dice_bounds|].
    rewrite (dice_nonzero a a) by lia. rewrite bit_and_self.
    unfold Qle; simpl. rewrite Zpos_of_nat by lia. lia.
Qed.

Lemma is_maximum_unique (m m' : Q) (l l' : list Q) :
  l ≡ₚ l' -> is_maximum m l -> is_maximum m' l' -> (m == m')%Q.
Proof.
  intros Hperm [Hin Hmax] [Hin' Hmax']. apply Qle_antisym.
  - apply Hmax'. by rewrite <- Hperm.
  - apply Hmax. by rewrite Hperm.
Qed.

Lemma max_value_of_is_maximum (sim_data : dict Q) :
  sim_data <> [] -> is_maximum (max_value_of sim_data) (values sim_data).
Proof.
  intros Hne. unfold max_value_of.
  destruct (py_max_spec (values sim_data)) as (m & -> & Hmax); [|done].
  by destruct sim_data.
Qed.

Lemma max_keys_of_Qeq (sim_data : dict Q) (m m' : Q) :
  (m == m')%Q -> max_keys_of sim_data m = max_keys_of sim_data m'.
Proof.
  intros Heq. unfold max_keys_of. f_equal.
  induction sim_data as [|[k v] sim_data IH]; [done|].
  rewrite !filter_cons. simpl.
  assert (Qeq_bool v m = Qeq_bool v m') as ->.
  { destruct (Qeq_bool v m') eqn:Hv.
    - apply Qeq_bool_iff. apply Qeq_bool_iff in Hv. by rewrite Heq.
    - apply not_true_is_false. intros Hv'%Qeq_bool_iff.
      rewrite Heq in Hv'. apply Qeq_bool_iff in Hv'. congruence. }
  by rewrite IH.
Qed.

Lemma outcome_of_perm (rec_id : string) (ks ks' : list string) :
  ks ≡ₚ ks' -> outcome_of rec_id ks = outcome_of rec_id ks'.
Proof.
  intros Hperm. unfold outcome_of.
  destruct (decide (ks = [rec_id])) as [->|Hne].
  - apply Permutation_singleton_l in Hperm as ->. by rewrite decide_True.
  - rewrite (decide_False (P := ks' = [rec_id])); last first.
    { intros ->. by apply Permutation_singleton_r in Hperm. }
    rewrite (Permutation_length Hperm).
    destruct (decide (length ks' = 1)); [done|].
    destruct (decide (rec_id ∈ ks)) as [Hin|Hnin].
    + rewrite decide_True; [done|]. by rewrite <- Hperm.
    + rewrite decide_False; [done|]. by rewrite <- Hperm.
Qed.

(** The outcome of a query depends on the similarities as a multiset. *)
Lemma outcome_sims_perm (rec_id : string) (sims sims' : dict Q) :
  sims ≡ₚ sims' ->
  outcome_of rec_id (max_keys_of sims (max_value_of sims))
  = outcome_of rec_id (max_keys_of sims' (max_value_of sims')).
Proof.
  intros Hperm.
  destruct sims as [|kv sims].
  { by apply Permutation_nil_l in Hperm as ->. }
  assert (sims' <> []) as Hne'.
  { intros ->. by apply Permutation_nil_r in Hperm. }
  pose proof (max_value_of_is_maximum (kv :: sims) ltac:(done)) as Hm.
  pose proof (max_value_of_is_maximum sims' Hne') as Hm'.
  assert (values (kv :: sims) ≡ₚ values sims') as Hvals.
  { unfold values. by apply Permutation_map. }
  rewrite (max_keys_of_Qeq _ _ _ (is_maximum_unique _ _ _ _ Hvals Hm Hm')).
  apply outcome_of_perm. unfold max_keys_of.
  apply Permutation_map. by rewrite Hperm.
Qed.

Lemma sims_of_og_view (rec : rec_data) (pool : dict rec_data) :
  sims_of og_bf rec pool
  = map (fun e => (fst e, bit_array_dice_sim (default [] (og_bf rec))
                            (default [] (snd e)))) (og_view pool).
Proof. unfold sims_of, og_view. by rewrite map_map. Qed.

(** The outcome of a query in the original variant depends on the query's
    identifier and original vector, and on the identifiers and original
    vectors of the pool, whatever their order. *)
Lemma og_outcome_perm (pool pool' : dict rec_data) (q q' : string * rec_data) :
  og_view pool ≡ₚ og_view pool' ->
  fst q' = fst q -> og_bf (snd q') = og_bf (snd q) ->
  og_outcome pool' q' = og_outcome pool q.
Proof.
  intros Hperm Hid Hog. unfold og_outcome. rewrite Hid.
  apply outcome_sims_perm. rewrite !sims_of_og_view, Hog.
  by apply Permutation_map.
Qed.

(** A query that is in the pool is among its own best matches. *)
Lemma og_outcome_correct (pool : dict rec_data) (q : string * rec_data) :
  (fst q, og_bf (snd q)) ∈ og_view pool -> is_correct (og_outcome pool q).
Proof.
  destruct q as [rec_id rec]. simpl. intros Hin.
  set (a := default [] (og_bf rec)).
  set (sims := sims_of og_bf rec pool).
  assert ((rec_id, bit_array_dice_sim a a) ∈ sims) as Hself.
  { unfold sims. rewrite sims_of_og_view. apply list_elem_of_fmap.
    by exists (rec_id, og_bf rec). }
  assert (sims <> []) as Hne.
  { intros Hnil. rewrite Hnil in Hself. by apply elem_of_nil in Hself. }
  destruct (max_value_of_is_maximum sims Hne) as [Hmin Hmax].
  assert (bit_array_dice_sim a a == max_value_of sims)%Q as Heq.
  { apply Qle_antisym.
    - apply Hmax. unfold values. apply list_elem_of_fmap.
      by exists (rec_id, bit_array_dice_sim a a).
    - unfold values in Hmin.
      apply list_elem_of_fmap in Hmin as ([k v] & Hv & Hkv). simpl in Hv.
      rewrite Hv. unfold sims, sims_of in Hkv.
      apply list_elem_of_fmap in Hkv as ([k' r'] & [= _ ->] & _).
      apply dice_self_max. }
  assert (rec_id ∈ max_keys_of sims (max_value_of sims)) as Hbest.
  { apply elem_of_max_keys_of. by eexists. }
  unfold og_outcome, is_correct, outcome_of. simpl. fold sims.
  destruct (decide (max_keys_of sims (max_value_of sims) = [rec_id])); [by left|].
  destruct (decide (length (max_keys_of sims (max_value_of sims)) = 1)) as [Hlen|].
  - destruct (max_keys_of sims (max_value_of sims)) as [|k [|]]; try done.
    apply list_elem_of_singleton in Hbest. congruence.
  - rewrite decide_True by done. by right.
Qed.

(** The original-variant counters after the loop over the queries. *)
Lemma compare_queries_og (pool queries : dict rec_data) (res : type_counters) g :
  Forall (fun kv => complete_rec (snd kv)) queries ->
  Forall (fun kv => complete_rec (snd kv)) pool ->
  NoDup (keys pool) ->
  (queries <> [] -> pool <> []) ->
  exists res',
    for_each queries (compare_query R pool) res g = Ok (res', g)
    /\ og_bf_dice res'
       = fold_left (fun c q => incr (og_outcome pool q) c) queries (og_bf_dice res).
Proof.
  intros Hq Hpool Hnd Hne. revert res.
  induction Hq as [|[rec_id rec] queries Hrec _ IH]; intros res.
  - by exists res.
  - assert (pool <> []) as Hpne by (by apply Hne).
    destruct (py_max_spec (values (sims_of og_bf rec pool))) as (m_og & Hmog & _).
    { destruct pool; done. }
    destruct (py_max_spec (values (sims_of hd_bf rec pool))) as (m_bl & Hmbl & _).
    { destruct pool; done. }
    rewrite for_each_cons.
    rewrite (compare_query_run R pool rec_id rec res m_og m_bl g) by done.
    destruct (IH ltac:(by intros _)
                {| og_bf_dice :=
                     incr (outcome_of rec_id (max_keys_of (sims_of og_bf rec pool) m_og))
                          (og_bf_dice res);
                   blip_bf_dice :=
                     incr (outcome_of rec_id (max_keys_of (sims_of hd_bf rec pool) m_bl))
                          (blip_bf_dice res) |}) as (res' & Hrun & Hog).
    exists res'. split; [done|]. rewrite Hog. simpl.
    unfold og_outcome, max_value_of. simpl. by rewrite Hmog.
Qed.

Lemma og_view_hardened (hd_instance : BLIP) (d d' : dict rec_data) g g' :
  harden_records R hd_instance d g = Ok (d', g') ->
  Forall2 (fun kv kv' => fst kv' = fst kv /\ og_bf (snd kv') = og_bf (snd kv)) d d'.
Proof.
  intros Hrun%harden_records_Ok.
  induction Hrun as [|[id r] [id' r'] d d' (Hid & _ & hd & Hr) _ IH];
    constructor; [|done].
  simpl in *. by subst.
Qed.

Lemma og_view_Forall2 (d d' : dict rec_data) :
  Forall2 (fun kv kv' => fst kv' = fst kv /\ og_bf (snd kv') = og_bf (snd kv)) d d' ->
  og_view d' = og_view d.
Proof.
  induction 1 as [|[id r] [id' r'] d d' [Hid Hog] _ IH]; [done|].
  unfold og_view in *. simpl in *. by rewrite Hid, Hog, IH.
Qed.

Lemma fold_og_outcome (pool pool' queries queries' : dict rec_data) (c : sim_counters) :
  og_view pool ≡ₚ og_view pool' ->
  Forall2 (fun kv kv' => fst kv' = fst kv /\ og_bf (snd kv') = og_bf (snd kv))
    queries queries' ->
  fold_left (fun c q => incr (og_outcome pool' q) c) queries' c
  = fold_left (fun c q => incr (og_outcome pool q) c) queries c.
Proof.
  intros Hperm Hq. revert c.
  induction Hq as [|q q' queries queries' [Hid Hog] _ IH]; intros c; [done|].
  simpl. rewrite (og_outcome_perm pool pool' q q') by done. apply IH.
Qed.

(** The whole run for a well-formed subset, with the counters of the
    original variant written out. *)
Lemma compare_rec_type_run (base_records rec_type_dict : dict rec_data)
    (sel : string) (prob : Q) (base_sample_size : Z) (rec_type : string)
    (res_dict : dict type_counters) g :
  existsb (String.eqb rec_type) FILTERED_ID_TYPES = true ->
  dict_in rec_type res_dict = false ->
  is_ok (BLIP_init sel prob (Some 42%Z)) = true ->
  Forall (fun kv => encoded_rec (snd kv)) base_records ->
  Forall (fun kv => encoded_rec (snd kv)) rec_type_dict ->
  NoDup (keys base_records ++ keys rec_type_dict) ->
  (Z.of_nat (length rec_type_dict + length base_records) = base_sample_size + 1000)%Z ->
  exists res g',
    compare_rec_type R base_records sel prob base_sample_size rec_type
      rec_type_dict res_dict g = Ok (res_dict ++ [(rec_type, res)], g')
    /\ og_bf_dice res
       = fold_left (fun c q => incr (og_outcome (base_records ++ rec_type_dict) q) c)
           rec_type_dict zero_counters.
Proof.
  intros Htype Hfresh Hinit Hbase Hsub Hnd Hsize.
  unfold compare_rec_type. rewrite Htype, Hfresh. simpl.
  rewrite (bind_run _ _ g tt g) by done.
  pose proof (shuffle_ok _ (dict_merge base_records rec_type_dict) g) as Hperm.
  rewrite (dict_merge_disjoint _ _ Hnd) in Hperm.
  assert (exists hardened pool g',
            build_pool R base_records sel prob rec_type_dict g
            = Ok ((hardened, pool), g')
            /\ Forall (fun kv => complete_rec (snd kv)) hardened
            /\ Forall (fun kv => complete_rec (snd kv)) pool
            /\ Forall2 (fun kv kv' => fst kv' = fst kv
                                      /\ og_bf (snd kv') = og_bf (snd kv))
                 rec_type_dict hardened
            /\ og_view (base_records ++ rec_type_dict) ≡ₚ og_view pool)
    as (hardened & pool & g' & Hpool & Hhard & Hcomp & Hsame & Hview).
  { unfold build_pool. rewrite (dict_merge_disjoint _ _ Hnd).
    destruct (rnd_shuffle R _ (base_records ++ rec_type_dict) g) as [l g1] eqn:Hl.
    rewrite (bind_run _ _ g l g1) by (unfold draw; by rewrite Hl).
    destruct (BLIP_init sel prob (Some 42%Z)) as [hd|] eqn:Hhd; [|done].
    rewrite (bind_run _ _ g1 hd g1) by done.
    destruct (harden_records_run R hd rec_type_dict g1 Hsub) as (h1 & g2 & Hp1 & Hc1).
    rewrite (bind_run _ _ _ _ _ Hp1).
    rewrite (bind_run _ _ g2 hd g2) by done.
    simpl in Hperm.
    assert (dict_of_items l = l) as Hitems.
    { apply dict_of_items_NoDup. unfold keys in *. rewrite Hperm, map_app. done. }
    assert (Forall (fun kv => encoded_rec (snd kv)) (dict_of_items l)) as Hl'.
    { rewrite Hitems, Hperm. by apply Forall_app. }
    destruct (harden_records_run R hd (dict_of_items l) g2 Hl') as (h2 & g3 & Hp2 & Hc2).
    rewrite (bind_run _ _ _ _ _ Hp2). exists h1, h2, g3.
    split; [done|]. split; [done|]. split; [done|].
    split; [by eapply og_view_hardened|].
    rewrite (og_view_Forall2 _ _ (og_view_hardened _ _ _ _ _ Hp2)), Hitems.
    unfold og_view. apply Permutation_map. by symmetry. }
  rewrite (bind_run _ _ _ _ _ Hpool).
  assert (NoDup (keys base_records)) as Hndb.
  { by apply NoDup_app in Hnd as (? & _ & _). }
  pose proof (build_pool_length R shuffle_ok _ _ _ _ _ _ _ _ Hndb Hpool)
    as [Hlen Hplen].
  rewrite (dict_merge_disjoint _ _ Hnd), length_app in Hplen.
  assert (pool_size_ok pool hardened base_records base_sample_size = true) as Hok.
  { apply pool_size_ok_spec. lia. }
  rewrite Hok. rewrite (bind_run _ _ g' tt g') by done.
  assert (NoDup (keys pool)) as Hndp.
  { apply build_pool_Ok in Hpool as [_ Hkeys].
    rewrite (dict_merge_disjoint _ _ Hnd) in Hkeys. rewrite Hkeys.
    assert (NoDup (keys (rnd_shuffle R _ (base_records ++ rec_type_dict) g).1))
      as Hnds.
    { unfold keys in *. rewrite Hperm, map_app. done. }
    by rewrite dict_of_items_NoDup. }
  destruct (compare_queries_og pool hardened
              {| og_bf_dice := zero_counters; blip_bf_dice := zero_counters |} g'
              Hhard Hcomp Hndp) as (res & Hres & Hog).
  { intros Hne ->. simpl in Hplen. destruct hardened; [done|]. simpl in *. lia. }
  rewrite (bind_run _ _ _ _ _ Hres). exists res, g'. split.
  { unfold ret. do 2 f_equal. rewrite dict_set_twice. apply dict_set_fresh.
    by apply dict_in_keys. }
  rewrite Hog. simpl. by apply fold_og_outcome.
Qed.

Lemma fold_incr_correct (pool queries : dict rec_data) (c : sim_counters) :
  Forall (fun q => is_correct (og_outcome pool q)) queries ->
  one_one_wrong c = 0 -> one_n_wrong c = 0 ->
  let c' := fold_left (fun c q => incr (og_outcome pool q) c) queries c in
  one_one_wrong c' = 0 /\ one_n_wrong c' = 0.
Proof.
  intros Hq. revert c. induction Hq as [|q queries Hc _ IH]; intros c H1 H2.
  - done.
  - simpl. apply IH; destruct Hc as [-> | ->]; done.
Qed.
End OriginalVariant.

Section OriginalVariantClaims.

Lemma dict_get_last {V : Type} (k : string) (v : V) (d : dict V) :
  dict_in k d = false -> dict_get k (d ++ [(k, v)]) = Ok v.
Proof.
  intros Hfresh%dict_in_keys.
  rewrite <- (dict_set_fresh k v d) by done. apply dict_get_set.
Qed.

(** X22.  The counts of the original variant are a function of the records
    alone: for a well-formed subset and base pool, two runs of
    [compare_rec_type] with any two generators in any states, and with any
    two valid settings of the hardening, both return, with the same four
    counts under ["og_bf_dice"]. *)
Theorem original_counts_independent_of_randomness (R1 R2 : RandomModule)
    (base_records rec_type_dict : dict rec_data)
    (sel1 sel2 : string) (prob1 prob2 : Q) (base_sample_size : Z)
    (rec_type : string) (res_dict : dict type_counters)
    (g1 : rnd_state R1) (g2 : rnd_state R2) :
  shuffle_permutes R1 ->
  shuffle_permutes R2 ->
  existsb (String.eqb rec_type) FILTERED_ID_TYPES = true ->
  dict_in rec_type res_dict = false ->
  is_ok (BLIP_init sel1 prob1 (Some 42%Z)) = true ->
  is_ok (BLIP_init sel2 prob2 (Some 42%Z)) = true ->
  Forall (fun kv => encoded_rec (snd kv)) base_records ->
  Forall (fun kv => encoded_rec (snd kv)) rec_type_dict ->
  NoDup (keys base_records ++ keys rec_type_dict) ->
  (Z.of_nat (length rec_type_dict + length base_records) = base_sample_size + 1000)%Z ->
  exists res_dict1 g1' res_dict2 g2' res1 res2,
    compare_rec_type R1 base_records sel1 prob1 base_sample_size rec_type
      rec_type_dict res_dict g1 = Ok (res_dict1, g1')
    /\ compare_rec_type R2 base_records sel2 prob2 base_sample_size rec_type
         rec_type_dict res_dict g2 = Ok (res_dict2, g2')
    /\ dict_get rec_type res_dict1 = Ok res1
    /\ dict_get rec_type res_dict2 = Ok res2
    /\ og_bf_dice res1 = og_bf_dice res2.
Proof.
  intros Hs1 Hs2 Htype Hfresh Hinit1 Hinit2 Hbase Hsub Hnd Hsize.
  destruct (compare_rec_type_run R1 Hs1 base_records rec_type_dict sel1 prob1
              base_sample_size rec_type res_dict g1)
    as (res1 & g1' & Hrun1 & Hog1); try done.
  destruct (compare_rec_type_run R2 Hs2 base_records rec_type_dict sel2 prob2
              base_sample_size rec_type res_dict g2)
    as (res2 & g2' & Hrun2 & Hog2); try done.
  exists (res_dict ++ [(rec_type, res1)]), g1',
         (res_dict ++ [(rec_type, res2)]), g2', res1, res2.
  split; [done|]. split; [done|].
  split; [by apply dict_get_last|]. split; [by apply dict_get_last|].
  by rewrite Hog1, Hog2.
Qed.

(** X23.  With the Dice coefficient as specified, the original variant is
    never wrong: for a well-formed subset and base pool the run returns, and
    the counts ["1-1-wrong"] and ["1-n-wrong"] under ["og_bf_dice"] are 0,
    since every query is in the pool and no candidate is more similar to it
    than itself. *)
Theorem original_variant_never_wrong (R : RandomModule)
    (base_records rec_type_dict : dict rec_data)
    (sel : string) (prob : Q) (base_sample_size : Z)
    (rec_type : string) (res_dict : dict type_counters) (g : rnd_state R) :
  shuffle_permutes R ->
  existsb (String.eqb rec_type) FILTERED_ID_TYPES = true ->
  dict_in rec_type res_dict = false ->
  is_ok (BLIP_init sel prob (Some 42%Z)) = true ->
  Forall (fun kv => encoded_rec (snd kv)) base_records ->
  Forall (fun kv => encoded_rec (snd kv)) rec_type_dict ->
  NoDup (keys base_records ++ keys rec_type_dict) ->
  (Z.of_nat (length rec_type_dict + length base_records) = base_sample_size + 1000)%Z ->
  exists res_dict' g' res,
    compare_rec_type R base_records sel prob base_sample_size rec_type
      rec_type_dict res_dict g = Ok (res_dict', g')
    /\ dict_get rec_type res_dict' = Ok res
    /\ one_one_wrong (og_bf_dice res) = 0
    /\ one_n_wrong (og_bf_dice res) = 0.
Proof.
  intros Hs Htype Hfresh Hinit Hbase Hsub Hnd Hsize.
  destruct (compare_rec_type_run R Hs base_records rec_type_dict sel prob
              base_sample_size rec_type res_dict g)
    as (res & g' & Hrun & Hog); try done.
  exists (res_dict ++ [(rec_type, res)]), g', res.
  split; [done|]. split; [by apply dict_get_last|].
  rewrite Hog. apply fold_incr_correct; [|done|done].
  apply Forall_forall. intros [rec_id rec] Hin.
  apply og_outcome_correct. simpl. unfold og_view.
  apply list_elem_of_fmap. exists (rec_id, rec). split; [done|].
  apply elem_of_app. by right.
Qed.
End OriginalVariantClaims.

(** X22 at a concrete input: the tape generator in two states, with the two
    selection methods. *)
Lemma original_counts_independent_of_randomness_witness :
  let base := [("b1", demo_rec ["cd"] [false; false; true; true])] in
  let subset := [("s1", demo_rec ["ab"] [true; true; false; false]);
                 ("s2", demo_rec ["ab"; "cd"] [true; true; true; false])] in
  shuffle_permutes Tape.R
  /\ Forall (fun kv => encoded_rec (snd kv)) base
  /\ Forall (fun kv => encoded_rec (snd kv)) subset
  /\ NoDup (keys base ++ keys subset)
  /\ exists res_dict1 g1' res_dict2 g2' res1 res2,
       compare_rec_type Tape.R base "sch" (1 # 2) (-997) "r1" subset []
         (Tape.seed 3) = Ok (res_dict1, g1')
       /\ compare_rec_type Tape.R base "ala" (1 # 10) (-997) "r1" subset []
            (Tape.seed 7) = Ok (res_dict2, g2')
       /\ dict_get "r1" res_dict1 = Ok res1
       /\ dict_get "r1" res_dict2 = Ok res2
       /\ og_bf_dice res1 = og_bf_dice res2.
Proof.
  intros base subset.
  assert (Forall (fun kv => encoded_rec (snd kv)) base) as Hbase
    by (repeat constructor; by eexists).
  assert (Forall (fun kv => encoded_rec (snd kv)) subset) as Hsub
    by (repeat constructor; by eexists).
  assert (NoDup (keys base ++ keys subset)) as Hnd
    by (by apply (bool_decide_unpack _)).
  split; [exact TapeFacts.shuffle_perm|].
  split; [exact Hbase|]. split; [exact Hsub|]. split; [exact Hnd|].
  apply (original_counts_independent_of_randomness Tape.R Tape.R base subset
           "sch" "ala" (1 # 2) (1 # 10) (-997) "r1" [] (Tape.seed 3) (Tape.seed 7)
           TapeFacts.shuffle_perm TapeFacts.shuffle_perm
           eq_refl eq_refl eq_refl eq_refl Hbase Hsub Hnd eq_refl).
Defined.

(** X23 at a concrete input: the same subset and base pool. *)
Lemma original_variant_never_wrong_witness :
  let base := [("b1", demo_rec ["cd"] [false; false; true; true])] in
  let subset := [("s1", demo_rec ["ab"] [true; true; false; false]);
                 ("s2", demo_rec ["ab"; "cd"] [true; true; true; false])] in
  shuffle_permutes Tape.R
  /\ Forall (fun kv => encoded_rec (snd kv)) base
  /\ Forall (fun kv => encoded_rec (snd kv)) subset
  /\ NoDup (keys base ++ keys subset)
  /\ exists res_dict' g' res,
       compare_rec_type Tape.R base "sch" (1 # 2) (-997) "r1" subset []
         (Tape.seed 3) = Ok (res_dict', g')
       /\ dict_get "r1" res_dict' = Ok res
       /\ one_one_wrong (og_bf_dice res) = 0
       /\ one_n_wrong (og_bf_dice res) = 0.
Proof.
  intros base subset.
  assert (Forall (fun kv => encoded_rec (snd kv)) base) as Hbase
    by (repeat constructor; by eexists).
  assert (Forall (fun kv => encoded_rec (snd kv)) subset) as Hsub
    by (repeat constructor; by eexists).
  assert (NoDup (keys base ++ keys subset)) as Hnd
    by (by apply (bool_decide_unpack _)).
  split; [exact TapeFacts.shuffle_perm|].
  split; [exact Hbase|]. split; [exact Hsub|]. split; [exact Hnd|].
  apply (original_variant_never_wrong Tape.R base subset
           "sch" (1 # 2) (-997) "r1" [] (Tape.seed 3)
           TapeFacts.shuffle_perm
           eq_refl eq_refl eq_refl Hbase Hsub Hnd eq_refl).
Defined.

(** ** The sizes a complete run implies *)

Section PipelineSizes.
Context (R : RandomModule).

Lemma record_count_cons (t : string) (d : dict rec_data)
    (data : dict (dict rec_data)) :
  record_count ((t, d) :: data) = length d + record_count data.
Proof. reflexivity. Qed.

Lemma q_gram_sets_length (d : dict rec_data) (l : list (list string)) :
  q_gram_sets d = Ok l -> length l = length d.
Proof.
  revert l. induction d as [|[id rec] d IH]; intros l; simpl.
  - by intros [= <-].
  - destruct (q_gram_set rec) as [qs|]; [|done]. simpl.
    destruct (q_gram_sets d) as [l'|]; [|done]. simpl.
    intros [= <-]. simpl. f_equal. by apply IH.
Qed.

(** The list the main program checks has one q-gram set for each record. *)
Lemma combined_qs_list_length (data : dict (dict rec_data))
    (l : list (list string)) :
  combined_qs_list data = Ok l -> length l = record_count data.
Proof.
  revert l. induction data as [|[t d] data IH]; intros l; simpl.
  - by intros [= <-].
  - destruct (q_gram_sets d) as [l1|] eqn:Hd; [|done]. simpl.
    destruct (combined_qs_list data) as [l2|]; [|done]. simpl.
    intros [= <-]. rewrite length_app, record_count_cons.
    rewrite (q_gram_sets_length _ _ Hd). f_equal. by apply IH.
Qed.

Lemma check_total_Ok (data : dict (dict rec_data)) (base_sample_size : Z) :
  check_total data base_sample_size = Ok tt ->
  (Z.of_nat (record_count data) = base_sample_size + 12000)%Z.
Proof.
  unfold check_total.
  destruct (combined_qs_list data) as [l|] eqn:Hl; [|done]. simpl.
  rewrite <- (combined_qs_list_length _ _ Hl).
  by destruct (Z.eqb_spec (Z.of_nat (length l)) (base_sample_size + 12000)).
Qed.

Lemma map_dict_Ok {V : Type} (body : string -> V -> M R V) (d d' : dict V) g g' :
  map_dict R body d g = Ok (d', g') ->
  Forall2 (fun e e' => fst e' = fst e
                       /\ exists g0 g1, body (fst e) (snd e) g0 = Ok (snd e', g1))
    d d'.
Proof.
  revert d' g. induction d as [|[k v] d IH]; intros d' g.
  - rewrite map_dict_nil. intros [= <- _]. constructor.
  - rewrite map_dict_cons.
    destruct (body k v g) as [[v' g1]|e] eqn:Hbody; [|done].
    destruct (map_dict R body d g1) as [[d'' g2]|e] eqn:Hrest; [|done].
    intros [= <- <-]. constructor; [|by eapply IH].
    simpl. split; [done|]. by exists g, g1.
Qed.

(** Encoding keeps the record types and the number of records of each. *)
Lemma encode_bfs_Ok_shape (md5 : string -> Z) (data out : dict (dict rec_data))
    (l_b k_val : Z) g g' :
  encode_bfs R md5 data l_b k_val g = Ok (out, g') ->
  Forall2 (fun e e' => fst e' = fst e /\ length (snd e') = length (snd e)) data out.
Proof.
  unfold encode_bfs. intros Hrun.
  apply bind_Ok in Hrun as (RH & g1 & _ & Hrun).
  apply map_dict_Ok in Hrun.
  eapply Forall2_impl; [exact Hrun|].
  intros [t d] [t' d'] [Ht (g0 & g2 & Hd)]. split; [done|]. simpl in *.
  apply map_dict_Ok in Hd. symmetry. by eapply Forall2_length.
Qed.

Lemma compare_rec_type_size (base_records rec_type_dict : dict rec_data)
    (sel : string) (prob : Q) (base_sample_size : Z) (rec_type : string)
    (res_dict res_dict' : dict type_counters) g g' :
  compare_rec_type R base_records sel prob base_sample_size rec_type
    rec_type_dict res_dict g = Ok (res_dict', g') ->
  (Z.of_nat (length rec_type_dict + length base_records)
   = base_sample_size + 1000)%Z.
Proof.
  unfold compare_rec_type. intros Hrun.
  apply bind_Ok in Hrun as (u1 & g1 & _ & Hrun).
  apply bind_Ok in Hrun as ([hardened pool] & g2 & Hpool & Hrun).
  apply bind_Ok in Hrun as (u3 & g3 & Hsize & _).
  apply assert_run in Hsize as [Hsize _].
  apply build_pool_Ok in Hpool as [Hlen _].
  apply pool_size_ok_spec in Hsize as [_ Hsize]. lia.
Qed.

Lemma compare_types_sizes (base_records : dict rec_data) (sel : string) (prob : Q)
    (base_sample_size : Z) (data_dict : dict (dict rec_data))
    (res0 res : dict type_counters) g g' :
  for_each data_dict
    (fun entry res_dict =>
       let '(rec_type, rec_type_dict) := entry in
       if String.eqb rec_type "b" then ret res_dict
       else compare_rec_type R base_records sel prob base_sample_size rec_type
              rec_type_dict res_dict) res0 g = Ok (res, g') ->
  Forall (fun e => fst e <> "b" ->
                   (Z.of_nat (length (snd e) + length base_records)
                    = base_sample_size + 1000)%Z) data_dict.
Proof.
  revert res0 g. induction data_dict as [|[rec_type S] data_dict IH];
    intros res0 g Hrun; [constructor|].
  rewrite for_each_cons in Hrun. simpl in Hrun.
  destruct (String.eqb_spec rec_type "b") as [->|Hne].
  - constructor; [done|]. by apply IH in Hrun.
  - destruct (compare_rec_type R base_records sel prob base_sample_size
                rec_type S res0 g) as [[res1 g1]|e1] eqn:Hstep; [|done].
    constructor; [|by apply IH in Hrun].
    intros _. simpl. by eapply compare_rec_type_size.
Qed.

Lemma filter_other_keys {V : Type} (k : string) (d : dict V) :
  k ∉ keys d -> filter (fun e => fst e <> k) d = d.
Proof.
  unfold keys. induction d as [|[k0 v0] d IH]; [done|]. simpl.
  intros [Hne Hk]%not_elem_of_cons. rewrite filter_cons. simpl.
  rewrite decide_True by done. by rewrite IH.
Qed.

Lemma length_filter_other_keys {V : Type} (k : string) (v : V) (d : dict V) :
  NoDup (keys d) -> dict_get k d = Ok v ->
  length d = S (length (filter (fun e => fst e <> k) d)).
Proof.
  unfold keys. induction d as [|[t0 d0] d IH]; simpl; [done|].
  intros [Hk Hnd]%NoDup_cons. rewrite filter_cons. simpl.
  destruct (String.eqb_spec t0 k) as [->|Hne].
  - intros _. rewrite decide_False by (by intros ?).
    by rewrite (filter_other_keys k d).
  - intros Hget. rewrite decide_True by done. simpl. f_equal. by apply IH.
Qed.

Lemma record_count_split (k : string) (B : dict rec_data)
    (data : dict (dict rec_data)) :
  NoDup (keys data) ->
  dict_get k data = Ok B ->
  record_count data = length B + record_count (filter (fun e => fst e <> k) data).
Proof.
  unfold keys. induction data as [|[t0 d0] data IH]; simpl; [done|].
  intros [Hk Hnd]%NoDup_cons. rewrite filter_cons. simpl.
  destruct (String.eqb_spec t0 k) as [->|Hne].
  - intros [= ->]. rewrite decide_False by (by intros ?).
    by rewrite (filter_other_keys k data).
  - intros Hget. rewrite decide_True by done.
    rewrite !record_count_cons, (IH Hnd Hget). lia.
Qed.

Lemma record_count_const (c : nat) (data : dict (dict rec_data)) :
  Forall (fun e => length (snd e) = c) data ->
  record_count data = length data * c.
Proof.
  induction 1 as [|[t d] data Hd _ IH]; [done|].
  rewrite record_count_cons, IH. simpl in *. lia.
Qed.

Lemma dict_get_related {V : Type} (k : string) (d d' : dict (dict V))
    (v' : dict V) :
  Forall2 (fun e e' => fst e' = fst e /\ length (snd e') = length (snd e)) d d' ->
  dict_get k d' = Ok v' ->
  exists v, dict_get k d = Ok v /\ length v = length v'.
Proof.
  induction 1 as [|[t0 v0] [t1 v1] d d' [Ht Hv] _ IH]; simpl; [done|].
  simpl in Ht, Hv. subst t1.
  destruct (String.eqb t0 k); [|exact IH].
  intros [= <-]. by exists v0.
Qed.

(** X28.  The sizes a complete run implies.  For data of thirteen record
    types: if the check of the number of records passes, the data is encoded,
    and [compare_record_pairs] then returns, all for the same
    [base_sample_size], then the base pool ["b"] has exactly
    [base_sample_size] records and every other record type has exactly 1000.
    The total of [base_sample_size + 12000] and the pool size of
    [base_sample_size + 1000] checked for each of the twelve subsets leave no
    other sizes. *)
Theorem complete_run_sizes (md5 : string -> Z) (base_sample_size : Z)
    (l_b k_val : Z) (sel : string) (prob : Q)
    (data enc : dict (dict rec_data)) (res : dict type_counters) g g1 g2 :
  NoDup (keys data) ->
  length data = length FILTERED_ID_TYPES ->
  check_total data base_sample_size = Ok tt ->
  encode_bfs R md5 data l_b k_val g = Ok (enc, g1) ->
  compare_record_pairs R enc sel prob base_sample_size g1 = Ok (res, g2) ->
  exists base,
    dict_get "b" data = Ok base
    /\ Z.of_nat (length base) = base_sample_size
    /\ forall rec_type rec_type_dict,
         (rec_type, rec_type_dict) ∈ data -> rec_type <> "b" ->
         length rec_type_dict = 1000.
Proof.
  intros Hnd Hlen Htot%check_total_Ok Henc Hcmp.
  apply encode_bfs_Ok_shape in Henc.
  unfold compare_record_pairs in Hcmp.
  apply bind_Ok in Hcmp as (base' & g3 & Hbase & Hcmp).
  apply lift_Ok in Hbase as (base'' & Hbase & [= <- <-]).
  apply compare_types_sizes in Hcmp.
  destruct (dict_get_related "b" data enc base' Henc Hbase) as (base & Hb & Hblen).
  assert (forall t S, (t, S) ∈ data -> t <> "b" ->
            (Z.of_nat (length S + length base) = base_sample_size + 1000)%Z)
    as Hsizes.
  { intros t S Hin Hne. apply list_elem_of_lookup in Hin as [i Hi].
    destruct (Forall2_lookup_l _ _ _ _ _ Henc Hi) as ([t' S'] & Hi' & Ht & HS).
    simpl in *. subst t'.
    pose proof (proj1 (Forall_lookup _ _) Hcmp i _ Hi' Hne) as Hsz.
    simpl in Hsz. lia. }
  pose proof (record_count_split "b" base data Hnd Hb) as Hcount.
  pose proof (length_filter_other_keys "b" base data Hnd Hb) as Hlen'.
  set (others := filter (fun e => fst e <> "b") data) in *.
  assert (length others = 12) as H12.
  { rewrite Hlen in Hlen'. simpl in Hlen'. lia. }
  assert (Forall (fun e => length (snd e)
                           = Z.to_nat (base_sample_size + 1000) - length base)
            others) as Hconst.
  { apply Forall_forall. intros [t S] [Hne Hin]%list_elem_of_filter.
    simpl in *. pose proof (Hsizes t S Hin Hne). lia. }
  rewrite (record_count_const _ _ Hconst), H12 in Hcount.
  destruct others as [|[t0 S0] others'] eqn:Hothers; [done|].
  assert ((t0, S0) ∈ filter (fun e => fst e <> "b") data) as Hin0.
  { fold others. rewrite Hothers. apply list_elem_of_here. }
  apply list_elem_of_filter in Hin0 as [Hne0 Hin0]. simpl in Hne0.
  pose proof (Hsizes t0 S0 Hin0 Hne0) as Hs0.
  exists base. split; [done|]. split; [lia|].
  intros t S Hin Hne. pose proof (Hsizes t S Hin Hne). lia.
Qed.
End PipelineSizes.

(** ** Well-formed data is checked, encoded and compared to the end *)

Section PipelineCompletes.
Context (R : RandomModule).
Hypothesis shuffle_ok : shuffle_permutes R.
Hypothesis randint_ok : randint_in_range R.

Lemma valid_type_elem_of (t : string) :
  existsb (String.eqb t) FILTERED_ID_TYPES = true <-> t ∈ FILTERED_ID_TYPES.
Proof.
  rewrite existsb_eqb_elem_of. apply bool_decide_eq_true.
Qed.

Lemma dict_related_keys {V : Type} (P : V -> V -> Prop) (d d' : dict V) :
  dict_related P d d' -> keys d' = keys d.
Proof.
  unfold keys. induction 1 as [|[k v] [k' v'] d d' [Hk _] _ IH]; [done|].
  simpl in *. by rewrite Hk, IH.
Qed.

Lemma dict_related_get {V : Type} (P : V -> V -> Prop) (d d' : dict V)
    (k : string) (v : V) :
  dict_related P d d' -> dict_get k d = Ok v ->
  exists v', dict_get k d' = Ok v' /\ P v v'.
Proof.
  induction 1 as [|[k0 v0] [k1 v1] d d' [Hk HP] _ IH]; simpl; [done|].
  simpl in Hk, HP. subst k1.
  destruct (String.eqb k0 k); [|exact IH]. intros [= <-]. by exists v1.
Qed.

Lemma encodes_encoded (RH : RandomHashing) (l_b : Z) (S S' : dict rec_data) :
  dict_related (encodes R RH l_b) S S' ->
  Forall (fun kv => encoded_rec (snd kv)) S'.
Proof.
  induction 1 as [|[k r] [k' r'] S S' [_ (qs & Hqs & Hr')] _ IH]; constructor;
    [|done].
  simpl in *. subst r'. split; simpl; by eexists.
Qed.

Lemma q_gram_sets_Ok (d : dict rec_data) :
  Forall (fun kv => is_Some (q_gram_set (snd kv))) d ->
  exists l, q_gram_sets d = Ok l.
Proof.
  induction 1 as [|[id rec] d [qs Hqs] _ [l IH]]; simpl; [by eexists|].
  simpl in Hqs. rewrite Hqs, IH. by eexists.
Qed.

Lemma combined_qs_list_Ok (data : dict (dict rec_data)) :
  Forall (fun t => Forall (fun kv => is_Some (q_gram_set (snd kv))) (snd t)) data ->
  exists l, combined_qs_list data = Ok l.
Proof.
  induction 1 as [|[t d] data Hd _ [l IH]]; simpl; [by eexists|].
  destruct (q_gram_sets_Ok d Hd) as [l1 ->]. rewrite IH. by eexists.
Qed.

(** The check of the number of records passes on well-formed data. *)
Lemma check_total_well_formed (base_sample_size : Z)
    (data : dict (dict rec_data)) :
  well_formed_data base_sample_size data ->
  check_total data base_sample_size = Ok tt.
Proof.
  intros (Hperm & Hqs & base & Hb & Hlen & Hsub).
  assert (NoDup (keys data)) as Hnd.
  { rewrite Hperm. by apply (bool_decide_unpack _). }
  unfold check_total. destruct (combined_qs_list_Ok data Hqs) as [l Hl].
  rewrite Hl. simpl. rewrite (combined_qs_list_length _ _ Hl).
  rewrite (record_count_split "b" base data Hnd Hb).
  pose proof (length_filter_other_keys "b" base data Hnd Hb) as Hlen'.
  rewrite (record_count_const 1000).
  - assert (length data = 13) as H13.
    { rewrite <- (length_map fst data). fold (keys data). by rewrite Hperm. }
    destruct (Z.eqb_spec
                (Z.of_nat (length base
                           + length (filter (fun e => fst e <> "b") data) * 1000))
                (base_sample_size + 12000)); [done|lia].
  - apply Forall_forall. intros [t S] [Hne Hin]%list_elem_of_filter.
    by destruct (Hsub t S Hin Hne).
Qed.

(** Every subset of well-formed encoded data is compared. *)
Lemma compare_types_complete (base_records : dict rec_data) (sel : string)
    (prob : Q) (base_sample_size : Z) (data_dict : dict (dict rec_data))
    (res0 : dict type_counters) g :
  is_ok (BLIP_init sel prob (Some 42%Z)) = true ->
  Forall (fun kv => encoded_rec (snd kv)) base_records ->
  Forall (fun e => fst e <> "b" ->
            existsb (String.eqb (fst e)) FILTERED_ID_TYPES = true
            /\ Forall (fun kv => encoded_rec (snd kv)) (snd e)
            /\ NoDup (keys base_records ++ keys (snd e))
            /\ (Z.of_nat (length (snd e) + length base_records)
                = base_sample_size + 1000)%Z) data_dict ->
  NoDup (keys data_dict) ->
  (forall t, t ∈ keys data_dict -> t ∉ keys res0) ->
  exists out,
    for_each data_dict
      (fun entry res_dict =>
         let '(rec_type, rec_type_dict) := entry in
         if String.eqb rec_type "b" then ret res_dict
         else compare_rec_type R base_records sel prob base_sample_size rec_type
                rec_type_dict res_dict) res0 g = Ok out.
Proof.
  intros Hinit Hbase Hdata. revert res0 g.
  induction Hdata as [|[t S] data_dict Ht _ IH]; intros res0 g Hnd Hfresh.
  - by eexists.
  - unfold keys in Hnd. simpl in Hnd. apply NoDup_cons in Hnd as [Hnew Hnd].
    rewrite for_each_cons. cbn [fst snd] in *. cbv beta iota.
    destruct (String.eqb_spec t "b") as [->|Hne].
    + apply IH; [done|]. intros t' Ht'. apply Hfresh. by apply list_elem_of_further.
    + destruct (Ht Hne) as (Hvalid & Henc & HndS & Hsize).
      destruct (compare_rec_type_run R shuffle_ok base_records S sel prob
                  base_sample_size t res0 g) as (r & g1 & -> & _); try done.
      { apply dict_in_keys, Hfresh, list_elem_of_here. }
      apply IH; [done|]. intros t' Ht'. unfold keys. rewrite map_app. simpl.
      intros [Hin | ->%list_elem_of_singleton]%elem_of_app.
      * apply (Hfresh t'); [by apply list_elem_of_further|done].
      * done.
Qed.

(** Well-formed data is encoded, and the encoded data is what the comparison
    needs. *)
Lemma pipeline_encoded (md5 : string -> Z) (data : dict (dict rec_data))
    (base_sample_size : Z) (l_b k_val : Z) g :
  well_formed_data base_sample_size data ->
  (1 < l_b)%Z -> (0 < k_val)%Z ->
  exists enc g1 base,
    encode_bfs R md5 data l_b k_val g = Ok (enc, g1)
    /\ dict_get "b" enc = Ok base
    /\ NoDup (keys enc)
    /\ length enc = length FILTERED_ID_TYPES
    /\ Forall (fun kv => encoded_rec (snd kv)) base
    /\ (Z.of_nat (length base) = base_sample_size)%Z
    /\ Forall (fun e => fst e <> "b" ->
                 existsb (String.eqb (fst e)) FILTERED_ID_TYPES = true
                 /\ Forall (fun kv => encoded_rec (snd kv)) (snd e)
                 /\ NoDup (keys base ++ keys (snd e))
                 /\ length (snd e) = 1000) enc.
Proof.
  intros (Hperm & Hqs & B & HB & HlenB & Hsub) HL Hk.
  assert (NoDup (keys data)) as Hnd.
  { rewrite Hperm. by apply (bool_decide_unpack _). }
  pose proof (RandomHashing_init_valid md5 l_b k_val false HL Hk) as Hinit.
  destruct (encode_bfs_run R randint_ok md5 data l_b k_val _ g Hinit Hqs)
    as (enc & g1 & Henc & Hrel).
  pose proof (dict_related_keys _ _ _ Hrel) as Hkenc.
  destruct (dict_related_get _ _ _ _ _ Hrel HB) as (base & Hbase' & HrelB).
  pose proof (dict_related_keys _ _ _ HrelB) as HkB.
  assert (length base = length B) as Hlb.
  { rewrite <- (length_map fst base), <- (length_map fst B).
    fold (keys base) (keys B). by rewrite HkB. }
  exists enc, g1, base.
  split; [done|]. split; [done|].
  split; [by rewrite Hkenc|]. split.
  { rewrite <- (length_map fst enc). fold (keys enc). by rewrite Hkenc, Hperm. }
  split; [by eapply encodes_encoded|]. split; [lia|].
  apply Forall_forall. intros [t S'] Hin Hne. simpl in *.
  apply list_elem_of_lookup in Hin as [i Hi].
  destruct (Forall2_lookup_r _ _ _ _ _ Hrel Hi) as ([t0 S] & Hi0 & Ht & HrelS).
  simpl in *. subst t0.
  assert ((t, S) ∈ data) as HinS by (by eapply list_elem_of_lookup_2).
  assert (t ∈ keys data) as Htk.
  { unfold keys. apply list_elem_of_fmap. by exists (t, S). }
  destruct (Hsub t S HinS Hne) as [Hlen HndS].
  pose proof (dict_related_keys _ _ _ HrelS) as HkS.
  split.
  { apply valid_type_elem_of. by rewrite <- Hperm. }
  split; [by eapply encodes_encoded|]. split.
  - by rewrite HkS, HkB.
  - rewrite <- (length_map fst S'). fold (keys S'). rewrite HkS.
    unfold keys. by rewrite length_map.
Qed.

(** The three stages on well-formed data. *)
Lemma pipeline_run (md5 : string -> Z) (data : dict (dict rec_data))
    (base_sample_size : Z) (l_b k_val : Z) (sel : string) (prob : Q) g :
  well_formed_data base_sample_size data ->
  (1 < l_b)%Z -> (0 < k_val)%Z ->
  is_ok (BLIP_init sel prob (Some 42%Z)) = true ->
  exists enc g1 res g2,
    check_total data base_sample_size = Ok tt
    /\ encode_bfs R md5 data l_b k_val g = Ok (enc, g1)
    /\ compare_record_pairs R enc sel prob base_sample_size g1 = Ok (res, g2).
Proof.
  intros Hwf HL Hk Hinit.
  destruct (pipeline_encoded md5 data base_sample_size l_b k_val g Hwf HL Hk)
    as (enc & g1 & base & Henc & Hb & Hnd & _ & Hbase & Hlen & Hsub).
  destruct (compare_types_complete base sel prob base_sample_size enc [] g1)
    as [[res g2] Hcmp]; try done.
  { eapply Forall_impl; [exact Hsub|]. intros [t S] HS Hne.
    destruct (HS Hne) as (? & ? & ? & HlenS). simpl in *.
    repeat split; try done. lia. }
  { intros t _. apply not_elem_of_nil. }
  exists enc, g1, res, g2. split; [by apply check_total_well_formed|].
  split; [done|].
  unfold compare_record_pairs. rewrite Hb.
  by rewrite (bind_run _ _ g1 base g1).
Qed.

(** X29.  The pipeline on well-formed data.  If the data has the thirteen
    record types, every record has a q-gram set, the base pool ["b"] has
    [base_sample_size] records, and each of the twelve other types has 1000
    records with distinct identifiers that do not occur in the base pool, then,
    for a filter length above 1, a positive number of hash functions and valid
    hardening parameters, the check of the number of records passes and
    [encode_bfs] and [compare_record_pairs] return; the table has twelve
    entries, and in each the counters of either variant add up to 1000. *)
Theorem pipeline_completes (md5 : string -> Z) (data : dict (dict rec_data))
    (base_sample_size : Z) (l_b k_val : Z) (sel : string) (prob : Q) g :
  well_formed_data base_sample_size data ->
  (1 < l_b)%Z -> (0 < k_val)%Z ->
  is_ok (BLIP_init sel prob (Some 42%Z)) = true ->
  exists enc g1 res g2,
    check_total data base_sample_size = Ok tt
    /\ encode_bfs R md5 data l_b k_val g = Ok (enc, g1)
    /\ compare_record_pairs R enc sel prob base_sample_size g1 = Ok (res, g2)
    /\ length res = 12
    /\ Forall (fun r => total (og_bf_dice (snd r)) = 1000
                        /\ total (blip_bf_dice (snd r)) = 1000) res.
Proof.
  intros Hwf HL Hk Hinit.
  destruct (pipeline_encoded md5 data base_sample_size l_b k_val g Hwf HL Hk)
    as (enc & g1 & base & Henc & Hb & Hnd & Hlen13 & Hbase & Hlen & Hsub).
  destruct (compare_types_complete base sel prob base_sample_size enc [] g1)
    as [[res g2] Hcmp]; try done.
  { eapply Forall_impl; [exact Hsub|]. intros [t S] HS Hne.
    destruct (HS Hne) as (? & ? & ? & HlenS). simpl in *.
    repeat split; try done. lia. }
  { intros t _. apply not_elem_of_nil. }
  exists enc, g1, res, g2. split; [by apply check_total_well_formed|].
  split; [done|]. split.
  { unfold compare_record_pairs. rewrite Hb.
    by rewrite (bind_run _ _ g1 base g1). }
  apply compare_types_Ok in Hcmp as (news & -> & _ & Hall); [|constructor].
  simpl. split.
  - rewrite <- (Forall2_length _ _ _ Hall).
    pose proof (length_filter_other_keys "b" base enc Hnd Hb) as Hcount.
    rewrite Hlen13 in Hcount. simpl in Hcount. lia.
  - eapply Forall2_Forall_r; [exact Hall|].
    apply Forall_forall.
    intros [t S] [Hne Hin]%list_elem_of_filter [t' r] (_ & Hog & Hbl).
    simpl in *.
    pose proof (proj1 (Forall_forall _ _) Hsub (t, S) Hin Hne) as (_ & _ & _ & HlenS).
    simpl in HlenS. lia.
Qed.
End PipelineCompletes.

(** ** The pipeline on concrete data *)

Section DemoData.

Lemma length_demo_subset (start n : Z) :
  length (demo_subset start n) = Z.to_nat n.
Proof. unfold demo_subset. by rewrite length_fmap, length_seqZ. Qed.

Lemma keys_demo_subset (start n : Z) :
  keys (demo_subset start n) = pretty <$> seqZ start n.
Proof.
  unfold keys, demo_subset. change (map ?f ?l) with (f <$> l).
  by rewrite <- list_fmap_compose.
Qed.

Lemma demo_subset_q_grams (start n : Z) :
  Forall (fun kv => is_Some (q_gram_set (snd kv))) (demo_subset start n).
Proof.
  unfold demo_subset. apply Forall_fmap, Forall_forall. intros j _. by eexists.
Qed.

(** Subsets numbered from disjoint ranges share no identifier. *)
Lemma demo_subsets_disjoint (start1 n1 start2 n2 : Z) :
  (start1 + n1 <= start2 \/ start2 + n2 <= start1)%Z ->
  NoDup (keys (demo_subset start1 n1) ++ keys (demo_subset start2 n2)).
Proof.
  intros Hdisj. rewrite !keys_demo_subset, <- fmap_app.
  apply NoDup_fmap_2; [apply _|].
  apply NoDup_app. split; [apply NoDup_seqZ|]. split; [|apply NoDup_seqZ].
  intros j Hj1%elem_of_seqZ Hj2%elem_of_seqZ. lia.
Qed.

Lemma demo_data_well_formed : well_formed_data 1 demo_data.
Proof.
  split; [by change (keys demo_data) with FILTERED_ID_TYPES|]. split.
  { unfold demo_data. do 13 (constructor; [apply demo_subset_q_grams|]).
    constructor. }
  exists (demo_subset 12000 1). split; [reflexivity|].
  split; [by rewrite length_demo_subset|].
  intros t S Hin Hne. unfold demo_data in Hin.
  rewrite !elem_of_cons, elem_of_nil in Hin.
  destruct Hin as [Hin|[Hin|[Hin|[Hin|[Hin|[Hin|[Hin|[Hin|[Hin|[Hin|[Hin|[Hin|[Hin|[]]]]]]]]]]]]]];
    injection Hin as -> ->; try done;
    (split; [by rewrite length_demo_subset|apply demo_subsets_disjoint; lia]).
Qed.
End DemoData.

(** X28 at a concrete input: [demo_data], 12001 records, with
    [base_sample_size = 1], 8 bits and 2 hash functions. *)
Lemma complete_run_sizes_witness :
  NoDup (keys demo_data)
  /\ length demo_data = length FILTERED_ID_TYPES
  /\ exists enc res g1 g2,
       check_total demo_data 1 = Ok tt
       /\ encode_bfs Tape.R radix_hash demo_data 8 2 (Tape.seed 3) = Ok (enc, g1)
       /\ compare_record_pairs Tape.R enc "sch" (1 # 2) 1 g1 = Ok (res, g2)
       /\ exists base,
            dict_get "b" demo_data = Ok base
            /\ Z.of_nat (length base) = 1%Z
            /\ forall rec_type rec_type_dict,
                 (rec_type, rec_type_dict) ∈ demo_data -> rec_type <> "b" ->
                 length rec_type_dict = 1000.
Proof.
  assert (NoDup (keys demo_data)) as Hnd.
  { change (keys demo_data) with FILTERED_ID_TYPES.
    by apply (bool_decide_unpack _). }
  split; [exact Hnd|]. split; [reflexivity|].
  destruct (pipeline_run Tape.R TapeFacts.shuffle_perm TapeFacts.randint_range
              radix_hash demo_data 1 8 2 "sch" (1 # 2) (Tape.seed 3)
              demo_data_well_formed eq_refl eq_refl eq_refl)
    as (enc & g1 & res & g2 & Htot & Henc & Hcmp).
  exists enc, res, g1, g2.
  split; [exact Htot|]. split; [exact Henc|]. split; [exact Hcmp|].
  apply (complete_run_sizes Tape.R radix_hash 1 8 2 "sch" (1 # 2)
           demo_data enc res (Tape.seed 3) g1 g2 Hnd eq_refl Htot Henc Hcmp).
Defined.

(** X29 at a concrete input: the same data. *)
Lemma pipeline_completes_witness :
  shuffle_permutes Tape.R
  /\ randint_in_range Tape.R
  /\ well_formed_data 1 demo_data
  /\ is_ok (BLIP_init "sch" (1 # 2) (Some 42%Z)) = true
  /\ exists enc g1 res g2,
       check_total demo_data 1 = Ok tt
       /\ encode_bfs Tape.R radix_hash demo_data 8 2 (Tape.seed 3) = Ok (enc, g1)
       /\ compare_record_pairs Tape.R enc "sch" (1 # 2) 1 g1 = Ok (res, g2)
       /\ length res = 12
       /\ Forall (fun r => total (og_bf_dice (snd r)) = 1000
                           /\ total (blip_bf_dice (snd r)) = 1000) res.
Proof.
  split; [exact TapeFacts.shuffle_perm|].
  split; [exact TapeFacts.randint_range|].
  split; [exact demo_data_well_formed|]. split; [reflexivity|].
  apply (pipeline_completes Tape.R TapeFacts.shuffle_perm TapeFacts.randint_range
           radix_hash demo_data 1 8 2 "sch" (1 # 2) (Tape.seed 3)
           demo_data_well_formed eq_refl eq_refl eq_refl).
Defined.
